(** * PyLMI-SDP: symbolic LMIs to numerical SDP data

    A shallow embedding of [lmi_sdp/lm.py], [lmi_sdp/lmi.py] and
    [lmi_sdp/sdp.py], together with the fragment of SymPy these modules
    call into (numbers, symbols, sums, products and powers; [Add], scalar
    [Mul], [as_coeff_Mul], [as_coefficients_dict], [expand],
    [free_symbols]). *)

From Stdlib Require Import QArith Qcanon Ascii String.
From stdpp Require Import base decidable option list strings gmap gmultiset sorting.
From Equations Require Import Equations.

Set Warnings "-register-all".

(** ** Python results and exceptions *)

Inductive exn :=
| NonLinearExpressionError (msg : string)
| NonLinearMatrixError (msg : string)
| NonSquareMatrixError (msg : string)
| ShapeError (msg : string)
| IndexError (msg : string)
| ValueError (msg : string).

Inductive result (A : Type) :=
| OK (a : A)
| Raise (e : exn).
Arguments OK {A} a.
Arguments Raise {A} e.

Global Instance result_ret : MRet result := λ A a, OK a.
Global Instance result_bind : MBind result := λ A B k r,
  match r with
  | OK a => k a
  | Raise e => Raise e
  end.
Global Instance result_fmap : FMap result := λ A B f r,
  match r with
  | OK a => OK (f a)
  | Raise e => Raise e
  end.

(** ** SymPy fragment: numbers, symbols, expression trees *)

Definition Qc_eqb (a b : Qc) : bool := Qeq_bool a b.

(** [Symbol('x')] is identified by its name, [Dummy()] by its index. *)
Inductive symbol :=
| Symbol (name : string)
| Dummy (dummy_index : nat).

Global Instance symbol_eq_dec : EqDecision symbol.
Proof. solve_decision. Defined.

Global Instance symbol_countable : Countable symbol.
Proof.
  refine (inj_countable'
            (λ a, match a with Symbol s => inl s | Dummy n => inr n end)
            (λ x, match x with inl s => Symbol s | inr n => Dummy n end) _).
  by intros [].
Defined.

(** Expression trees, [func(args...)] as SymPy stores them.  Trees need not
    be in evaluated form: [Add(1, 2, evaluate=False)] is [Add [1; 2]]. *)
#[local] Unset Elimination Schemes.
Inductive expr :=
| Number (q : Qc)
| Sym (s : symbol)
| Add (args : list expr)
| Mul (args : list expr)
| Pow (base : expr) (exp : nat).
#[local] Set Elimination Schemes.

Definition Zero : expr := Number 0.
Definition One : expr := Number 1.

(** Structural equality, SymPy's [==] on expressions. *)
Fixpoint expr_eqb (a b : expr) : bool :=
  match a, b with
  | Number p, Number q => Qc_eqb p q
  | Sym s, Sym t => bool_decide (s = t)
  | Add xs, Add ys | Mul xs, Mul ys =>
      (fix go (xs ys : list expr) : bool :=
         match xs, ys with
         | [], [] => true
         | x :: xs', y :: ys' => expr_eqb x y && go xs' ys'
         | _, _ => false
         end) xs ys
  | Pow x m, Pow y n => expr_eqb x y && bool_decide (m = n)
  | _, _ => false
  end.

(** A fixed total preorder on trees used to sort the arguments of a sum.
    SymPy's own order differs; only the fact that equal argument multisets
    are stored in one order matters here. *)
Definition symbol_compare (s t : symbol) : comparison :=
  match s, t with
  | Symbol a, Symbol b => String.compare a b
  | Symbol _, Dummy _ => Lt
  | Dummy _, Symbol _ => Gt
  | Dummy m, Dummy n => Nat.compare m n
  end.

Definition expr_rank (e : expr) : nat :=
  match e with
  | Number _ => 0
  | Sym _ => 1
  | Pow _ _ => 2
  | Mul _ => 3
  | Add _ => 4
  end.

Fixpoint expr_compare (a b : expr) : comparison :=
  match a, b with
  | Number p, Number q => (p ?= q)%Qc
  | Sym s, Sym t => symbol_compare s t
  | Add xs, Add ys | Mul xs, Mul ys =>
      (fix go (xs ys : list expr) : comparison :=
         match xs, ys with
         | [], [] => Eq
         | [], _ :: _ => Lt
         | _ :: _, [] => Gt
         | x :: xs', y :: ys' =>
             match expr_compare x y with
             | Eq => go xs' ys'
             | c => c
             end
         end) xs ys
  | Pow x m, Pow y n =>
      match expr_compare x y with
      | Eq => Nat.compare m n
      | c => c
      end
  | _, _ => Nat.compare (expr_rank a) (expr_rank b)
  end.

Definition expr_leb (a b : expr) : bool :=
  match expr_compare a b with
  | Gt => false
  | _ => true
  end.

Definition addsort (args : list expr) : list expr :=
  merge_sort (λ a b, Is_true (expr_leb a b)) args.

(** [cls._from_args(args)]: an empty argument list is the identity of the
    operation, a single argument is returned as it is. *)
Definition from_args (cls : list expr → expr) (identity : expr)
    (args : list expr) : expr :=
  match args with
  | [] => identity
  | [a] => a
  | _ => cls args
  end.

(** [e.as_coeff_Mul()]: the leading numeric factor and the rest. *)
Definition as_coeff_Mul (e : expr) : Qc * expr :=
  match e with
  | Number q => (q, One)
  | Mul (Number q :: args) => (q, from_args Mul One args)
  | _ => (1%Qc, e)
  end.

(** Python [dict] with expression keys, in insertion order. *)
Definition dict := list (expr * Qc).

Fixpoint dict_add (k : expr) (c : Qc) (d : dict) : dict :=
  match d with
  | [] => [(k, c)]
  | (k', c') :: d' =>
      if expr_eqb k k' then (k', (c' + c)%Qc) :: d'
      else (k', c') :: dict_add k c d'
  end.

Fixpoint dict_get (d : dict) (k : expr) (default : Qc) : Qc :=
  match d with
  | [] => default
  | (k', c') :: d' => if expr_eqb k k' then c' else dict_get d' k default
  end.

Definition dict_keys (d : dict) : list expr := d.*1.

(** [set(keys).issubset(ok_set)] *)
Definition issubset (keys ok_set : list expr) : bool :=
  forallb (λ k, existsb (expr_eqb k) ok_set) keys.

(** *** [Add]: flattening and collection of like terms *)

(** Nested sums are spliced into the argument sequence. *)
Fixpoint addends (e : expr) : list expr :=
  match e with
  | Add args => args ≫= addends
  | _ => [e]
  end.

(** One pass of the loop of [Add.flatten]: numbers (and numeric powers) go
    to [coeff], every other term [c*s] adds [c] to [terms[s]]. *)
Definition flatten_step (st : Qc * dict) (o : expr) : Qc * dict :=
  let '(coeff, terms) := st in
  match o with
  | Number q => ((coeff + q)%Qc, terms)
  | Pow (Number b) n => ((coeff + b ^ n)%Qc, terms)
  | Mul _ => let '(c, s) := as_coeff_Mul o in (coeff, dict_add s c terms)
  | _ => (coeff, dict_add o 1%Qc terms)
  end.

(** The term [c*s] put back into the argument list. *)
Definition rebuild_term (c : Qc) (s : expr) : expr :=
  if Qc_eqb c 1 then s
  else match s with
       | Mul args => Mul (Number c :: args)
       | Number q => Number (c * q)%Qc
       | _ => Mul [Number c; s]
       end.

Definition Add_flatten (seq : list expr) : list expr :=
  let '(coeff, terms) := foldl flatten_step (0%Qc, []) (seq ≫= addends) in
  let newseq :=
    addsort (omap (λ '(s, c), if Qc_eqb c 0 then None
                              else Some (rebuild_term c s)) terms) in
  if Qc_eqb coeff 0 then newseq else Number coeff :: newseq.

(** [Add(args...)], evaluated. *)
Definition sympy_Add (args : list expr) : expr :=
  match filter (λ a, expr_eqb a Zero = false) args with
  | [] => Zero
  | [a] => a
  | args' => from_args Add Zero (Add_flatten args')
  end.

(** Python [a + b] on expressions. *)
Definition sympy_add (a b : expr) : expr := sympy_Add [a; b].

(** *** [Mul] of a number and an expression *)

(** [_keep_coeff(coeff, factors)] *)
Definition keep_coeff (coeff : Qc) (factors : expr) : expr :=
  if Qc_eqb coeff 1 then factors
  else match factors with
       | Number q => Number (coeff * q)%Qc
       | Mul (Number q :: margs) =>
           let c := (q * coeff)%Qc in
           if Qc_eqb c 1 then from_args Mul One margs
           else from_args Mul One (Number c :: margs)
       | Mul margs => from_args Mul One (Number coeff :: margs)
       | _ => Mul [Number coeff; factors]
       end.

(** Python [a * b] where [a] is a number: the two-argument path of
    [Mul.flatten], which distributes a rational over a sum. *)
Definition sympy_mul_number (a : Qc) (b : expr) : expr :=
  if Qc_eqb a 1 then b
  else if Qc_eqb a 0 then Zero
  else match b with
       | Number q => Number (a * q)%Qc
       | _ =>
           let '(r, b') := as_coeff_Mul b in
           let ar := (a * r)%Qc in
           match b' with
           | Add bargs =>
               if Qc_eqb r 1 then sympy_Add (keep_coeff a <$> bargs)
               else if Qc_eqb ar 1 then b'
               else Mul [Number ar; b']
           | Mul margs =>
               if Qc_eqb ar 1 then b' else Mul (Number ar :: margs)
           | _ => if Qc_eqb ar 1 then b' else Mul [Number ar; b']
           end
       end.

(** Python [-a] and [a - b]. *)
Definition sympy_neg (a : expr) : expr := sympy_mul_number (-(1))%Qc a.
Definition sympy_sub (a b : expr) : expr := sympy_add a (sympy_neg b).

(** *** [as_coefficients_dict] *)

Definition as_coefficients_dict (e : expr) : dict :=
  match e with
  | Add args =>
      foldl (λ d ai, let '(c, m) := as_coeff_Mul ai in dict_add m c d) [] args
  | _ => let '(c, m) := as_coeff_Mul e in [(m, c)]
  end.

(** *** Polynomial value of a tree, and [expand] *)

(** A monomial is a multiset of symbols; a polynomial is a list of
    monomials with coefficients, like monomials not yet merged. *)
Abbreviation monomial := (gmultiset symbol).
Definition poly := list (monomial * Qc).

Definition poly_one : poly := [(∅, 1%Qc)].

Definition poly_scale (c : Qc) (p : poly) : poly :=
  (λ '(m, d), (m, (c * d)%Qc)) <$> p.

Definition poly_mul (p q : poly) : poly :=
  '(m1, c1) ← p; (λ '(m2, c2), (m1 ⊎ m2, (c1 * c2)%Qc)) <$> q.

Fixpoint poly_pow (p : poly) (n : nat) : poly :=
  match n with
  | O => poly_one
  | S n' => poly_mul p (poly_pow p n')
  end.

Fixpoint poly_of (e : expr) : poly :=
  match e with
  | Number q => [(∅, q)]
  | Sym s => [({[+ s +]}, 1%Qc)]
  | Add args => args ≫= poly_of
  | Mul args => foldr (λ a acc, poly_mul (poly_of a) acc) poly_one args
  | Pow b n => poly_pow (poly_of b) n
  end.

(** Coefficient of a monomial: the sum over its occurrences. *)
Fixpoint coef (p : poly) (m : monomial) : Qc :=
  match p with
  | [] => 0%Qc
  | (m', c) :: p' => if decide (m' = m) then (c + coef p' m)%Qc else coef p' m
  end.

(** The expanded form: each monomial once, zero coefficients dropped. *)
Definition expanded_terms (p : poly) : poly :=
  filter (λ mc, Qc_eqb mc.2 0 = false)
         ((λ m, (m, coef p m)) <$> remove_dups p.*1).

(** A monomial as a tree: [1], a symbol, a power, or a product. *)
Definition monomial_key (m : monomial) : expr :=
  from_args Mul One
    (addsort ((λ s, let k := multiplicity s m in
                    if decide (k = 1) then Sym s else Pow (Sym s) k)
                <$> elements (dom m))).

Definition expr_of_poly (p : poly) : expr :=
  from_args Add Zero
    (addsort ((λ '(m, c), rebuild_term c (monomial_key m)) <$> p)).

(** [e.expand()], for trees as SymPy's operators build them.  The result
    is the normal form of the polynomial value, so a node SymPy was told
    not to evaluate, as in [Pow(x, 1, evaluate=False)], which SymPy's
    [expand] leaves as it is, is normalised here: on such a tree
    [lin_expr_coeffs] below may return where the code raises. *)
Definition expand (e : expr) : expr :=
  expr_of_poly (expanded_terms (poly_of e)).

(** *** [free_symbols] *)

Fixpoint free_symbols (e : expr) : gset symbol :=
  match e with
  | Number _ => ∅
  | Sym s => {[ s ]}
  | Add args | Mul args => ⋃ (free_symbols <$> args)
  | Pow b _ => free_symbols b
  end.

(** [Dummy()]: a symbol different from every symbol in use. *)
Definition dummy_bound (s : symbol) : nat :=
  match s with
  | Symbol _ => 0
  | Dummy n => S n
  end.

Definition Dummy_new (used : list symbol) : symbol :=
  Dummy (foldr (λ s n, dummy_bound s `max` n) 0 used).

(** ** Matrices

    A SymPy [Matrix] or a numpy array is modelled by its list of rows, as
    in the literal [Matrix([[a, b], [c, d]])].  A real matrix is
    rectangular ([wf_matrix]); there every index the code uses is within
    range, so the default of [entry] is never returned and every write of
    [setitem] lands. *)

Abbreviation Matrix A := (list (list A)).

Definition rows {A} (m : Matrix A) : nat := length m.

Definition cols {A} (m : Matrix A) : nat :=
  match m with
  | [] => 0
  | r :: _ => length r
  end.

Definition wf_matrix {A} (m : Matrix A) : Prop :=
  Forall (λ r, length r = cols m) m.

Definition square {A} (m : Matrix A) : Prop :=
  wf_matrix m ∧ rows m = cols m.

(** [matrix[i, j]] *)
Definition entry (m : Matrix expr) (i j : nat) : expr :=
  default Zero (row ← m !! i; row !! j).

Definition matrix_map {A B} (f : A → B) (m : Matrix A) : Matrix B :=
  (λ row : list A, f <$> row) <$> m.

(** [l[a:b]] and [matrix[a:b, a:b]] *)
Definition slice {A} (a b : nat) (l : list A) : list A :=
  take (b - a) (drop a l).

Definition submatrix {A} (a b : nat) (m : Matrix A) : Matrix A :=
  slice a b <$> slice a b m.

(** [array[elem] = v] for [elem = (i, j)] *)
Definition setitem {A} (m : Matrix A) (elem : nat * nat) (v : A) : Matrix A :=
  alter (λ row, <[elem.2 := v]> row) elem.1 m.

(** [range(start, stop, -1)] *)
Definition range_down (start stop : nat) : list nat :=
  reverse (seq (S stop) (start - stop)).

(** A [for] loop over [xs] whose body may raise: the state is threaded
    through the passes, the first exception ends the loop. *)
Fixpoint for_each {A S} (xs : list A) (body : S → A → result S) (s : S)
    : result S :=
  match xs with
  | [] => OK s
  | x :: xs' => s' ← body s x; for_each xs' body s'
  end.

(** [l[i]] on a Python list *)
Definition getitem {A} (l : list A) (i : nat) : result A :=
  match l !! i with
  | Some a => OK a
  | None => Raise (IndexError "list index out of range")
  end.

(** ** Python's [float] of a SymPy number

    [float(q)] of a SymPy [Rational] or [Integer] is
    [mlib.to_float(q._as_mpf_val(53))]: the number is rounded to a
    mantissa of 53 bits, ties to the even mantissa, and the result is
    turned into a double by [math.ldexp], which rounds once more where
    doubles are subnormal and overflows to an infinity.  A double is
    given by its value; the two zeros are not told apart. *)

Inductive pyfloat :=
| Finite (value : Qc)
| Infinity (negative : bool).

(** The integer nearest to [n / d], ties to the even one. *)
Definition round_half_even (n d : Z) : Z :=
  let k := (n / d)%Z in
  match (2 * (n mod d) ?= d)%Z with
  | Lt => k
  | Gt => (k + 1)%Z
  | Eq => if Z.even k then k else (k + 1)%Z
  end.

(** [n / (d * 2^t)] rounded to an integer. *)
Definition round_at (n d t : Z) : Z :=
  if (0 <=? t)%Z then round_half_even n (d * 2 ^ t)
  else round_half_even (n * 2 ^ (- t)) d.

(** The [e] with [2^e <= n / d < 2^(e+1)], for positive [n] and [d]. *)
Definition floor_log2 (n d : Z) : Z :=
  let e := (Z.log2 n - Z.log2 d)%Z in
  if (if (0 <=? e)%Z then (d * 2 ^ e <=? n)%Z else (d <=? n * 2 ^ (- e))%Z)
  then e else (e - 1)%Z.

(** [man * 2^t] *)
Definition ldexp (man t : Z) : Qc :=
  if (0 <=? t)%Z then Q2Qc ((man * 2 ^ t) # 1)
  else Q2Qc (man # Z.to_pos (2 ^ (- t))).

Definition python_float (q : Qc) : pyfloat :=
  let n := Qnum q in
  let d := Zpos (Qden q) in
  if (n =? 0)%Z then Finite 0%Qc
  else
    let e := floor_log2 (Z.abs n) d in
    let man := round_at (Z.abs n) d (e - 52) in
    if (1024 <=? (if (man =? 2 ^ 53)%Z then e + 1 else e))%Z
    then Infinity (n <? 0)%Z
    else
      let t := Z.max (e - 52) (-1074) in
      let man := round_at man 1 (t - (e - 52)) in
      Finite (ldexp (Z.sgn n * man) t).

(** ** lmi_sdp/lm.py *)

Section lm.
(** The functions take the conversion [float] as a parameter: what they
    do with the numbers does not depend on how [float] rounds.
    [python_float] is the conversion Python performs. *)
Context {F : Type} (float : Qc → F).

Definition lin_expr_coeffs (linear_expr : expr) (variables : list symbol)
    : result (list F * F) :=
  let dummy :=
    Sym (Dummy_new (elements (free_symbols linear_expr) ++ variables)) in
  let ok_set := (Sym <$> variables) ++ [One; dummy] in
  let expr := sympy_add dummy linear_expr in
  let coeff_dict := as_coefficients_dict expr in
  coeff_dict ←
    (if issubset (dict_keys coeff_dict) ok_set then OK coeff_dict
     else
       let expr := expand expr in
       let coeff_dict := as_coefficients_dict expr in
       if issubset (dict_keys coeff_dict) ok_set then OK coeff_dict
       else Raise (NonLinearExpressionError
                     "'linear_expr' must be linear w.r.t. 'variables'"));
  let const := float (dict_get coeff_dict One 0%Qc) in
  let coeffs := (λ x, float (dict_get coeff_dict (Sym x) 0%Qc)) <$> variables in
  OK (coeffs, const).

(** [np.zeros((r, c))] *)
Definition np_zeros (r c : nat) : Matrix F :=
  replicate r (replicate c (float 0%Qc)).

Definition lm_sym_to_coeffs (linear_matrix : Matrix expr)
    (variables : list symbol) : result (list (Matrix F) * Matrix F) :=
  let lm := linear_matrix in
  let dummy := Dummy_new variables in
  let ok_set := (Sym <$> variables) ++ [One; Sym dummy] in
  let consts := np_zeros (rows lm) (cols lm) in
  let coeffs :=
    (λ _, np_zeros (rows lm) (cols lm)) <$> seq 0 (length variables) in
  for_each (i ← seq 0 (rows lm); j ← seq 0 (cols lm); [(i, j)])
    (λ '(coeffs, consts) elem,
       match lin_expr_coeffs (entry lm elem.1 elem.2) variables with
       | Raise (NonLinearExpressionError _) =>
           Raise (NonLinearMatrixError
                    "'linear_matrix' must be composed of linear expressions w.r.t. 'variables'")
       | Raise e => Raise e
       | OK (coeffs_elem, c) =>
           let consts := setitem consts elem c in
           coeffs ←
             for_each (seq 0 (length variables))
               (λ coeffs i,
                  v ← getitem coeffs_elem i;
                  OK (alter (λ ci, setitem ci elem v) i coeffs))
               coeffs;
           OK (coeffs, consts)
       end)
    (coeffs, consts).
End lm.

Definition nonzero (e : expr) : bool := negb (expr_eqb e Zero).

(** The [for l in range(n-1, c, -1)] loop of [get_diag_block_idxs], over
    the remaining values [ls] of [l]; it returns [b] and the value [l] is
    left with. *)
Fixpoint scan (matrix : Matrix expr) (c : nat) (ls : list nat)
    (b : list nat) (l : nat) : list nat * nat :=
  match ls with
  | [] => (b, l)
  | l' :: ls' =>
      if nonzero (entry matrix l' c) || nonzero (entry matrix c l')
      then (b, l')
      else if l' =? c + 1 then scan matrix c ls' (b ++ [l']) l'
      else scan matrix c ls' b l'
  end.

(** The [while c < n-1] loop; each pass runs [scan] and moves the cursor
    to the value [l] is left with. *)
Equations? diag_block_loop (matrix : Matrix expr) (n c : nat) (b : list nat)
    (l : nat) : list nat by wf (n - c) lt :=
diag_block_loop matrix n c b l with decide (c < n - 1) := {
  | right _ => b
  | left Hc =>
      diag_block_loop matrix n
        (scan matrix c (range_down (n - 1) c) b l).2
        (scan matrix c (range_down (n - 1) c) b l).1
        (scan matrix c (range_down (n - 1) c) b l).2 }.
Proof.
  assert (Hin : ∀ ls b0 l0, ls ≠ [] → (scan matrix c ls b0 l0).2 ∈ ls).
  { induction ls as [|x ls IH]; intros b0 l0 Hne; [done|].
    cbn.
    destruct (nonzero (entry matrix x c) || nonzero (entry matrix c x));
      [left|].
    destruct ls as [|y ls'].
    { destruct (x =? c + 1); left. }
    right. destruct (x =? c + 1); by apply IH. }
  assert (Hne : range_down (n - 1) c ≠ []).
  { unfold range_down. destruct (n - 1 - c) as [|k] eqn:E; [lia|].
    rewrite seq_S, reverse_app. discriminate. }
  specialize (Hin (range_down (n - 1) c) b l Hne).
  unfold range_down in *.
  rewrite elem_of_reverse, elem_of_seq in Hin. lia.
Qed.

Definition get_diag_block_idxs (matrix : Matrix expr) : result (list nat) :=
  if decide (rows matrix ≠ cols matrix)
  then Raise (NonSquareMatrixError "matrix must be square")
  else
    let b := [] in
    let n := rows matrix in
    let c := 0 in
    OK (diag_block_loop matrix n c b 0 ++ [n]).

Definition split_by_diag_blocks (matrix : Matrix expr)
    : result (list (Matrix expr)) :=
  idxs ← get_diag_block_idxs matrix;
  let blocks :=
    (λ '(a, b), submatrix a b matrix)
      <$> zip (0 :: take (length idxs - 1) idxs) idxs in
  OK blocks.

(** [ImmutableMatrix(array)] of a numeric array; [x * ImmutableMatrix(array)]
    for a symbol [x], entry by entry the product of a number and [x]. *)
Definition ImmutableMatrix (a : Matrix Qc) : Matrix expr :=
  matrix_map Number a.

Definition symbol_mul_ImmutableMatrix (x : symbol) (a : Matrix Qc)
    : Matrix expr :=
  matrix_map (λ c, sympy_mul_number c (Sym x)) a.

(** [a + b] on matrices.  The text of SymPy's [ShapeError] depends on
    the SymPy version and may carry the two shapes; only the exception
    class is used below. *)
Definition matrix_add (a b : Matrix expr) : result (Matrix expr) :=
  if decide (rows a = rows b ∧ cols a = cols b)
  then OK (zip_with (zip_with sympy_add) a b)
  else Raise (ShapeError "Matrix size mismatch.").

Definition lm_coeffs_to_sym (coeffs : list (Matrix Qc) * Matrix Qc)
    (variables : list symbol) : result (Matrix expr) :=
  let lm := ImmutableMatrix coeffs.2 in
  for_each (zip (seq 0 (length variables)) variables)
    (λ lm '(i, x),
       ci ← getitem coeffs.1 i;
       matrix_add lm (symbol_mul_ImmutableMatrix x ci))
    lm.

(** [diag(B1, ..., Bk)]: the blocks along the diagonal, exact zeros
    everywhere else. *)
Definition diag2 (B R : Matrix expr) : Matrix expr :=
  ((λ row, row ++ replicate (cols R) Zero) <$> B) ++
  ((λ row, replicate (cols B) Zero ++ row) <$> R).

Fixpoint block_diag (blocks : list (Matrix expr)) : Matrix expr :=
  match blocks with
  | [] => []
  | B :: Bs => diag2 B (block_diag Bs)
  end.

Definition symmetric (m : Matrix expr) : Prop :=
  ∀ i j, entry m i j = entry m j i.

(** ** lmi_sdp/lmi.py *)

(** [LMI_PSD], [LMI_PD], [LMI_NSD] and [LMI_ND]: a relation between a
    matrix [lhs] and [rhs], which is a matrix or the default scalar [0]
    ([None]). *)
Inductive lmi_kind := PSD | PD | NSD | ND.

Record BaseLMI := mkLMI {
  kind : lmi_kind;
  lhs : Matrix expr;
  rhs : option (Matrix expr)
}.

Definition LMI_PSD (lhs : Matrix expr) (rhs : option (Matrix expr)) : BaseLMI :=
  mkLMI PSD lhs rhs.
Definition LMI_PD (lhs : Matrix expr) (rhs : option (Matrix expr)) : BaseLMI :=
  mkLMI PD lhs rhs.
Definition LMI_NSD (lhs : Matrix expr) (rhs : option (Matrix expr)) : BaseLMI :=
  mkLMI NSD lhs rhs.
Definition LMI_ND (lhs : Matrix expr) (rhs : option (Matrix expr)) : BaseLMI :=
  mkLMI ND lhs rhs.

(** [LMI = LMI_PSD] *)
Definition LMI (lhs : Matrix expr) : BaseLMI := LMI_PSD lhs None.

(** [a - b] on matrices; [-a]. *)
Definition matrix_neg (a : Matrix expr) : Matrix expr :=
  matrix_map sympy_neg a.

Definition matrix_sub (a b : Matrix expr) : result (Matrix expr) :=
  matrix_add a (matrix_neg b).

(** Modelled from the spec: [BaseLMI.canonical()] and the [gts] accessor of
    its result, which [lmi.py] does not define.  The relation is rewritten
    with everything on one side of a comparison with zero; for [PSD] and
    [PD] the matrix handed on is [lhs - rhs], for [NSD] and [ND] it is
    [rhs - lhs], the sign [tests/test_sdp.py] expects. *)
Definition canonical_gts (lmi : BaseLMI) : result (Matrix expr) :=
  match kind lmi, rhs lmi with
  | (PSD | PD), None => OK (lhs lmi)
  | (PSD | PD), Some r => matrix_sub (lhs lmi) r
  | (NSD | ND), None => OK (matrix_neg (lhs lmi))
  | (NSD | ND), Some r => matrix_sub r (lhs lmi)
  end.

(** ** lmi_sdp/sdp.py *)

(** The argument [lmi] of [prepare_lmi_for_sdp]: an LMI, a bare matrix, or
    a list of them. *)
Inductive lmi_or_matrix :=
| IsLMI (lmi : BaseLMI)
| IsMatrix (m : Matrix expr).

Inductive lmi_arg :=
| Single (lmi : lmi_or_matrix)
| Several (lmis : list lmi_or_matrix).

(** [str.lower()] on the ASCII letters. *)
Definition ascii_lower (c : Ascii.ascii) : Ascii.ascii :=
  let n := nat_of_ascii c in
  if (65 <=? n) && (n <=? 90) then ascii_of_nat (n + 32) else c.

Fixpoint lower (s : string) : string :=
  match s with
  | EmptyString => EmptyString
  | String c s' => String (ascii_lower c) (lower s')
  end.

Section sdp.
Context {F : Type} (float : Qc → F).

Definition prepare_lmi_for_sdp (lmi : lmi_arg) (variables : list symbol)
    (optimize_by_diag_blocks : bool)
    : result (list (list (Matrix F) * Matrix F)) :=
  let lmis :=
    match lmi with
    | Single x => [x]
    | Several xs => xs
    end in
  slms ← for_each lmis
            (λ slms lmi,
               let lmi := match lmi with
                          | IsMatrix m => LMI m
                          | IsLMI l => l
                          end in
               lm ← canonical_gts lmi;
               OK (slms ++ [lm]))
            [];
  slms ← (if optimize_by_diag_blocks
           then
             let orig_slms := slms in
             for_each orig_slms
               (λ slms slm,
                  blocks ← split_by_diag_blocks slm;
                  OK (slms ++ blocks))
               []
           else OK slms);
  coeffs ← for_each slms
              (λ coeffs slm,
                 r ← lm_sym_to_coeffs float slm variables;
                 OK (coeffs ++ [r]))
              [];
  OK coeffs.

Definition prepare_objective_for_sdp (objective_func : expr)
    (variables : list symbol) (objective_type : string) : result (list F) :=
  let objective_type := lower objective_type in
  objective_func ←
    (if bool_decide (objective_type ∈ ["max"; "maximize"])
     then OK (sympy_mul_number (-(1))%Qc objective_func)
     else if bool_decide (objective_type ∈ ["min"; "minimize"])
          then OK objective_func
          else Raise (ValueError
                        "objective_type must be 'maximize' or 'minimize'"));
  '(coeffs, const) ← lin_expr_coeffs float objective_func variables;
  OK coeffs.
End sdp.

Section get_variables_def.
(** [ordered(variables)]: SymPy's canonical listing of a set.  The order
    it picks is left abstract. *)
Context (ordered : gset symbol → list symbol).

Definition get_variables (objective_func : expr) (lmis : list lmi_or_matrix)
    : result (list symbol) :=
  let variables := free_symbols objective_func in
  variables ←
    for_each lmis
      (λ variables lmi,
         lm ← match lmi with
              | IsMatrix m => OK m
              | IsLMI l => canonical_gts l
              end;
         OK (foldl (λ variables expr, variables ∪ free_symbols expr)
                   variables (concat lm)))
      variables;
  OK (ordered variables).
End get_variables_def.

(** [NotAvailableError(function_name)], raised where [cvxopt] is needed
    and was not found. *)
Record NotAvailableError := { not_available_msg : string }.

Definition NotAvailableError_init (function_name : string) : NotAvailableError :=
  {| not_available_msg :=
       "Function " ++ function_name ++
       " not available since cvxopt package was not found" |}.

Section to_cvxopt_def.
Context {F M : Type} (float : Qc → F).
(** numpy's [-a] on a float. *)
Context (fneg : F → F).
(** [cvxopt.matrix(x)] for [x] a list of numbers, and for [x] a list of
    lists, each of which becomes a column. *)
Context (matrix : list F → M) (matrix_of_lists : list (list F) → M).
(** Whether [import cvxopt] succeeded. *)
Context (cvxopt : bool).

Definition to_cvxopt (objective_func : expr) (lmis : lmi_arg)
    (variables : list symbol) (objective_type : string)
    (optimize_by_diag_blocks : bool)
    : NotAvailableError + result (M * list M * list M) :=
  if negb cvxopt then inl (NotAvailableError_init "to_cvxopt")
  else inr (
    obj_coeffs ← prepare_objective_for_sdp float objective_func variables
                   objective_type;
    lmi_coeffs ← prepare_lmi_for_sdp float lmis variables
                   optimize_by_diag_blocks;
    let c := matrix obj_coeffs in
    let '(Gs, hs) :=
      foldl (λ '(Gs, hs) '(LMis, LM0),
               (Gs ++ [matrix_of_lists
                         ((λ LMi : Matrix F, fneg <$> concat LMi) <$> LMis)],
                hs ++ [matrix_of_lists LM0]))
            ([], []) lmi_coeffs in
    OK (c, Gs, hs)).
End to_cvxopt_def.

(** The expression [a0 + a1*x1 + ... + an*xn], built from the left as
    Python evaluates it. *)
Definition affine_expr (a0 : Qc) (coeffs : list Qc) (variables : list symbol)
    : expr :=
  foldl (λ e '(a, x), sympy_add e (sympy_mul_number a (Sym x)))
        (Number a0) (zip coeffs variables).

(** The [r] x [c] matrix with entry [g i j] at [(i, j)]. *)
Definition tabulate {A} (r c : nat) (g : nat → nat → A) : Matrix A :=
  (λ i, (λ j, g i j) <$> seq 0 c) <$> seq 0 r.

Definition mlookup {A} (m : Matrix A) (i j : nat) : option A :=
  row ← m !! i; row !! j.

Definition shape {A} (r c : nat) (m : Matrix A) : Prop :=
  length m = r ∧ Forall (λ row, length row = c) m.

(** The matrix an element of the argument [lmi] stands for, and the
    blocks it contributes. *)
Definition lmi_matrix (lmi : lmi_or_matrix) : result (Matrix expr) :=
  canonical_gts (match lmi with
                 | IsMatrix m => LMI m
                 | IsLMI l => l
                 end).

Definition blocks_of (optimize_by_diag_blocks : bool) (lmi : lmi_or_matrix)
    : result (list (Matrix expr)) :=
  lm ← lmi_matrix lmi;
  if optimize_by_diag_blocks then split_by_diag_blocks lm else OK [lm].

(** The matrix [get_variables] reads the symbols of. *)
Definition variables_matrix (lmi : lmi_or_matrix) : result (Matrix expr) :=
  match lmi with
  | IsMatrix m => OK m
  | IsLMI l => canonical_gts l
  end.

(** ** Notions used in the statements and proofs *)

Definition terms_poly (terms : dict) : poly :=
  '(s, c) ← terms; poly_scale c (poly_of s).

Definition state_poly (st : Qc * dict) : poly :=
  (∅, st.1) :: terms_poly st.2.

(** The terms [as_coefficients_dict] runs over. *)
Definition top_args (e : expr) : list expr :=
  match e with
  | Add args => args
  | _ => [e]
  end.

Definition dict_step (d : dict) (ai : expr) : dict :=
  dict_add (as_coeff_Mul ai).2 (as_coeff_Mul ai).1 d.

(** Keys that stand for a monomial of degree at most one. *)
Definition key_monomial (k : expr) : option monomial :=
  match k with
  | Number q => if Qc_eqb q 1 then Some ∅ else None
  | Sym x => Some {[+ x +]}
  | _ => None
  end.

(** A term [q], [x] or [c*x] with [x] among the symbols [S]; a linear
    form is such a term or a sum of such terms. *)
Definition lin_term (S : symbol → Prop) (o : expr) : Prop :=
  match o with
  | Number _ => True
  | Sym x => S x
  | Mul [Number c; Sym x] => S x
  | _ => False
  end.

Definition lin_form (S : symbol → Prop) (e : expr) : Prop :=
  match e with
  | Add args => Forall (lin_term S) args
  | _ => lin_term S e
  end.

Definition sym_key (S : symbol → Prop) (k : expr) : Prop :=
  match k with
  | Sym x => S x
  | _ => False
  end.

Definition var_sum (m : monomial) (l : list (Qc * symbol)) : Qc :=
  foldr (λ '(a, x) acc, ((if decide ({[+ x +]} = m) then a else 0) + acc)%Qc)
        0%Qc l.

(** The factors of a monomial key are symbols and powers of symbols. *)
Definition factor_shape (f : expr) : Prop :=
  match f with
  | Sym _ | Pow (Sym _) _ => True
  | _ => False
  end.

Definition monomial_factors (m : monomial) : list expr :=
  addsort ((λ s, let k := multiplicity s m in
                 if decide (k = 1) then Sym s else Pow (Sym s) k)
             <$> elements (dom m)).

Definition all_cells (r c : nat) : list (nat * nat) :=
  i ← seq 0 r; j ← seq 0 c; [(i, j)].

Definition nz_at (m : Matrix expr) (c x : nat) : bool :=
  nonzero (entry m x c) || nonzero (entry m c x).

(** Where the cursor goes from [c], and what the pass appends to [b]. *)
Definition next_cursor (m : Matrix expr) (n c : nat) : list nat * nat :=
  match List.find (nz_at m c) (range_down (n - 1) c) with
  | Some x => ([], x)
  | None => ([c + 1], c + 1)
  end.

(** The boundaries found from cursor [c] on. *)
Definition idxs_from (m : Matrix expr) (n c : nat) : list nat :=
  diag_block_loop m n c [] 0.

Definition block_pairs (idxs : list nat) : list (nat * nat) :=
  zip (0 :: take (length idxs - 1) idxs) idxs.

(** The monomial a factor of a monomial key stands for. *)
Definition factor_monomial (f : expr) : monomial :=
  match f with
  | Sym s => {[+ s +]}
  | Pow (Sym s) k => k *: {[+ s +]}
  | _ => ∅
  end.

(** A numeric array equal to its transpose. *)
Definition symmetric_array {A} (m : Matrix A) : Prop :=
  ∀ i j, mlookup m i j = mlookup m j i.

(** The rationals that are doubles: [float] returns them unchanged. *)
Definition is_double (q : Qc) : Prop := python_float q = Finite q.

(** * Properties *)

(** Equality of results that differ only in how their rationals were
    computed. *)
Ltac qc_eq :=
  vm_compute;
  repeat (f_equal; try (apply Qc_is_canon; reflexivity)).

(** Decidable closed goals, by evaluation. *)
Ltac vm_decide := apply (bool_decide_unpack _); vm_compute; exact I.

(** ** Numbers and structural equality *)

Lemma Qc_eqb_true (a b : Qc) : Qc_eqb a b = true ↔ a = b.
Proof.
  unfold Qc_eqb. rewrite Qeq_bool_iff. split.
  - apply Qc_is_canon.
  - by intros ->.
Qed.

Lemma Qc_eqb_false (a b : Qc) : Qc_eqb a b = false ↔ a ≠ b.
Proof.
  rewrite <- Qc_eqb_true. by destruct (Qc_eqb a b).
Qed.

Lemma Qc_eqb_refl (a : Qc) : Qc_eqb a a = true.
Proof. by apply Qc_eqb_true. Qed.

Lemma expr_induction (P : expr → Prop) :
  (∀ q, P (Number q)) →
  (∀ s, P (Sym s)) →
  (∀ args, Forall P args → P (Add args)) →
  (∀ args, Forall P args → P (Mul args)) →
  (∀ b n, P b → P (Pow b n)) →
  ∀ e, P e.
Proof.
  intros HN HS HA HM HP. fix IH 1. intros [q|s|args|args|b n].
  - apply HN.
  - apply HS.
  - apply HA. induction args as [|a args IHargs]; constructor; [apply IH | apply IHargs].
  - apply HM. induction args as [|a args IHargs]; constructor; [apply IH | apply IHargs].
  - apply HP, IH.
Qed.

Lemma expr_eqb_eq (a b : expr) : expr_eqb a b = true ↔ a = b.
Proof.
  revert b. induction a as [p|s|xs IH|xs IH|x m IH] using expr_induction; intros [q|t|ys|ys|y n];
    cbn; try (split; [discriminate | intros; discriminate]).
  - rewrite Qc_eqb_true. split; [by intros -> | by intros [= ->]].
  - rewrite bool_decide_eq_true. split; [by intros -> | by intros [= ->]].
  - revert ys. induction IH as [|x xs Hx _ IHxs]; intros [|y ys];
      try (split; [discriminate | intros; discriminate]); [done|].
    rewrite andb_true_iff, Hx. specialize (IHxs ys). rewrite IHxs.
    split; [by intros [-> [= ->]] | by intros [= -> ->]].
  - revert ys. induction IH as [|x xs Hx _ IHxs]; intros [|y ys];
      try (split; [discriminate | intros; discriminate]); [done|].
    rewrite andb_true_iff, Hx. specialize (IHxs ys). rewrite IHxs.
    split; [by intros [-> [= ->]] | by intros [= -> ->]].
  - rewrite andb_true_iff, IH, bool_decide_eq_true.
    split; [by intros [-> ->] | by intros [= -> ->]].
Qed.

Lemma expr_eqb_refl (a : expr) : expr_eqb a a = true.
Proof. by apply expr_eqb_eq. Qed.

Lemma expr_eqb_neq (a b : expr) : expr_eqb a b = false ↔ a ≠ b.
Proof. rewrite <- expr_eqb_eq. by destruct (expr_eqb a b). Qed.

(** ** Dictionaries *)

Lemma dict_get_add_eq (d : dict) k c :
  dict_get (dict_add k c d) k 0%Qc = (dict_get d k 0 + c)%Qc.
Proof.
  induction d as [|[k' c'] d IH]; cbn.
  - rewrite expr_eqb_refl. ring.
  - destruct (expr_eqb k k') eqn:E; cbn; rewrite E; [done | apply IH].
Qed.

Lemma dict_get_add_ne (d : dict) k c k' :
  k' ≠ k → dict_get (dict_add k c d) k' 0%Qc = dict_get d k' 0%Qc.
Proof.
  intros Hne. induction d as [|[k0 c0] d IH]; cbn.
  - by apply expr_eqb_neq in Hne as ->.
  - destruct (expr_eqb k k0) eqn:E; cbn.
    + apply expr_eqb_eq in E as <-.
      by apply expr_eqb_neq in Hne as ->.
    + by rewrite IH.
Qed.

Lemma dict_keys_add (d : dict) k c k' :
  k' ∈ dict_keys (dict_add k c d) ↔ k' = k ∨ k' ∈ dict_keys d.
Proof.
  unfold dict_keys. induction d as [|[k0 c0] d IH]; cbn.
  - rewrite list_elem_of_singleton, elem_of_nil. tauto.
  - destruct (expr_eqb k k0) eqn:E; cbn.
    + apply expr_eqb_eq in E as ->. rewrite elem_of_cons. tauto.
    + rewrite !elem_of_cons, IH. tauto.
Qed.

Lemma issubset_true (keys ok_set : list expr) :
  issubset keys ok_set = true ↔ ∀ k, k ∈ keys → k ∈ ok_set.
Proof.
  unfold issubset. rewrite forallb_forall. split.
  - intros H k Hk. apply list_elem_of_In in Hk. apply H in Hk.
    apply existsb_exists in Hk as (k' & Hk' & E).
    apply expr_eqb_eq in E as ->. by apply list_elem_of_In.
  - intros H k Hk. apply list_elem_of_In, H in Hk.
    apply existsb_exists. exists k. split; [by apply list_elem_of_In|].
    apply expr_eqb_refl.
Qed.

(** ** Polynomials *)

Lemma coef_app (p q : poly) m : coef (p ++ q) m = (coef p m + coef q m)%Qc.
Proof.
  induction p as [|[m' c] p IH]; cbn; [ring|].
  case_decide; rewrite IH; ring.
Qed.

Lemma coef_bind {A} (f : A → poly) (l : list A) m :
  coef (l ≫= f) m = foldr (λ a acc, (coef (f a) m + acc)%Qc) 0%Qc l.
Proof.
  induction l as [|a l IH]; cbn; [done|]. by rewrite coef_app, IH.
Qed.

Lemma coef_bind_ext {A} (f g : A → poly) (l : list A) m :
  Forall (λ a, coef (f a) m = coef (g a) m) l →
  coef (l ≫= f) m = coef (l ≫= g) m.
Proof.
  intros H. rewrite !coef_bind.
  induction H as [|a l Ha _ IH]; cbn; [done|]. by rewrite Ha, IH.
Qed.

Lemma coef_Permutation (p q : poly) m : p ≡ₚ q → coef p m = coef q m.
Proof.
  induction 1 as [|[m' c] p q _ IH|[m1 c1] [m2 c2] p|p q r _ IH1 _ IH2]; cbn.
  - done.
  - by rewrite IH.
  - repeat case_decide; ring.
  - by rewrite IH1.
Qed.

Lemma coef_scale c (p : poly) m : coef (poly_scale c p) m = (c * coef p m)%Qc.
Proof.
  unfold poly_scale. induction p as [|[m' d] p IH]; cbn; [ring|].
  case_decide; rewrite IH; ring.
Qed.

Lemma coef_nonzero_elem (p : poly) m : coef p m ≠ 0%Qc → m ∈ p.*1.
Proof.
  induction p as [|[m' c] p IH]; cbn; [done|].
  case_decide as E; intros H.
  - subst. left.
  - right. by apply IH.
Qed.

Lemma poly_mul_const_l c (p : poly) : poly_mul [(∅, c)] p = poly_scale c p.
Proof.
  unfold poly_mul, poly_scale. rewrite bind_singleton.
  apply list_fmap_ext. intros i [m d] _.
  by rewrite (left_id_L ∅ (⊎)).
Qed.

Lemma poly_mul_one_r (p : poly) : poly_mul p poly_one = p.
Proof.
  unfold poly_mul, poly_one.
  induction p as [|[m c] p IH]; [done|].
  rewrite bind_cons, IH. cbn [fmap list_fmap app].
  by rewrite (right_id_L ∅ (⊎)), Qcmult_1_r.
Qed.

Lemma poly_pow_const b n : poly_pow [(∅, b)] n = [(∅, (b ^ n)%Qc)].
Proof.
  induction n as [|n IH]; [done|].
  cbn [poly_pow]. rewrite IH, poly_mul_const_l. done.
Qed.

Lemma poly_of_Mul_cons a args :
  poly_of (Mul (a :: args)) = poly_mul (poly_of a) (poly_of (Mul args)).
Proof. done. Qed.

Lemma poly_of_from_args_Mul args :
  poly_of (from_args Mul One args) = poly_of (Mul args).
Proof.
  destruct args as [|a [|b args]]; try done.
  cbn. by rewrite poly_mul_one_r.
Qed.

Lemma coef_poly_of_from_args_Add args m :
  coef (poly_of (from_args Add Zero args)) m = coef (poly_of (Add args)) m.
Proof.
  destruct args as [|a [|b args]]; try done.
  - cbn. case_decide; ring.
  - cbn. by rewrite app_nil_r.
Qed.

(** [as_coeff_Mul] splits a term into a factor and a rest with the same
    value and the same monomials. *)
Lemma poly_of_as_coeff_Mul (e : expr) :
  poly_of e = poly_scale (as_coeff_Mul e).1 (poly_of (as_coeff_Mul e).2).
Proof.
  assert (Hid : ∀ p, p = poly_scale 1 p).
  { intros p. unfold poly_scale. induction p as [|[m c] p IH]; cbn; [done|].
    rewrite Qcmult_1_l. by f_equal. }
  destruct e as [q| | |[|[] args]|]; cbn [as_coeff_Mul fst snd]; try apply Hid.
  - cbn. by rewrite Qcmult_1_r.
  - rewrite poly_of_Mul_cons, poly_of_from_args_Mul. cbn [poly_of].
    apply poly_mul_const_l.
Qed.

(** ** [Add] and scalar [Mul] keep the polynomial value *)

Lemma coef_terms_poly_cons s c (d : dict) m :
  coef (terms_poly ((s, c) :: d)) m =
    (c * coef (poly_of s) m + coef (terms_poly d) m)%Qc.
Proof.
  unfold terms_poly. rewrite bind_cons, coef_app. by rewrite coef_scale.
Qed.

Lemma coef_terms_poly_dict_add k c (d : dict) m :
  coef (terms_poly (dict_add k c d)) m =
    (coef (terms_poly d) m + c * coef (poly_of k) m)%Qc.
Proof.
  induction d as [|[k' c'] d IH]; cbn [dict_add].
  - rewrite coef_terms_poly_cons. cbn. ring.
  - destruct (expr_eqb k k') eqn:E.
    + apply expr_eqb_eq in E as ->.
      rewrite !coef_terms_poly_cons. ring.
    + rewrite !coef_terms_poly_cons, IH. ring.
Qed.

Lemma coef_const q m :
  coef [(∅, q)] m = if decide (∅ = m) then q else 0%Qc.
Proof. cbn. case_decide; ring. Qed.

Lemma coef_state_poly_step st o m :
  coef (state_poly (flatten_step st o)) m =
    (coef (state_poly st) m + coef (poly_of o) m)%Qc.
Proof.
  destruct st as [coeff terms]. unfold state_poly.
  assert (Hdflt : coef ((∅, coeff) :: terms_poly (dict_add o 1%Qc terms)) m =
                  (coef ((∅, coeff) :: terms_poly terms) m + coef (poly_of o) m)%Qc).
  { cbn. rewrite coef_terms_poly_dict_add. case_decide; ring. }
  destruct o as [q|s|args|args|b n]; cbn [flatten_step fst snd]; try apply Hdflt.
  - cbn. repeat case_decide; ring.
  - destruct (as_coeff_Mul (Mul args)) as [c s] eqn:E. cbn [fst snd].
    rewrite (poly_of_as_coeff_Mul (Mul args)), E. cbn [fst snd].
    cbn [coef]. rewrite coef_terms_poly_dict_add, coef_scale.
    case_decide; ring.
  - destruct b as [q| | | |]; cbn [fst snd]; try apply Hdflt.
    cbn [poly_of]. rewrite poly_pow_const. cbn. repeat case_decide; ring.
Qed.

Lemma coef_state_poly_foldl (l : list expr) st m :
  coef (state_poly (foldl flatten_step st l)) m =
    (coef (state_poly st) m + coef (l ≫= poly_of) m)%Qc.
Proof.
  revert st. induction l as [|o l IH]; intros st; cbn [foldl].
  - cbn. ring.
  - rewrite IH, coef_state_poly_step, bind_cons, coef_app. ring.
Qed.

Lemma coef_addends (e : expr) m :
  coef (addends e ≫= poly_of) m = coef (poly_of e) m.
Proof.
  induction e as [q|s|args IH|args IH|b n IH] using expr_induction;
    try (cbn [addends]; by rewrite bind_singleton).
  cbn [addends poly_of].
  induction IH as [|a args Ha _ IHargs]; [done|].
  rewrite !bind_cons, bind_app, !coef_app. by rewrite Ha, IHargs.
Qed.

Lemma coef_rebuild_term c s m :
  coef (poly_of (rebuild_term c s)) m = (c * coef (poly_of s) m)%Qc.
Proof.
  unfold rebuild_term. destruct (Qc_eqb c 1) eqn:E.
  { apply Qc_eqb_true in E as ->. ring. }
  destruct s as [q| |args|args|b n].
  - cbn. case_decide; ring.
  - cbn [poly_of foldr]. by rewrite poly_mul_one_r, poly_mul_const_l, coef_scale.
  - change (poly_of (Mul [Number c; Add args]))
      with (poly_mul [(∅, c)] (poly_mul (poly_of (Add args)) poly_one)).
    by rewrite poly_mul_one_r, poly_mul_const_l, coef_scale.
  - rewrite poly_of_Mul_cons. cbn [poly_of].
    by rewrite poly_mul_const_l, coef_scale.
  - change (poly_of (Mul [Number c; Pow b n]))
      with (poly_mul [(∅, c)] (poly_mul (poly_of (Pow b n)) poly_one)).
    by rewrite poly_mul_one_r, poly_mul_const_l, coef_scale.
Qed.

Lemma coef_addsort (l : list expr) m :
  coef (addsort l ≫= poly_of) m = coef (l ≫= poly_of) m.
Proof.
  apply coef_Permutation. unfold addsort.
  by rewrite merge_sort_Permutation.
Qed.

Lemma coef_bind_addends (seq : list expr) m :
  coef ((seq ≫= addends) ≫= poly_of) m = coef (seq ≫= poly_of) m.
Proof.
  induction seq as [|a seq IH]; [done|].
  rewrite !bind_cons, bind_app, !coef_app. by rewrite coef_addends, IH.
Qed.

Lemma coef_Add_flatten (seq : list expr) m :
  coef (Add_flatten seq ≫= poly_of) m = coef (seq ≫= poly_of) m.
Proof.
  unfold Add_flatten.
  pose proof (coef_state_poly_foldl (seq ≫= addends) (0%Qc, []) m) as H.
  destruct (foldl flatten_step _ _) as [coeff terms].
  rewrite coef_bind_addends in H.
  assert (Hterms : coef (omap (λ '(s, c), if Qc_eqb c 0 then None
                                          else Some (rebuild_term c s)) terms
                           ≫= poly_of) m = coef (terms_poly terms) m).
  { clear H. induction terms as [|[s c] terms IH]; [done|].
    rewrite coef_terms_poly_cons. cbn [omap list_omap].
    destruct (Qc_eqb c 0) eqn:E.
    - apply Qc_eqb_true in E as ->. rewrite IH. ring.
    - rewrite bind_cons, coef_app, coef_rebuild_term. by rewrite IH. }
  unfold state_poly in H. cbn [fst snd] in H.
  assert (H' : coef (seq ≫= poly_of) m =
               (coef [(∅ : monomial, coeff)] m + coef (terms_poly terms) m)%Qc).
  { change ((∅, coeff) :: terms_poly terms)
      with ([(∅ : monomial, coeff)] ++ terms_poly terms) in H.
    rewrite coef_app in H. rewrite H. cbn. case_decide; ring. }
  rewrite H'. clear H H'.
  destruct (Qc_eqb coeff 0) eqn:E.
  - apply Qc_eqb_true in E as ->.
    rewrite coef_addsort, Hterms, coef_const. case_decide; ring.
  - by rewrite bind_cons, coef_app, coef_addsort, Hterms.
Qed.

(** [Add(args...)] has the value of the sum of its arguments. *)
Lemma coef_sympy_Add (args : list expr) m :
  coef (poly_of (sympy_Add args)) m = coef (args ≫= poly_of) m.
Proof.
  unfold sympy_Add.
  assert (Hf : coef (filter (λ a, expr_eqb a Zero = false) args ≫= poly_of) m =
               coef (args ≫= poly_of) m).
  { induction args as [|a args IH]; [done|].
    rewrite filter_cons. destruct (decide _) as [E|E].
    - by rewrite !bind_cons, !coef_app, IH.
    - apply not_false_is_true, expr_eqb_eq in E as ->.
      rewrite bind_cons, coef_app, IH. cbn. case_decide; ring. }
  destruct (filter _ args) as [|a [|b l]] eqn:E.
  - rewrite <- Hf. cbn. case_decide; ring.
  - rewrite <- Hf. by rewrite bind_singleton.
  - rewrite coef_poly_of_from_args_Add. cbn [poly_of].
    by rewrite coef_Add_flatten.
Qed.

Lemma coef_sympy_add a b m :
  coef (poly_of (sympy_add a b)) m = (coef (poly_of a) m + coef (poly_of b) m)%Qc.
Proof.
  unfold sympy_add. rewrite coef_sympy_Add.
  rewrite bind_cons, bind_singleton. apply coef_app.
Qed.

Lemma coef_poly_of_Mul_Number c args m :
  coef (poly_of (Mul (Number c :: args))) m = (c * coef (poly_of (Mul args)) m)%Qc.
Proof.
  rewrite poly_of_Mul_cons. cbn [poly_of].
  by rewrite poly_mul_const_l, coef_scale.
Qed.

Lemma coef_poly_of_Mul_pair c s m :
  coef (poly_of (Mul [Number c; s])) m = (c * coef (poly_of s) m)%Qc.
Proof.
  rewrite coef_poly_of_Mul_Number.
  change (poly_of (Mul [s])) with (poly_mul (poly_of s) poly_one).
  by rewrite poly_mul_one_r.
Qed.

Lemma coef_as_coeff_Mul (e : expr) m :
  coef (poly_of e) m =
    ((as_coeff_Mul e).1 * coef (poly_of (as_coeff_Mul e).2) m)%Qc.
Proof. rewrite (poly_of_as_coeff_Mul e) at 1. apply coef_scale. Qed.

Lemma coef_keep_coeff c f m :
  coef (poly_of (keep_coeff c f)) m = (c * coef (poly_of f) m)%Qc.
Proof.
  unfold keep_coeff. destruct (Qc_eqb c 1) eqn:E.
  { apply Qc_eqb_true in E as ->. ring. }
  destruct f as [q| |args|args|b n]; try apply coef_poly_of_Mul_pair.
  - cbn. case_decide; ring.
  - destruct args as [|a margs].
    { cbn. case_decide; ring. }
    assert (Hd : coef (poly_of (from_args Mul One (Number c :: a :: margs))) m =
                 (c * coef (poly_of (Mul (a :: margs))) m)%Qc).
    { rewrite poly_of_from_args_Mul. apply coef_poly_of_Mul_Number. }
    destruct a as [q| | | |]; try apply Hd.
    destruct (Qc_eqb (q * c) 1) eqn:E1.
    + apply Qc_eqb_true in E1.
      rewrite poly_of_from_args_Mul, coef_poly_of_Mul_Number.
      rewrite Qcmult_assoc, (Qcmult_comm c q), E1. ring.
    + rewrite poly_of_from_args_Mul, !coef_poly_of_Mul_Number. ring.
Qed.

(** The product of a number and an expression has the scaled value. *)
Lemma coef_sympy_mul_number a b m :
  coef (poly_of (sympy_mul_number a b)) m = (a * coef (poly_of b) m)%Qc.
Proof.
  unfold sympy_mul_number.
  destruct (Qc_eqb a 1) eqn:E1.
  { apply Qc_eqb_true in E1 as ->. ring. }
  destruct (Qc_eqb a 0) eqn:E0.
  { apply Qc_eqb_true in E0 as ->. cbn. case_decide; ring. }
  rewrite (coef_as_coeff_Mul b m).
  assert (Hgen : ∀ r b',
    coef (poly_of (if Qc_eqb (a * r) 1 then b' else Mul [Number (a * r); b'])) m =
      (a * (r * coef (poly_of b') m))%Qc).
  { intros r b'. destruct (Qc_eqb (a * r) 1) eqn:E.
    - apply Qc_eqb_true in E. rewrite Qcmult_assoc, E. ring.
    - rewrite coef_poly_of_Mul_pair. ring. }
  destruct b as [q|s|args|args|b n].
  - cbn. case_decide; ring.
  - apply Hgen.
  - cbn [as_coeff_Mul fst snd]. rewrite Qc_eqb_refl.
    rewrite coef_sympy_Add. cbn [poly_of].
    induction args as [|x args IH].
    + cbn. ring.
    + rewrite fmap_cons, !bind_cons, !coef_app, coef_keep_coeff, IH. ring.
  - destruct (as_coeff_Mul (Mul args)) as [r b'] eqn:E. cbn [fst snd].
    destruct b' as [q|s|bargs|margs|b n]; try apply Hgen.
    + destruct (Qc_eqb r 1) eqn:Er.
      * apply Qc_eqb_true in Er as ->.
        rewrite coef_sympy_Add. cbn [poly_of]. clear E.
        induction bargs as [|x bargs IH].
        -- cbn. ring.
        -- rewrite fmap_cons, !bind_cons, !coef_app, coef_keep_coeff, IH. ring.
      * apply Hgen.
    + destruct (Qc_eqb (a * r) 1) eqn:Ear.
      * apply Qc_eqb_true in Ear. rewrite Qcmult_assoc, Ear. ring.
      * rewrite coef_poly_of_Mul_Number. ring.
  - apply Hgen.
Qed.

(** ** The coefficient dictionary *)

Lemma as_coefficients_dict_foldl (e : expr) :
  as_coefficients_dict e = foldl dict_step [] (top_args e).
Proof.
  assert (Hs : ∀ e', (let '(c, m) := as_coeff_Mul e' in [(m, c)]) = dict_step [] e').
  { intros e'. unfold dict_step. by destruct (as_coeff_Mul e'). }
  destruct e; cbn [as_coefficients_dict top_args foldl]; try apply Hs.
  generalize (@nil (expr * Qc)). induction args as [|a args IH]; intros d; [done|].
  cbn [foldl]. rewrite IH. f_equal. unfold dict_step. by destruct (as_coeff_Mul a).
Qed.

Lemma poly_of_top_args (e : expr) : poly_of e = top_args e ≫= poly_of.
Proof. destruct e; cbn [top_args]; by rewrite ?bind_singleton. Qed.

Lemma dict_keys_foldl (l : list expr) (d : dict) k :
  k ∈ dict_keys (foldl dict_step d l) ↔
  k ∈ dict_keys d ∨ ∃ a, a ∈ l ∧ (as_coeff_Mul a).2 = k.
Proof.
  revert d. induction l as [|a l IH]; intros d; cbn [foldl].
  - split; [by left|]. intros [?|(a & Ha & _)]; [done|]. by apply elem_of_nil in Ha.
  - rewrite IH. unfold dict_step. rewrite dict_keys_add. split.
    + intros [[->|?]|(a' & Ha' & E)].
      * right. exists a. split; [left | done].
      * by left.
      * right. exists a'. split; [by right | done].
    + intros [?|(a' & Ha' & E)].
      * left. by right.
      * apply elem_of_cons in Ha' as [->|Ha'].
        -- left. by left.
        -- right. by exists a'.
Qed.

Lemma as_coefficients_dict_keys (e : expr) k :
  k ∈ dict_keys (as_coefficients_dict e) ↔
  ∃ a, a ∈ top_args e ∧ (as_coeff_Mul a).2 = k.
Proof.
  rewrite as_coefficients_dict_foldl, dict_keys_foldl. split.
  - intros [H|H]; [|done]. by apply elem_of_nil in H.
  - by right.
Qed.

Lemma key_monomial_poly k m :
  key_monomial k = Some m → poly_of k = [(m, 1%Qc)].
Proof.
  destruct k as [q|x| | |]; unfold key_monomial; try done.
  - destruct (Qc_eqb q 1) eqn:E; [|done].
    apply Qc_eqb_true in E as ->. intros H. apply (inj Some) in H. by subst.
  - intros H. apply (inj Some) in H. by subst.
Qed.

Lemma key_monomial_inj k1 k2 m :
  key_monomial k1 = Some m → key_monomial k2 = Some m → k1 = k2.
Proof.
  intros H1 H2.
  destruct k1 as [q1|x1| | |], k2 as [q2|x2| | |];
    unfold key_monomial in *; try done;
    repeat match goal with
    | H : context [Qc_eqb ?q 1] |- _ =>
        let E := fresh "E" in
        destruct (Qc_eqb q 1) eqn:E; [apply Qc_eqb_true in E; subst q|done]
    end.
  - done.
  - assert ({[+ x2 +]} = (∅ : monomial)) as H by congruence.
    by apply gmultiset_non_empty_singleton in H.
  - assert ({[+ x1 +]} = (∅ : monomial)) as H by congruence.
    by apply gmultiset_non_empty_singleton in H.
  - assert ({[+ x1 +]} = ({[+ x2 +]} : monomial)) as H by congruence.
    by apply (inj singletonMS) in H as ->.
Qed.

Lemma coef_singleton_1 (m m' : monomial) :
  coef [(m', 1%Qc)] m = if decide (m' = m) then 1%Qc else 0%Qc.
Proof. cbn. case_decide; ring. Qed.

(** When every key stands for a monomial, the dictionary holds the
    coefficients of the polynomial value. *)
Lemma dict_get_foldl_atomic (l : list expr) (d : dict) k m :
  Forall (λ a, is_Some (key_monomial (as_coeff_Mul a).2)) l →
  key_monomial k = Some m →
  dict_get (foldl dict_step d l) k 0%Qc =
    (dict_get d k 0 + coef (l ≫= poly_of) m)%Qc.
Proof.
  intros Hl Hk. revert d.
  induction Hl as [|a l [m' Ha] _ IH]; intros d; cbn [foldl].
  - cbn. ring.
  - rewrite IH, bind_cons, coef_app, (coef_as_coeff_Mul a).
    rewrite (key_monomial_poly _ _ Ha), coef_singleton_1.
    unfold dict_step.
    destruct (decide (m' = m)) as [->|Hne].
    + rewrite (key_monomial_inj _ _ _ Ha Hk), dict_get_add_eq. ring.
    + rewrite dict_get_add_ne; [ring|].
      intros ->. rewrite Ha in Hk. by injection Hk.
Qed.

Lemma as_coefficients_dict_get_atomic (e : expr) k m :
  (∀ k', k' ∈ dict_keys (as_coefficients_dict e) → is_Some (key_monomial k')) →
  key_monomial k = Some m →
  dict_get (as_coefficients_dict e) k 0%Qc = coef (poly_of e) m.
Proof.
  intros Hkeys Hk.
  rewrite as_coefficients_dict_foldl, (poly_of_top_args e).
  rewrite (dict_get_foldl_atomic _ _ k m); [cbn; ring| |done].
  apply Forall_forall. intros a Ha. apply Hkeys.
  apply as_coefficients_dict_keys. by exists a.
Qed.

(** When every key stands for a monomial, these are all the monomials of
    the polynomial value. *)
Lemma as_coefficients_dict_monomials (e : expr) m :
  (∀ k', k' ∈ dict_keys (as_coefficients_dict e) → is_Some (key_monomial k')) →
  m ∈ (poly_of e).*1 →
  ∃ k, k ∈ dict_keys (as_coefficients_dict e) ∧ key_monomial k = Some m.
Proof.
  intros Hkeys Hm. rewrite (poly_of_top_args e) in Hm.
  apply list_elem_of_fmap in Hm as ([m0 c] & -> & Hmc).
  apply list_elem_of_bind in Hmc as (a & Hmc & Ha).
  assert (Hk : (as_coeff_Mul a).2 ∈ dict_keys (as_coefficients_dict e)).
  { apply as_coefficients_dict_keys. by exists a. }
  exists (as_coeff_Mul a).2. split; [done|].
  destruct (Hkeys _ Hk) as [m' Hm'].
  rewrite (poly_of_as_coeff_Mul a), (key_monomial_poly _ _ Hm') in Hmc.
  cbn in Hmc. apply list_elem_of_singleton in Hmc. by injection Hmc as -> _.
Qed.

(** ** Linear forms *)

Lemma lin_term_addends S o : lin_term S o → addends o = [o].
Proof. by destruct o. Qed.

Lemma lin_form_addends S e : lin_form S e → Forall (lin_term S) (addends e).
Proof.
  destruct e as [q|x|args|args|b n]; cbn [lin_form addends];
    try (intros H; by repeat constructor).
  induction 1 as [|a args Ha _ IH]; [apply Forall_nil_2|].
  rewrite bind_cons, (lin_term_addends S a Ha). by constructor.
Qed.

Lemma Forall_dict_add (P : expr → Prop) k c (d : dict) :
  P k → Forall (λ sc, P sc.1) d → Forall (λ sc, P sc.1) (dict_add k c d).
Proof.
  intros Hk. induction 1 as [|[k' c'] d Hk' Hd IH]; cbn [dict_add].
  - by repeat constructor.
  - destruct (expr_eqb k k'); constructor; cbn in *; done.
Qed.

Lemma flatten_step_sym_keys S st o :
  lin_term S o → Forall (λ sc, sym_key S sc.1) st.2 →
  Forall (λ sc, sym_key S sc.1) (flatten_step st o).2.
Proof.
  destruct st as [coeff terms]. intros Ho Hst.
  destruct o as [q|x|args|args|b n]; try done.
  - cbn. by apply (Forall_dict_add (sym_key S)).
  - destruct args as [|[c| | | |] [|[|x| | |] [|]]]; try done.
    cbn. by apply (Forall_dict_add (sym_key S)).
Qed.

Lemma foldl_flatten_step_sym_keys S (l : list expr) st :
  Forall (lin_term S) l → Forall (λ sc, sym_key S sc.1) st.2 →
  Forall (λ sc, sym_key S sc.1) (foldl flatten_step st l).2.
Proof.
  intros Hl. revert st. induction Hl as [|o l Ho _ IH]; intros st Hst; [done|].
  cbn [foldl]. by apply IH, flatten_step_sym_keys.
Qed.

Lemma lin_term_rebuild S c s : sym_key S s → lin_term S (rebuild_term c s).
Proof.
  destruct s; try done. intros Hs. unfold rebuild_term.
  by destruct (Qc_eqb c 1).
Qed.

Lemma lin_form_from_args S (l : list expr) :
  Forall (lin_term S) l → lin_form S (from_args Add Zero l).
Proof.
  intros H. destruct H as [|a l Ha Hl]; [done|].
  destruct Hl as [|b l Hb Hl]; cbn [from_args].
  - destruct a; try done.
  - cbn. by repeat constructor.
Qed.

Lemma lin_terms_Add_flatten S (seq : list expr) :
  Forall (lin_form S) seq → Forall (lin_term S) (Add_flatten seq).
Proof.
  intros Hseq. unfold Add_flatten.
  assert (Hadd : Forall (lin_term S) (seq ≫= addends)).
  { apply Forall_bind. eapply Forall_impl; [done|].
    intros e He. by apply lin_form_addends. }
  pose proof (foldl_flatten_step_sym_keys S _ (0%Qc, []) Hadd) as H.
  destruct (foldl flatten_step _ _) as [coeff terms]. cbn [snd] in H.
  specialize (H ltac:(constructor)).
  assert (Hnew : Forall (lin_term S)
            (addsort (omap (λ '(s, c), if Qc_eqb c 0 then None
                                       else Some (rebuild_term c s)) terms))).
  { unfold addsort. rewrite merge_sort_Permutation.
    apply Forall_forall. intros t Ht.
    apply list_elem_of_omap in Ht as ([s c] & Hsc & Ht).
    rewrite Forall_forall in H. specialize (H _ Hsc). cbn in H.
    destruct (Qc_eqb c 0); [done|]. injection Ht as <-.
    by apply lin_term_rebuild. }
  destruct (Qc_eqb coeff 0); [done|]. by constructor.
Qed.

Lemma lin_form_sympy_Add S (args : list expr) :
  Forall (lin_form S) args → lin_form S (sympy_Add args).
Proof.
  intros Hargs. unfold sympy_Add.
  assert (Hf : Forall (lin_form S) (filter (λ a, expr_eqb a Zero = false) args)).
  { rewrite Forall_forall in Hargs. apply Forall_forall. intros x Hx.
    apply list_elem_of_filter in Hx as [_ Hx]. by apply Hargs. }
  destruct (filter _ args) as [|a [|b l]] eqn:E; [done| |].
  - by apply Forall_cons in Hf as [Ha _].
  - by apply lin_form_from_args, lin_terms_Add_flatten.
Qed.

Lemma lin_form_sympy_add S a b :
  lin_form S a → lin_form S b → lin_form S (sympy_add a b).
Proof. intros Ha Hb. apply lin_form_sympy_Add. by repeat constructor. Qed.

Lemma lin_form_mul_number_Sym (S : symbol → Prop) a x :
  S x → lin_form S (sympy_mul_number a (Sym x)).
Proof.
  intros Hx. unfold sympy_mul_number.
  destruct (Qc_eqb a 1); [done|]. destruct (Qc_eqb a 0); [done|].
  cbn. by destruct (Qc_eqb (a * 1) 1).
Qed.

Lemma lin_form_mono (S1 S2 : symbol → Prop) e :
  (∀ x, S1 x → S2 x) → lin_form S1 e → lin_form S2 e.
Proof.
  intros HS.
  assert (Ht : ∀ o, lin_term S1 o → lin_term S2 o).
  { intros [q|x|args|args|b n]; try done; [apply HS|].
    destruct args as [|[c| | | |] [|[|y| | |] [|]]]; try done. apply HS. }
  destruct e; try apply Ht. cbn.
  intros H. eapply Forall_impl; [done|]. apply Ht.
Qed.

(** The keys of a linear form are [1] and symbols of [S]. *)
Lemma lin_form_keys S e k :
  lin_form S e → k ∈ dict_keys (as_coefficients_dict e) →
  k = One ∨ ∃ x, k = Sym x ∧ S x.
Proof.
  intros He Hk. apply as_coefficients_dict_keys in Hk as (a & Ha & <-).
  assert (Hterm : lin_term S a).
  { destruct e as [q|x|args|args|b n]; cbn [top_args] in Ha;
      try (apply list_elem_of_singleton in Ha as ->; exact He).
    cbn in He. rewrite Forall_forall in He. by apply He. }
  destruct a as [q|x|args|args|b n]; try done.
  - by left.
  - right. by exists x.
  - destruct args as [|[c| | | |] [|[|y| | |] [|]]]; try done.
    right. by exists y.
Qed.

(** ** [lin_expr_coeffs] on linear forms *)

Lemma Dummy_new_fresh (used : list symbol) : Dummy_new used ∉ used.
Proof.
  unfold Dummy_new.
  assert (H : ∀ s, s ∈ used →
            dummy_bound s ≤ foldr (λ s n, dummy_bound s `max` n) 0 used).
  { induction used as [|t used IH]; intros s Hs; [by apply elem_of_nil in Hs|].
    cbn. apply elem_of_cons in Hs as [->|Hs]; [lia|].
    specialize (IH s Hs). lia. }
  intros Hin. apply H in Hin. cbn in Hin. lia.
Qed.

Section lin_expr_coeffs_props.
Context {F : Type} (float : Qc → F).

Lemma lin_expr_coeffs_lin_form (e : expr) (variables : list symbol) :
  lin_form (λ x, x ∈ variables) e →
  lin_expr_coeffs float e variables =
    OK ((λ x, float (coef (poly_of e) {[+ x +]})) <$> variables,
        float (coef (poly_of e) ∅)).
Proof.
  intros He. unfold lin_expr_coeffs.
  set (d := Dummy_new (elements (free_symbols e) ++ variables)).
  assert (Hd : d ∉ variables).
  { intros Hd. apply (Dummy_new_fresh (elements (free_symbols e) ++ variables)).
    apply elem_of_app. by right. }
  set (ex := sympy_add (Sym d) e).
  assert (Hex : lin_form (λ x, x ∈ variables ∨ x = d) ex).
  { apply lin_form_sympy_add; [by right|].
    eapply lin_form_mono; [|exact He]. intros x Hx. by left. }
  assert (Hkeys : ∀ k, k ∈ dict_keys (as_coefficients_dict ex) →
                  k = One ∨ ∃ x, k = Sym x ∧ (x ∈ variables ∨ x = d)).
  { intros k Hk. by eapply lin_form_keys. }
  assert (Hatomic : ∀ k, k ∈ dict_keys (as_coefficients_dict ex) →
                    is_Some (key_monomial k)).
  { intros k Hk. destruct (Hkeys k Hk) as [->|(x & -> & _)]; by eexists. }
  assert (Hsub : issubset (dict_keys (as_coefficients_dict ex))
                   ((Sym <$> variables) ++ [One; Sym d]) = true).
  { apply issubset_true. intros k Hk. apply elem_of_app.
    destruct (Hkeys k Hk) as [->|(x & -> & [Hx| ->])].
    - right. left.
    - left. by apply list_elem_of_fmap_2.
    - right. right. left. }
  rewrite Hsub. cbn [mbind result_bind].
  assert (Hval : ∀ k m, key_monomial k = Some m → m ≠ {[+ d +]} →
            dict_get (as_coefficients_dict ex) k 0%Qc = coef (poly_of e) m).
  { intros k m Hk Hm.
    rewrite (as_coefficients_dict_get_atomic ex k m Hatomic Hk).
    unfold ex. rewrite coef_sympy_add. cbn [poly_of].
    rewrite coef_singleton_1, decide_False by done. ring. }
  f_equal. f_equal.
  - apply Forall_fmap_ext_1, Forall_forall. intros x Hx. f_equal.
    apply Hval; [done|]. intros H. apply (inj singletonMS) in H. by subst.
  - f_equal. apply Hval; [done|].
    intros H. symmetry in H. by apply gmultiset_non_empty_singleton in H.
Qed.

(** Value of the affine expression. *)
Lemma coef_affine_fold (l : list (Qc * symbol)) (e0 : expr) m :
  coef (poly_of (foldl (λ e '(a, x), sympy_add e (sympy_mul_number a (Sym x)))
                       e0 l)) m =
    (coef (poly_of e0) m +
     foldr (λ '(a, x) acc, ((if decide ({[+ x +]} = m) then a else 0) + acc)%Qc)
           0%Qc l)%Qc.
Proof.
  revert e0. induction l as [|[a x] l IH]; intros e0; cbn [foldl foldr].
  - ring.
  - rewrite IH, coef_sympy_add, coef_sympy_mul_number. cbn [poly_of].
    rewrite coef_singleton_1. case_decide; ring.
Qed.

Lemma var_sum_zero m (l : list (Qc * symbol)) :
  Forall (λ ax, {[+ ax.2 +]} ≠ m) l → var_sum m l = 0%Qc.
Proof.
  induction 1 as [|[a x] l Hx _ IH]; [done|].
  cbn [var_sum foldr]. fold (var_sum m l).
  rewrite IH, decide_False by done. ring.
Qed.

Lemma coef_affine_expr_const a0 coeffs variables :
  coef (poly_of (affine_expr a0 coeffs variables)) ∅ = a0.
Proof.
  unfold affine_expr. rewrite coef_affine_fold. cbn [poly_of].
  rewrite coef_const, decide_True by done.
  fold (var_sum ∅ (zip coeffs variables)). rewrite var_sum_zero; [ring|].
  apply Forall_forall. intros [a x] _. apply gmultiset_non_empty_singleton.
Qed.

Lemma coef_affine_expr_var a0 coeffs variables i a x :
  NoDup variables → coeffs !! i = Some a → variables !! i = Some x →
  coef (poly_of (affine_expr a0 coeffs variables)) {[+ x +]} = a.
Proof.
  intros Hnd Ha Hx. unfold affine_expr. rewrite coef_affine_fold. cbn [poly_of].
  rewrite coef_const.
  rewrite decide_False by (intros H; symmetry in H;
                           by apply gmultiset_non_empty_singleton in H).
  fold (var_sum {[+ x +]} (zip coeffs variables)).
  assert (var_sum {[+ x +]} (zip coeffs variables) = a) as ->; [|ring].
  revert coeffs i Ha Hx.
  induction Hnd as [|y variables Hy Hnd IH]; intros coeffs i Ha Hx; [done|].
  destruct coeffs as [|b coeffs]; [done|].
  cbn [zip_with var_sum foldr]. fold (var_sum {[+ x +]} (zip coeffs variables)).
  destruct i as [|i]; cbn in Ha, Hx.
  - injection Ha as ->. injection Hx as ->.
    rewrite decide_True by done. rewrite var_sum_zero; [ring|].
    apply Forall_forall. intros [c z] Hz. cbn.
    apply elem_of_zip_r in Hz.
    intros H. apply (inj singletonMS) in H. by subst.
  - rewrite decide_False.
    + rewrite (IH coeffs i Ha Hx). ring.
    + intros H. apply (inj singletonMS) in H. subst.
      apply Hy. by eapply list_elem_of_lookup_2.
Qed.

Lemma lin_form_affine_expr a0 coeffs variables :
  lin_form (λ x, x ∈ variables) (affine_expr a0 coeffs variables).
Proof.
  unfold affine_expr.
  assert (H : Forall (λ ax, ax.2 ∈ variables) (zip coeffs variables)).
  { apply Forall_forall. intros [a x] Hax. by apply elem_of_zip_r in Hax. }
  assert (H0 : lin_form (λ x, x ∈ variables) (Number a0)) by done.
  revert H0. generalize (Number a0).
  induction H as [|[a x] l Hx _ IH]; intros e0 H0; [done|].
  cbn [foldl]. apply IH. apply lin_form_sympy_add; [done|].
  by apply lin_form_mul_number_Sym.
Qed.

(** The extraction on an affine expression gives back its coefficients. *)
Lemma lin_expr_coeffs_affine_expr (a0 : Qc) (coeffs : list Qc)
    (variables : list symbol) :
  NoDup variables → length coeffs = length variables →
  lin_expr_coeffs float (affine_expr a0 coeffs variables) variables =
    OK (float <$> coeffs, float a0).
Proof.
  intros Hnd Hlen.
  rewrite lin_expr_coeffs_lin_form by apply lin_form_affine_expr.
  rewrite coef_affine_expr_const. f_equal. f_equal.
  apply list_eq. intros i. rewrite !list_lookup_fmap.
  destruct (variables !! i) as [x|] eqn:Hx; cbn.
  - destruct (lookup_lt_is_Some_2 coeffs i) as [a Ha].
    { rewrite Hlen. by eapply lookup_lt_Some. }
    rewrite Ha. cbn. do 2 f_equal. by eapply coef_affine_expr_var.
  - rewrite lookup_ge_None_2; [done|].
    apply lookup_ge_None_1 in Hx. lia.
Qed.

End lin_expr_coeffs_props.

(** A list of rationals comes through [float] unchanged exactly when each
    of them is a double. *)
Lemma python_float_exact (l : list Qc) :
  python_float <$> l = Finite <$> l ↔ Forall is_double l.
Proof.
  induction l as [|q l IH]; [by split|].
  rewrite !fmap_cons, Forall_cons, <- IH. unfold is_double. split.
  - intros H. by injection H.
  - by intros [-> ->].
Qed.

(** C1: on the affine expression [a0 + a1*x1 + ... + an*xn] with rational
    coefficients and distinct variables, [lin_expr_coeffs] returns
    [[float(a1), ..., float(an)]] and [float(a0)]: each coefficient
    written is converted on its own, with no arithmetic on it, whatever
    the conversion.  With Python's conversion the result is [[a1, ..., an]]
    and [a0] exactly when, and only when, every [ai] is a double. *)
Theorem lin_expr_coeffs_affine (a0 : Qc) (coeffs : list Qc)
    (variables : list symbol) :
  NoDup variables → length coeffs = length variables →
  (∀ (F : Type) (float : Qc → F),
     lin_expr_coeffs float (affine_expr a0 coeffs variables) variables =
       OK (float <$> coeffs, float a0)) ∧
  (lin_expr_coeffs python_float (affine_expr a0 coeffs variables) variables =
     OK (Finite <$> coeffs, Finite a0) ↔
   Forall is_double (a0 :: coeffs)).
Proof.
  intros Hnd Hlen. split.
  - intros F float. by apply lin_expr_coeffs_affine_expr.
  - rewrite lin_expr_coeffs_affine_expr by done.
    rewrite Forall_cons, <- python_float_exact. unfold is_double. split.
    + intros H. by injection H.
    + by intros [-> ->].
Qed.

(** C1 as stated fails: [1/3] and [2**53 + 1] are not doubles, and come
    back as the doubles nearest to them. *)
Lemma lin_expr_coeffs_rounds_coefficients :
  let x := Symbol "x" in
  let e := affine_expr (Q2Qc (9007199254740993 # 1)) [Q2Qc (1 # 3)] [x] in
  lin_expr_coeffs python_float e [x] =
    OK ([Finite (Q2Qc (6004799503160661 # 18014398509481984))],
        Finite (Q2Qc (9007199254740992 # 1))) ∧
  lin_expr_coeffs python_float e [x] ≠
    OK ([Finite (Q2Qc (1 # 3))], Finite (Q2Qc (9007199254740993 # 1))).
Proof.
  cbn zeta.
  assert (E : lin_expr_coeffs python_float
                (affine_expr (Q2Qc (9007199254740993 # 1)) [Q2Qc (1 # 3)]
                             [Symbol "x"]) [Symbol "x"] =
              OK ([Finite (Q2Qc (6004799503160661 # 18014398509481984))],
                  Finite (Q2Qc (9007199254740992 # 1)))) by qc_eq.
  split; [exact E|]. rewrite E. intros H. injection H as H1 H2.
  discriminate.
Qed.

(** ** Expansion *)

Lemma poly_mul_monomials (p q : poly) m :
  m ∈ (poly_mul p q).*1 → ∃ m1 m2, m1 ∈ p.*1 ∧ m2 ∈ q.*1 ∧ m = m1 ⊎ m2.
Proof.
  intros Hm. apply list_elem_of_fmap in Hm as ([m0 c] & -> & Hmc).
  unfold poly_mul in Hmc.
  apply list_elem_of_bind in Hmc as ([m1 c1] & Hmc & H1).
  apply list_elem_of_fmap in Hmc as ([m2 c2] & E & H2).
  exists m1, m2. split; [|split].
  - by apply (list_elem_of_fmap_2 fst) in H1.
  - by apply (list_elem_of_fmap_2 fst) in H2.
  - by injection E.
Qed.

(** The symbols of a monomial of the value of [e] occur in [e]. *)
Lemma poly_of_symbols (e : expr) m x :
  m ∈ (poly_of e).*1 → x ∈ m → x ∈ free_symbols e.
Proof.
  revert m. induction e as [q|s|args IH|args IH|b n IH] using expr_induction;
    intros m Hm Hx.
  - cbn in Hm. apply list_elem_of_singleton in Hm as ->.
    by apply gmultiset_elem_of_empty in Hx.
  - cbn in Hm. apply list_elem_of_singleton in Hm as ->.
    apply gmultiset_elem_of_singleton in Hx as ->. cbn. set_solver.
  - cbn [poly_of] in Hm. apply list_elem_of_fmap in Hm as ([m0 c] & -> & Hmc).
    apply list_elem_of_bind in Hmc as (a & Hmc & Ha).
    rewrite Forall_forall in IH. cbn [free_symbols].
    apply elem_of_union_list. exists (free_symbols a). split.
    + by apply list_elem_of_fmap_2.
    + eapply (IH a Ha m0); [|done]. by apply (list_elem_of_fmap_2 fst) in Hmc.
  - cbn [free_symbols]. revert m Hm Hx.
    induction IH as [|a args Ha _ IHargs]; intros m Hm Hx.
    + cbn in Hm. apply list_elem_of_singleton in Hm as ->.
      by apply gmultiset_elem_of_empty in Hx.
    + rewrite poly_of_Mul_cons in Hm.
      apply poly_mul_monomials in Hm as (m1 & m2 & H1 & H2 & ->).
      rewrite fmap_cons, union_list_cons. apply elem_of_union.
      apply gmultiset_elem_of_disj_union in Hx as [Hx|Hx].
      * left. by eapply Ha.
      * right. by eapply IHargs.
  - cbn [poly_of free_symbols] in *. revert m Hm Hx.
    induction n as [|n IHn]; intros m Hm Hx.
    + cbn in Hm. apply list_elem_of_singleton in Hm as ->.
      by apply gmultiset_elem_of_empty in Hx.
    + cbn [poly_pow] in Hm.
      apply poly_mul_monomials in Hm as (m1 & m2 & H1 & H2 & ->).
      apply gmultiset_elem_of_disj_union in Hx as [Hx|Hx].
      * by eapply IH.
      * by eapply IHn.
Qed.

Lemma elem_of_expanded_terms (p : poly) m c :
  (m, c) ∈ expanded_terms p ↔ c = coef p m ∧ c ≠ 0%Qc.
Proof.
  unfold expanded_terms. rewrite list_elem_of_filter, list_elem_of_fmap. cbn.
  rewrite Qc_eqb_false. split.
  - intros [Hc (m' & [= -> ->] & _)]. done.
  - intros [-> Hc]. split; [done|]. exists m. split; [done|].
    apply elem_of_remove_dups. by apply coef_nonzero_elem.
Qed.

Lemma addsort_Permutation (l : list expr) : addsort l ≡ₚ l.
Proof. apply merge_sort_Permutation. Qed.

Lemma addsort_nil (l : list expr) : addsort l = [] → l = [].
Proof.
  intros H. apply Permutation_nil_r. by rewrite <- (addsort_Permutation l), H.
Qed.

Lemma addsort_singleton (l : list expr) x : addsort l = [x] → l = [x].
Proof.
  intros H. apply Permutation_singleton_r.
  by rewrite <- (addsort_Permutation l), H.
Qed.

Lemma monomial_factors_shape m : Forall factor_shape (monomial_factors m).
Proof.
  unfold monomial_factors, addsort. rewrite merge_sort_Permutation.
  apply Forall_fmap, Forall_forall. intros s _. cbn. by case_decide.
Qed.

Lemma monomial_key_factors m :
  monomial_key m = from_args Mul One (monomial_factors m).
Proof. done. Qed.

Lemma monomial_key_One m : monomial_key m = One → m = ∅.
Proof.
  rewrite monomial_key_factors. pose proof (monomial_factors_shape m) as Hs.
  intros H. assert (Hnil : monomial_factors m = []).
  { destruct (monomial_factors m) as [|a [|b l]]; [done| |done].
    cbn in H. subst a. by apply Forall_cons in Hs as [? _]. }
  unfold monomial_factors in Hnil.
  apply addsort_nil, fmap_nil_inv, elements_empty_inv in Hnil.
  destruct (gmultiset_choose_or_empty m) as [[x Hx]|]; [|done].
  apply gmultiset_elem_of_dom in Hx. set_solver.
Qed.

Lemma monomial_key_Sym m x : monomial_key m = Sym x → m = {[+ x +]}.
Proof.
  rewrite monomial_key_factors. pose proof (monomial_factors_shape m) as Hs.
  intros H. assert (Hone : monomial_factors m = [Sym x]).
  { destruct (monomial_factors m) as [|a [|b l]]; [done| |done].
    cbn in H. by subst a. }
  unfold monomial_factors in Hone. apply addsort_singleton in Hone.
  destruct (elements (dom m)) as [|s [|t l]] eqn:E; try done.
  cbn in Hone. case_decide as Hk; [|done]. injection Hone as ->.
  apply gmultiset_eq. intros y.
  destruct (decide (y = x)) as [->|Hne].
  - by rewrite multiplicity_singleton_eq.
  - rewrite multiplicity_singleton_ne by done.
    apply not_elem_of_multiplicity. intros Hy.
    apply gmultiset_elem_of_dom, elem_of_elements in Hy.
    rewrite E in Hy. by apply list_elem_of_singleton in Hy.
Qed.

Lemma as_coeff_Mul_rebuild_monomial c m :
  (as_coeff_Mul (rebuild_term c (monomial_key m))).2 = monomial_key m ∧
  top_args (rebuild_term c (monomial_key m)) = [rebuild_term c (monomial_key m)].
Proof.
  rewrite monomial_key_factors. pose proof (monomial_factors_shape m) as Hs.
  unfold rebuild_term.
  destruct (monomial_factors m) as [|a [|b l]]; cbn [from_args].
  - by destruct (Qc_eqb c 1).
  - apply Forall_cons in Hs as [Ha _].
    destruct a as [|s|?|?|[|s| | |] k]; try done; by destruct (Qc_eqb c 1).
  - apply Forall_cons in Hs as [Ha _].
    destruct a as [|s|?|?|[|s| | |] k]; try done; by destruct (Qc_eqb c 1).
Qed.

(** Every monomial of the expanded value is a key of the dictionary of
    the expanded expression. *)
Lemma expand_keys (e : expr) m :
  coef (poly_of e) m ≠ 0%Qc →
  monomial_key m ∈ dict_keys (as_coefficients_dict (expand e)).
Proof.
  intros Hc. apply as_coefficients_dict_keys.
  set (t := rebuild_term (coef (poly_of e) m) (monomial_key m)).
  exists t. split; [|apply as_coeff_Mul_rebuild_monomial].
  unfold expand, expr_of_poly.
  set (ts := (λ '(m, c), rebuild_term c (monomial_key m))
               <$> expanded_terms (poly_of e)).
  assert (Ht : t ∈ addsort ts).
  { unfold addsort. rewrite merge_sort_Permutation. unfold ts.
    apply list_elem_of_fmap. exists (m, coef (poly_of e) m). split; [done|].
    by apply elem_of_expanded_terms. }
  assert (Hall : Forall (λ t, top_args t = [t]) (addsort ts)).
  { unfold addsort. rewrite merge_sort_Permutation. unfold ts.
    apply Forall_fmap, Forall_forall. intros [m' c'] _. cbn.
    apply as_coeff_Mul_rebuild_monomial. }
  destruct (addsort ts) as [|a [|b l]]; cbn [from_args].
  - by apply elem_of_nil in Ht.
  - apply Forall_cons in Hall as [-> _]. done.
  - done.
Qed.

Section nonlinear.
Context {F : Type} (float : Qc → F).

(** A monomial of the expanded value that is neither [1] nor one of the
    variables makes [lin_expr_coeffs] fail. *)
Lemma lin_expr_coeffs_nonlinear (e : expr) (variables : list symbol) m :
  coef (poly_of e) m ≠ 0%Qc → m ≠ ∅ →
  (∀ x, x ∈ variables → m ≠ {[+ x +]}) →
  lin_expr_coeffs float e variables =
    Raise (NonLinearExpressionError
             "'linear_expr' must be linear w.r.t. 'variables'").
Proof.
  intros Hc Hne Hvars. unfold lin_expr_coeffs.
  set (d := Dummy_new (elements (free_symbols e) ++ variables)).
  set (ex := sympy_add (Sym d) e).
  set (ok_set := (Sym <$> variables) ++ [One; Sym d]).
  assert (Hmd : m ≠ {[+ d +]}).
  { intros ->. apply (Dummy_new_fresh (elements (free_symbols e) ++ variables)).
    apply elem_of_app. left. apply elem_of_elements.
    eapply poly_of_symbols; [by apply coef_nonzero_elem|].
    by apply gmultiset_elem_of_singleton. }
  assert (Hcex : coef (poly_of ex) m ≠ 0%Qc).
  { unfold ex. rewrite coef_sympy_add. cbn [poly_of].
    rewrite coef_singleton_1, decide_False by done.
    by rewrite Qcplus_0_l. }
  assert (Hbad : ∀ k, k ∈ ok_set → key_monomial k ≠ Some m ∧ k ≠ monomial_key m).
  { intros k Hk. unfold ok_set in Hk. rewrite elem_of_app in Hk.
    destruct Hk as [Hk|Hk].
    - apply list_elem_of_fmap in Hk as (x & -> & Hx). split.
      + cbn. intros [= H]. by apply (Hvars x).
      + intros H. symmetry in H. apply monomial_key_Sym in H. by apply (Hvars x).
    - apply elem_of_cons in Hk as [->|Hk].
      + split.
        * cbn. intros [= H]. done.
        * intros H. symmetry in H. by apply monomial_key_One in H.
      + apply list_elem_of_singleton in Hk as ->. split.
        * cbn. intros [= H]. done.
        * intros H. symmetry in H. by apply monomial_key_Sym in H. }
  assert (H1 : issubset (dict_keys (as_coefficients_dict ex)) ok_set = false).
  { apply not_true_is_false. intros Hsub.
    rewrite issubset_true in Hsub.
    assert (Hatomic : ∀ k, k ∈ dict_keys (as_coefficients_dict ex) →
                      is_Some (key_monomial k)).
    { intros k Hk. apply Hsub in Hk. unfold ok_set in Hk.
      rewrite elem_of_app in Hk. destruct Hk as [Hk|Hk].
      - apply list_elem_of_fmap in Hk as (x & -> & _). by eexists.
      - apply elem_of_cons in Hk as [->|Hk]; [by eexists|].
        apply list_elem_of_singleton in Hk as ->. by eexists. }
    destruct (as_coefficients_dict_monomials ex m Hatomic) as (k & Hk & Hkm).
    { by apply coef_nonzero_elem. }
    by apply Hsub, Hbad in Hk as [? _]. }
  assert (H2 : issubset (dict_keys (as_coefficients_dict (expand ex))) ok_set
               = false).
  { apply not_true_is_false. intros Hsub.
    rewrite issubset_true in Hsub.
    pose proof (expand_keys ex m Hcex) as Hk.
    by apply Hsub, Hbad in Hk as [_ ?]. }
  fold ex. fold ok_set. by rewrite H1, H2.
Qed.

(** Every failure of [lin_expr_coeffs] is the same exception. *)
Lemma lin_expr_coeffs_raise (e : expr) (variables : list symbol) er :
  lin_expr_coeffs float e variables = Raise er →
  er = NonLinearExpressionError
         "'linear_expr' must be linear w.r.t. 'variables'".
Proof.
  unfold lin_expr_coeffs.
  repeat match goal with
  | |- context [if ?b then _ else _] => destruct b
  end; cbn; congruence.
Qed.
End nonlinear.

Section claims_lin_expr.
Context {F : Type} (float : Qc → F).

(** C3 (as amended): when the expanded form of the expression has a term
    whose monomial contains two distinct supplied variables,
    [lin_expr_coeffs] fails with [NonLinearExpressionError]; the exception
    carries the fixed message and not the expression. *)
Theorem lin_expr_coeffs_product_fails (e : expr) (variables : list symbol)
    (x y : symbol) (m : monomial) (c : Qc) :
  x ∈ variables → y ∈ variables → x ≠ y →
  (m, c) ∈ expanded_terms (poly_of e) → x ∈ m → y ∈ m →
  lin_expr_coeffs float e variables =
    Raise (NonLinearExpressionError
             "'linear_expr' must be linear w.r.t. 'variables'").
Proof.
  intros _ _ Hxy Hm Hx Hy.
  apply elem_of_expanded_terms in Hm as [-> Hc].
  apply (lin_expr_coeffs_nonlinear float e variables m Hc).
  - intros ->. by apply gmultiset_elem_of_empty in Hx.
  - intros z _ ->.
    apply gmultiset_elem_of_singleton in Hx, Hy. congruence.
Qed.

(** C10 (as amended): when the expanded form of the expression has a term
    with a symbol outside the supplied variables, [lin_expr_coeffs] fails
    with [NonLinearExpressionError], also when that term is linear in the
    symbol; the exception is the one every other failure raises. *)
Theorem lin_expr_coeffs_extraneous_symbol_fails (e : expr)
    (variables : list symbol) (w : symbol) (m : monomial) (c : Qc) :
  w ∉ variables →
  (m, c) ∈ expanded_terms (poly_of e) → w ∈ m →
  lin_expr_coeffs float e variables =
    Raise (NonLinearExpressionError
             "'linear_expr' must be linear w.r.t. 'variables'") ∧
  ∀ e' variables' er,
    lin_expr_coeffs float e' variables' = Raise er →
    lin_expr_coeffs float e variables = Raise er.
Proof.
  intros Hw Hm Hwm.
  apply elem_of_expanded_terms in Hm as [-> Hc].
  assert (H : lin_expr_coeffs float e variables =
              Raise (NonLinearExpressionError
                       "'linear_expr' must be linear w.r.t. 'variables'")).
  { apply (lin_expr_coeffs_nonlinear float e variables m Hc).
    - intros ->. by apply gmultiset_elem_of_empty in Hwm.
    - intros z Hz ->. apply gmultiset_elem_of_singleton in Hwm. by subst. }
  split; [done|]. intros e' variables' er Her.
  apply lin_expr_coeffs_raise in Her. by subst.
Qed.
End claims_lin_expr.

Lemma lin_expr_coeffs_affine_witness :
  lin_expr_coeffs python_float
    (affine_expr (Q2Qc (-7 # 2)) [1%Qc; Q2Qc (3 # 8); 0%Qc]
                 [Symbol "x"; Symbol "y"; Symbol "z"])
    [Symbol "x"; Symbol "y"; Symbol "z"] =
  OK (Finite <$> [1%Qc; Q2Qc (3 # 8); 0%Qc], Finite (Q2Qc (-7 # 2))).
Proof.
  apply (proj2 (lin_expr_coeffs_affine (Q2Qc (-7 # 2))
                  [1%Qc; Q2Qc (3 # 8); 0%Qc]
                  [Symbol "x"; Symbol "y"; Symbol "z"]
                  ltac:(vm_decide) eq_refl)).
  repeat constructor; qc_eq.
Defined.

Lemma lin_expr_coeffs_product_fails_witness :
  lin_expr_coeffs (λ q, q)
    (sympy_add (Number (Q2Qc (6 # 5))) (Mul [Sym (Symbol "x"); Sym (Symbol "y")]))
    [Symbol "x"; Symbol "y"; Symbol "z"] =
  Raise (NonLinearExpressionError
           "'linear_expr' must be linear w.r.t. 'variables'").
Proof.
  apply (lin_expr_coeffs_product_fails (λ q, q) _ _
           (Symbol "x") (Symbol "y")
           ({[+ Symbol "x" +]} ⊎ {[+ Symbol "y" +]}) 1%Qc).
  - vm_decide.
  - vm_decide.
  - discriminate.
  - apply elem_of_expanded_terms. split.
    + apply Qc_is_canon. vm_compute. reflexivity.
    + discriminate.
  - vm_decide.
  - vm_decide.
Defined.

Lemma lin_expr_coeffs_extraneous_symbol_fails_witness :
  lin_expr_coeffs (λ q, q)
    (sympy_add (Sym (Symbol "x")) (Sym (Symbol "w")))
    [Symbol "x"] =
  Raise (NonLinearExpressionError
           "'linear_expr' must be linear w.r.t. 'variables'").
Proof.
  apply (lin_expr_coeffs_extraneous_symbol_fails (λ q, q) _ _
           (Symbol "w") {[+ Symbol "w" +]} 1%Qc).
  - vm_decide.
  - apply elem_of_expanded_terms. split.
    + apply Qc_is_canon. vm_compute. reflexivity.
    + discriminate.
  - vm_decide.
Defined.

(** C3 as stated fails.  The expression [(1 + w)*y - w*y] contains the
    product [w*y] of two supplied variables and expands to [y]: no
    exception is raised.  And the exception raised on [w*y] is the one
    raised on [w**2]: it does not name the expression. *)
Lemma lin_expr_coeffs_product_cancelled :
  let w := Symbol "w" in
  let y := Symbol "y" in
  let e := Add [Mul [Add [One; Sym w]; Sym y];
                Mul [Number (-(1))%Qc; Sym w; Sym y]] in
  Mul [Number (-(1))%Qc; Sym w; Sym y] ∈ top_args e ∧
  w ≠ y ∧
  lin_expr_coeffs (λ q, q) e [w; y] = OK ([0%Qc; 1%Qc], 0%Qc) ∧
  Mul [Sym w; Sym y] ≠ Pow (Sym w) 2 ∧
  lin_expr_coeffs (λ q, q) (Mul [Sym w; Sym y]) [w; y] =
    lin_expr_coeffs (λ q, q) (Pow (Sym w) 2) [w; y].
Proof.
  cbn zeta. split; [|split; [|split; [|split]]].
  - cbn [top_args]. apply elem_of_cons. right. apply elem_of_cons. by left.
  - discriminate.
  - qc_eq.
  - discriminate.
  - vm_compute. reflexivity.
Qed.

(** C10 as stated fails.  [(1 + w)*y - w*y] has the free symbol [w], which
    is not among the variables [[y]], and expands to [y]: no exception is
    raised. *)
Lemma lin_expr_coeffs_extraneous_symbol_cancelled :
  let w := Symbol "w" in
  let y := Symbol "y" in
  let e := Add [Mul [Add [One; Sym w]; Sym y];
                Mul [Number (-(1))%Qc; Sym w; Sym y]] in
  w ∈ free_symbols e ∧ (w ∉ [y]) ∧
  lin_expr_coeffs (λ q, q) e [y] = OK ([1%Qc], 0%Qc).
Proof.
  cbn zeta. split; [|split].
  - vm_decide.
  - vm_decide.
  - qc_eq.
Qed.

(** ** Matrices, entry by entry *)

Lemma shape_tabulate {A} r c (g : nat → nat → A) : shape r c (tabulate r c g).
Proof.
  unfold shape, tabulate. split.
  - by rewrite length_fmap, length_seq.
  - apply Forall_fmap, Forall_forall. intros i _. cbn.
    by rewrite length_fmap, length_seq.
Qed.

Lemma mlookup_tabulate {A} r c (g : nat → nat → A) i j :
  i < r → j < c → mlookup (tabulate r c g) i j = Some (g i j).
Proof.
  intros Hi Hj. unfold mlookup, tabulate.
  rewrite list_lookup_fmap, lookup_seq_lt by done. cbn.
  by rewrite list_lookup_fmap, lookup_seq_lt by done.
Qed.

Lemma matrix_eq_pointwise {A} r c (m1 m2 : Matrix A) :
  shape r c m1 → shape r c m2 →
  (∀ i j, i < r → j < c → mlookup m1 i j = mlookup m2 i j) →
  m1 = m2.
Proof.
  intros [Hl1 Hr1] [Hl2 Hr2] H. apply list_eq_same_length with r; [done..|].
  intros i row1 row2 Hi H1 H2.
  rewrite Forall_forall in Hr1, Hr2.
  apply list_eq_same_length with c.
  - apply Hr2. by eapply list_elem_of_lookup_2.
  - apply Hr1. by eapply list_elem_of_lookup_2.
  - intros j x y Hj Hx Hy. specialize (H i j Hi Hj).
    unfold mlookup in H. rewrite H1, H2 in H. cbn in H. congruence.
Qed.

Lemma shape_setitem {A} r c (m : Matrix A) elem v :
  shape r c m → shape r c (setitem m elem v).
Proof.
  intros [Hl Hr]. unfold shape, setitem. split.
  - by rewrite length_alter.
  - apply Forall_alter; [done|]. intros row Hrow.
    by rewrite length_insert.
Qed.

Lemma mlookup_setitem {A} r c (m : Matrix A) i j v i' j' :
  shape r c m → i < r → j < c →
  mlookup (setitem m (i, j) v) i' j' =
    if decide (i' = i ∧ j' = j) then Some v else mlookup m i' j'.
Proof.
  intros [Hl Hr] Hi Hj. unfold mlookup, setitem. cbn [fst snd].
  destruct (decide (i' = i)) as [->|Hne].
  - rewrite list_lookup_alter_eq.
    destruct (m !! i) as [row|] eqn:E; cbn.
    + assert (length row = c) as Hrow.
      { rewrite Forall_forall in Hr. apply Hr. by eapply list_elem_of_lookup_2. }
      destruct (decide (j' = j)) as [->|Hnj].
      * rewrite decide_True by done. apply list_lookup_insert_eq. lia.
      * rewrite decide_False by tauto. by apply list_lookup_insert_ne.
    + apply lookup_ge_None_1 in E. lia.
  - rewrite list_lookup_alter_ne by done. by rewrite decide_False by tauto.
Qed.

(** A pass of writes [m[elem] = h elem] over cells of a zero matrix. *)
Lemma foldl_setitem {A} r c (z : A) (h : nat * nat → A) (cells : list (nat * nat)) :
  Forall (λ e, e.1 < r ∧ e.2 < c) cells →
  let m := foldl (λ m e, setitem m e (h e)) (replicate r (replicate c z)) cells in
  shape r c m ∧
  ∀ i j, i < r → j < c →
    mlookup m i j = Some (if decide ((i, j) ∈ cells) then h (i, j) else z).
Proof.
  cbn zeta. induction cells as [|[i0 j0] cells IH] using rev_ind; intros Hcells.
  - cbn. split.
    + split; [by rewrite length_replicate|].
      apply Forall_forall. intros row Hrow%elem_of_replicate.
      destruct Hrow as [-> _]. by rewrite length_replicate.
    + intros i j Hi Hj. unfold mlookup.
      rewrite lookup_replicate_2 by done. cbn.
      rewrite lookup_replicate_2 by done. by rewrite decide_False by apply not_elem_of_nil.
  - apply Forall_app in Hcells as [Hcells [[Hi0 Hj0] _]%Forall_cons].
    rewrite foldl_app. cbn [foldl]. destruct (IH Hcells) as [Hsh Hlk]. split.
    + by apply shape_setitem.
    + intros i j Hi Hj.
      rewrite (mlookup_setitem r c) by done. cbn in Hi0, Hj0.
      destruct (decide (i = i0 ∧ j = j0)) as [[-> ->]|Hne].
      * rewrite decide_True; [done|]. apply elem_of_app. right. by left.
      * rewrite Hlk by done. f_equal.
        destruct (decide ((i, j) ∈ cells)) as [Hin|Hin].
        -- rewrite decide_True; [done|]. apply elem_of_app. by left.
        -- rewrite decide_False; [done|]. rewrite elem_of_app.
           intros [?|H%list_elem_of_singleton]; [done|].
           injection H as -> ->. tauto.
Qed.

Lemma elem_of_all_cells r c i j : (i, j) ∈ all_cells r c ↔ i < r ∧ j < c.
Proof.
  unfold all_cells. rewrite list_elem_of_bind. split.
  - intros (i' & H & Hi'). apply list_elem_of_bind in H as (j' & H & Hj').
    apply list_elem_of_singleton in H. injection H as -> ->.
    apply elem_of_seq in Hi', Hj'. lia.
  - intros [Hi Hj]. exists i. split; [|apply elem_of_seq; lia].
    apply list_elem_of_bind. exists j. split; [by left|apply elem_of_seq; lia].
Qed.

Lemma foldl_setitem_all {A} r c (z : A) (g : nat → nat → A) :
  foldl (λ m e, setitem m e (g e.1 e.2)) (replicate r (replicate c z))
        (all_cells r c) = tabulate r c g.
Proof.
  destruct (foldl_setitem r c z (λ e, g e.1 e.2) (all_cells r c)) as [Hsh Hlk].
  { apply Forall_forall. intros [i j] H. by apply elem_of_all_cells. }
  apply (matrix_eq_pointwise r c); [done|apply shape_tabulate|].
  intros i j Hi Hj. rewrite Hlk, mlookup_tabulate by done.
  rewrite decide_True; [done|]. by apply elem_of_all_cells.
Qed.

(** ** Loops *)

Lemma for_each_app {A S} (l1 l2 : list A) (body : S → A → result S) s :
  for_each (l1 ++ l2) body s = (s' ← for_each l1 body s; for_each l2 body s').
Proof.
  revert s. induction l1 as [|x l1 IH]; intros s; cbn; [done|].
  destruct (body s x); cbn; [apply IH | done].
Qed.

(** A loop whose body never raises is a fold. *)
Lemma for_each_pure {A S} (l : list A) (body : S → A → result S)
    (f : S → A → S) (Inv : S → Prop) s :
  Inv s →
  (∀ s x, Inv s → x ∈ l → body s x = OK (f s x) ∧ Inv (f s x)) →
  for_each l body s = OK (foldl f s l) ∧ Inv (foldl f s l).
Proof.
  revert s. induction l as [|x l IH]; intros s Hs Hbody; cbn; [done|].
  destruct (Hbody s x Hs) as [-> Hs']; [left|]. cbn.
  apply IH; [done|]. intros s' y Hs'' Hy. apply Hbody; [done | by right].
Qed.

(** A loop stops with the exception of the first pass that raises: if
    every pass either succeeds or raises [er], and some pass raises [er]
    whatever the state, the loop raises [er]. *)
Lemma for_each_raise {A S} (l : list A) (body : S → A → result S)
    (Inv : S → Prop) (er : exn) s x0 :
  Inv s → x0 ∈ l →
  (∀ s, Inv s → body s x0 = Raise er) →
  (∀ s x, Inv s → x ∈ l →
     body s x = Raise er ∨ ∃ s', body s x = OK s' ∧ Inv s') →
  for_each l body s = Raise er.
Proof.
  intros Hs Hx0 Hfail Hbody. revert s Hs.
  induction l as [|x l IH]; intros s Hs; [by apply elem_of_nil in Hx0|].
  cbn. apply elem_of_cons in Hx0 as [<-|Hx0].
  - by rewrite Hfail.
  - destruct (Hbody s x Hs) as [->|(s' & -> & Hs')]; [left|done|].
    cbn. apply IH; [done| |done].
    intros s0 y Hs0 Hy. apply Hbody; [done|by right].
Qed.

(** ** [lm_sym_to_coeffs], cell by cell *)

Section lm_sym_to_coeffs_props.
Context {F : Type} (float : Qc → F).

Lemma lin_expr_coeffs_length e variables cs k :
  lin_expr_coeffs float e variables = OK (cs, k) →
  length cs = length variables.
Proof.
  unfold lin_expr_coeffs.
  repeat match goal with
  | |- context [if ?b then _ else _] => destruct b
  end; cbn; intros [= <- _]; by rewrite ?length_fmap.
Qed.

(** The loop [for i in range(len(variables)): coeffs[i][elem] = coeffs_elem[i]] *)
Lemma coeffs_loop_ok (coeffs : list (Matrix F)) (cs : list F) elem n :
  length coeffs = n → length cs = n →
  for_each (seq 0 n)
    (λ coeffs i, v ← getitem cs i;
                 OK (alter (λ ci, setitem ci elem v) i coeffs))
    coeffs =
  OK (zip_with (λ ci v, setitem ci elem v) coeffs cs).
Proof.
  intros Hc Hcs.
  assert (H : ∀ k, k ≤ n →
    for_each (seq 0 k)
      (λ coeffs i, v ← getitem cs i;
                   OK (alter (λ ci, setitem ci elem v) i coeffs))
      coeffs =
    OK (zip_with (λ ci v, setitem ci elem v) (take k coeffs) (take k cs)
        ++ drop k coeffs)).
  { induction k as [|k IH]; intros Hk.
    - cbn. by rewrite drop_0.
    - rewrite seq_S, for_each_app, IH by lia. cbn [mbind result_bind for_each].
      destruct (lookup_lt_is_Some_2 cs k) as [v Hv]; [lia|].
      destruct (lookup_lt_is_Some_2 coeffs k) as [ci Hci]; [lia|].
      unfold getitem. cbn [plus]. rewrite Hv. cbn [mbind result_bind].
      f_equal.
      rewrite (take_S_r _ _ _ Hci), (take_S_r _ _ _ Hv).
      rewrite zip_with_app by (rewrite !length_take; lia).
      rewrite (drop_S _ _ _ Hci). cbn [zip_with].
      rewrite <- app_assoc. cbn [app].
      assert (Hlen : length (zip_with (λ ci v, setitem ci elem v)
                               (take k coeffs) (take k cs)) = k).
      { rewrite length_zip_with, !length_take. lia. }
      assert (Ha : ∀ (l : list (Matrix F)) x rest f,
                alter f (length l) (l ++ x :: rest) = l ++ f x :: rest).
      { intros l x rest f. rewrite <- (Nat.add_0_r (length l)).
        by rewrite alter_app_r. }
      rewrite <- Hlen at 1. by rewrite Ha. }
  rewrite (H n) by done.
  by rewrite !take_ge, drop_ge, app_nil_r by lia.
Qed.

(** The state of [lm_sym_to_coeffs] after the cells [cells], when the
    extraction succeeds on each with result [g]. *)
Lemma lm_sym_to_coeffs_fold (lm : Matrix expr) (variables : list symbol)
    (g : nat * nat → list F * F) (cells : list (nat * nat))
    (coeffs : list (Matrix F)) (consts : Matrix F) :
  length coeffs = length variables →
  Forall (λ e, lin_expr_coeffs float (entry lm e.1 e.2) variables = OK (g e))
         cells →
  for_each cells
    (λ '(coeffs, consts) elem,
       match lin_expr_coeffs float (entry lm elem.1 elem.2) variables with
       | Raise (NonLinearExpressionError _) =>
           Raise (NonLinearMatrixError
                    "'linear_matrix' must be composed of linear expressions w.r.t. 'variables'")
       | Raise e => Raise e
       | OK (coeffs_elem, c) =>
           let consts := setitem consts elem c in
           coeffs ←
             for_each (seq 0 (length variables))
               (λ coeffs i,
                  v ← getitem coeffs_elem i;
                  OK (alter (λ ci, setitem ci elem v) i coeffs))
               coeffs;
           OK (coeffs, consts)
       end)
    (coeffs, consts) =
  OK (foldl (λ coeffs e, zip_with (λ ci v, setitem ci e v) coeffs (g e).1)
            coeffs cells,
      foldl (λ consts e, setitem consts e (g e).2) consts cells).
Proof.
  intros Hlen Hcells. revert coeffs consts Hlen.
  induction Hcells as [|e cells He _ IH]; intros coeffs consts Hlen; [done|].
  cbn [for_each foldl]. rewrite He. destruct (g e) as [cs k] eqn:Eg.
  cbn [fst snd]. apply lin_expr_coeffs_length in He.
  rewrite coeffs_loop_ok by done. cbn [mbind result_bind].
  apply IH. rewrite length_zip_with. lia.
Qed.

Lemma foldl_zip_with_setitem (g : nat * nat → list F * F) (z : F)
    (cells : list (nat * nat)) (n r c : nat) :
  Forall (λ e, length (g e).1 = n) cells →
  foldl (λ coeffs e, zip_with (λ ci v, setitem ci e v) coeffs (g e).1)
        ((λ _, replicate r (replicate c z)) <$> seq 0 n) cells =
  (λ v, foldl (λ m e, setitem m e (default z ((g e).1 !! v)))
              (replicate r (replicate c z)) cells) <$> seq 0 n.
Proof.
  induction cells as [|e cells IH] using rev_ind; intros Hcells; [done|].
  apply Forall_app in Hcells as [Hcells [He _]%Forall_cons].
  rewrite foldl_app. cbn [foldl]. rewrite IH by done.
  apply list_eq. intros v.
  rewrite lookup_zip_with, !list_lookup_fmap.
  destruct (seq 0 n !! v) as [v'|] eqn:Ev; [|done]. cbn.
  apply lookup_seq in Ev as [-> Hv].
  destruct (lookup_lt_is_Some_2 (g e).1 v) as [x Hx]; [lia|].
  rewrite Hx. cbn. rewrite foldl_app. cbn [foldl]. by rewrite Hx.
Qed.

(** When the extraction succeeds on every cell, [lm_sym_to_coeffs] returns
    the matrices of the coefficients and of the constants, in the shape
    of the input. *)
Lemma lm_sym_to_coeffs_ok (lm : Matrix expr) (variables : list symbol)
    (g : nat → nat → list F * F) :
  (∀ i j, i < rows lm → j < cols lm →
     lin_expr_coeffs float (entry lm i j) variables = OK (g i j)) →
  lm_sym_to_coeffs float lm variables =
    OK ((λ v, tabulate (rows lm) (cols lm)
                (λ i j, default (float 0%Qc) ((g i j).1 !! v)))
          <$> seq 0 (length variables),
        tabulate (rows lm) (cols lm) (λ i j, (g i j).2)).
Proof.
  intros Hg. unfold lm_sym_to_coeffs, np_zeros.
  fold (all_cells (rows lm) (cols lm)).
  rewrite (lm_sym_to_coeffs_fold lm variables (λ e, g e.1 e.2)).
  - f_equal. f_equal.
    + rewrite (foldl_zip_with_setitem _ (float 0%Qc) _ (length variables)).
      * apply list_fmap_ext. intros _ v _.
        apply (foldl_setitem_all _ _ _ (λ i j, default (float 0%Qc) ((g i j).1 !! v))).
      * apply Forall_forall. intros [i j] [Hi Hj]%elem_of_all_cells.
        cbn [fst snd]. pose proof (Hg i j Hi Hj) as Hij.
        destruct (g i j) as [cs k]. by eapply lin_expr_coeffs_length.
    + apply (foldl_setitem_all _ _ _ (λ i j, (g i j).2)).
  - by rewrite length_fmap, length_seq.
  - apply Forall_forall. intros [i j] [Hi Hj]%elem_of_all_cells.
    cbn [fst snd]. by apply Hg.
Qed.

(** The first cell on which the extraction fails ends the call. *)
Lemma lm_sym_to_coeffs_raise (lm : Matrix expr) (variables : list symbol) i j er :
  i < rows lm → j < cols lm →
  lin_expr_coeffs float (entry lm i j) variables = Raise er →
  lm_sym_to_coeffs float lm variables =
    Raise (NonLinearMatrixError
             "'linear_matrix' must be composed of linear expressions w.r.t. 'variables'").
Proof.
  intros Hi Hj Her. unfold lm_sym_to_coeffs.
  fold (all_cells (rows lm) (cols lm)).
  apply (for_each_raise _ _ (λ st, length st.1 = length variables) _ _ (i, j)).
  - cbn. by rewrite length_fmap, length_seq.
  - by apply elem_of_all_cells.
  - intros [coeffs consts] _. cbn [fst snd]. rewrite Her.
    by rewrite (lin_expr_coeffs_raise float _ _ _ Her).
  - intros [coeffs consts] [i' j'] Hlen _. cbn [fst snd] in *.
    destruct (lin_expr_coeffs float (entry lm i' j') variables)
      as [[cs k]|er'] eqn:E.
    + right. apply lin_expr_coeffs_length in E.
      rewrite coeffs_loop_ok by done. cbn [mbind result_bind].
      eexists. split; [done|]. cbn. rewrite length_zip_with. lia.
    + left. by rewrite (lin_expr_coeffs_raise float _ _ _ E).
Qed.

(** C8: if the linearity check fails on any cell of the matrix,
    [lm_sym_to_coeffs] raises [NonLinearMatrixError] for the whole call;
    it returns no result, partial or otherwise. *)
Theorem lm_sym_to_coeffs_aborts (linear_matrix : Matrix expr)
    (variables : list symbol) (i j : nat) (er : exn) :
  i < rows linear_matrix → j < cols linear_matrix →
  lin_expr_coeffs float (entry linear_matrix i j) variables = Raise er →
  lm_sym_to_coeffs float linear_matrix variables =
    Raise (NonLinearMatrixError
             "'linear_matrix' must be composed of linear expressions w.r.t. 'variables'") ∧
  ∀ r, lm_sym_to_coeffs float linear_matrix variables ≠ OK r.
Proof.
  intros Hi Hj Her.
  rewrite (lm_sym_to_coeffs_raise linear_matrix variables i j er) by done.
  split; [done|]. by intros r.
Qed.
End lm_sym_to_coeffs_props.

Lemma lm_sym_to_coeffs_aborts_witness :
  lm_sym_to_coeffs (λ q, q)
    [[Sym (Symbol "x"); Sym (Symbol "y")];
     [Sym (Symbol "y"); Mul [Sym (Symbol "x"); Sym (Symbol "y")]]]
    [Symbol "x"; Symbol "y"] =
  Raise (NonLinearMatrixError
           "'linear_matrix' must be composed of linear expressions w.r.t. 'variables'").
Proof.
  refine (proj1 (lm_sym_to_coeffs_aborts (λ q, q) _ _ 1 1
            (NonLinearExpressionError
               "'linear_expr' must be linear w.r.t. 'variables'") _ _ _)).
  - cbn. lia.
  - cbn. lia.
  - vm_compute. reflexivity.
Defined.

(** ** The round trip through [lm_coeffs_to_sym] *)

Lemma mlookup_matrix_map {A B} (f : A → B) (m : Matrix A) i j :
  mlookup (matrix_map f m) i j = f <$> mlookup m i j.
Proof.
  unfold mlookup, matrix_map. rewrite list_lookup_fmap.
  destruct (m !! i) as [row|]; cbn; [|done]. by rewrite list_lookup_fmap.
Qed.

Lemma shape_matrix_map {A B} (f : A → B) r c (m : Matrix A) :
  shape r c m → shape r c (matrix_map f m).
Proof.
  intros [Hl Hr]. unfold shape, matrix_map. split; [by rewrite length_fmap|].
  apply Forall_fmap. eapply Forall_impl; [done|]. intros row Hrow. cbn.
  by rewrite length_fmap.
Qed.

Lemma mlookup_in_range {A} r c (m : Matrix A) i j :
  shape r c m → i < r → j < c → is_Some (mlookup m i j).
Proof.
  intros [Hl Hr] Hi Hj. unfold mlookup.
  destruct (lookup_lt_is_Some_2 m i) as [row Hrow]; [lia|].
  rewrite Hrow. cbn. apply lookup_lt_is_Some_2.
  rewrite Forall_forall in Hr. rewrite (Hr row); [done|].
  by eapply list_elem_of_lookup_2.
Qed.

Lemma shape_cols {A} r c (m : Matrix A) :
  shape r c m → (r = 0 → c = 0) → rows m = r ∧ cols m = c.
Proof.
  intros [Hl Hr] H0. split; [done|].
  destruct m as [|row m]; cbn in *; [by symmetry; apply H0|].
  by apply Forall_cons in Hr as [? _].
Qed.

Lemma wf_matrix_shape {A} (m : Matrix A) :
  wf_matrix m → shape (rows m) (cols m) m.
Proof. intros H. by split. Qed.

Lemma entry_mlookup (m : Matrix expr) i j :
  entry m i j = default Zero (mlookup m i j).
Proof. done. Qed.

Lemma matrix_add_shape r c (a b : Matrix expr) :
  shape r c a → shape r c b →
  ∃ m, matrix_add a b = OK m ∧ shape r c m ∧
       ∀ i j x y, mlookup a i j = Some x → mlookup b i j = Some y →
                  mlookup m i j = Some (sympy_add x y).
Proof.
  intros Ha Hb. exists (zip_with (zip_with sympy_add) a b). split; [|split].
  - unfold matrix_add. rewrite decide_True; [done|].
    destruct Ha as [Hla Hra], Hb as [Hlb Hrb]. split; [unfold rows; lia|].
    destruct a as [|ra a], b as [|rb b]; cbn in *; try lia.
    apply Forall_cons in Hra as [-> _]. by apply Forall_cons in Hrb as [-> _].
  - destruct Ha as [Hla Hra], Hb as [Hlb Hrb]. split.
    + rewrite length_zip_with. lia.
    + apply Forall_forall. intros row Hrow.
      apply list_elem_of_lookup in Hrow as [i Hrow].
      apply lookup_zip_with_Some in Hrow as (x & y & -> & Hx & Hy).
      rewrite Forall_forall in Hra, Hrb. rewrite length_zip_with.
      rewrite (Hra x), (Hrb y); [lia|by eapply list_elem_of_lookup_2..].
  - intros i j x y Hx Hy. unfold mlookup in *.
    rewrite lookup_zip_with.
    destruct (a !! i) as [ra|]; [|done]. destruct (b !! i) as [rb|]; [|done].
    cbn in *. rewrite lookup_zip_with, Hx, Hy. done.
Qed.

(** The loop of [lm_coeffs_to_sym] from variable index [s] on: every cell
    grows by the terms [c*x] of the remaining variables. *)
Lemma lm_coeffs_to_sym_loop r c (coeffs : list (Matrix Qc))
    (xs : list symbol) (s : nat) (lm : Matrix expr) :
  Forall (shape r c) coeffs → s + length xs ≤ length coeffs → shape r c lm →
  ∃ lm',
    for_each (zip (seq s (length xs)) xs)
      (λ lm '(i, x),
         ci ← getitem coeffs i;
         matrix_add lm (symbol_mul_ImmutableMatrix x ci))
      lm = OK lm' ∧
    shape r c lm' ∧
    ∀ i j, i < r → j < c →
      mlookup lm' i j =
        Some (foldl (λ e '(a, x), sympy_add e (sympy_mul_number a (Sym x)))
                (entry lm i j)
                (zip ((λ C, default 0%Qc (mlookup C i j)) <$> drop s coeffs) xs)).
Proof.
  intros Hcoeffs. revert s lm.
  induction xs as [|x xs IH]; intros s lm Hlen Hlm.
  - exists lm. split; [done|]. split; [done|]. intros i j Hi Hj.
    rewrite zip_with_nil_r. cbn. rewrite entry_mlookup.
    by destruct (mlookup_in_range r c lm i j Hlm Hi Hj) as [e ->].
  - cbn [length] in Hlen. cbn [length seq zip_with for_each].
    destruct (lookup_lt_is_Some_2 coeffs s) as [C HC]; [lia|].
    unfold getitem. rewrite HC. cbn [mbind result_bind].
    assert (HCs : shape r c C).
    { rewrite Forall_forall in Hcoeffs. apply Hcoeffs.
      by eapply list_elem_of_lookup_2. }
    destruct (matrix_add_shape r c lm (symbol_mul_ImmutableMatrix x C))
      as (lm1 & -> & Hlm1 & Hadd); [done|by apply shape_matrix_map|].
    cbn [mbind result_bind].
    destruct (IH (S s) lm1) as (lm' & Hloop & Hlm' & Hcells); [lia|done|].
    exists lm'. split; [done|]. split; [done|]. intros i j Hi Hj.
    rewrite Hcells by done. rewrite (drop_S _ _ _ HC). cbn [fmap list_fmap zip_with foldl].
    f_equal. f_equal.
    destruct (mlookup_in_range r c lm i j Hlm Hi Hj) as [e He].
    destruct (mlookup_in_range r c C i j HCs Hi Hj) as [q Hq].
    rewrite !entry_mlookup, He, Hq. cbn [default].
    erewrite Hadd; [done|done|].
    unfold symbol_mul_ImmutableMatrix. by rewrite mlookup_matrix_map, Hq.
Qed.

Section round_trip.
Context {F : Type} (float : Qc → F).

(** The round trip, for any conversion to floats. *)
Lemma lm_round_trip_float (coeffs : list (Matrix Qc)) (consts : Matrix Qc)
    (variables : list symbol) :
  NoDup variables → length coeffs = length variables →
  wf_matrix consts →
  Forall (shape (rows consts) (cols consts)) coeffs →
  ∃ lm,
    lm_coeffs_to_sym (coeffs, consts) variables = OK lm ∧
    lm_sym_to_coeffs float lm variables =
      OK (matrix_map float <$> coeffs, matrix_map float consts).
Proof.
  intros Hnd Hlen Hwf Hcoeffs.
  set (r := rows consts) in *. set (c := cols consts) in *.
  assert (HK : shape r c consts) by by apply wf_matrix_shape.
  assert (H0 : r = 0 → c = 0).
  { unfold r, c. by destruct consts. }
  destruct (lm_coeffs_to_sym_loop r c coeffs variables 0 (ImmutableMatrix consts))
    as (lm & Hloop & Hlm & Hcells); [done|lia|by apply shape_matrix_map|].
  exists lm. split.
  { unfold lm_coeffs_to_sym. cbn [fst snd]. exact Hloop. }
  destruct (shape_cols r c lm Hlm H0) as [Hrows Hcols].
  set (g := λ i j : nat,
         (float <$> ((λ C, default 0%Qc (mlookup C i j)) <$> coeffs),
          float (default 0%Qc (mlookup consts i j)))).
  rewrite (lm_sym_to_coeffs_ok float lm variables g).
  - rewrite Hrows, Hcols. f_equal. f_equal.
    + apply list_eq. intros v. rewrite !list_lookup_fmap.
      destruct (coeffs !! v) as [C|] eqn:HC.
      * rewrite lookup_seq_lt by (rewrite <- Hlen; by eapply lookup_lt_Some).
        cbn. f_equal.
        assert (HCs : shape r c C).
        { rewrite Forall_forall in Hcoeffs. apply Hcoeffs.
          by eapply list_elem_of_lookup_2. }
        apply (matrix_eq_pointwise r c);
          [apply shape_tabulate|by apply shape_matrix_map|].
        intros i j Hi Hj. rewrite mlookup_tabulate, mlookup_matrix_map by done.
        unfold g. cbn [fst]. rewrite !list_lookup_fmap, HC. cbn.
        by destruct (mlookup_in_range r c C i j HCs Hi Hj) as [q ->].
      * rewrite lookup_seq_ge; [done|].
        apply lookup_ge_None_1 in HC. lia.
    + apply (matrix_eq_pointwise r c);
        [apply shape_tabulate|by apply shape_matrix_map|].
      intros i j Hi Hj. rewrite mlookup_tabulate, mlookup_matrix_map by done.
      unfold g. cbn [snd].
      by destruct (mlookup_in_range r c consts i j HK Hi Hj) as [q ->].
  - intros i j Hi Hj. rewrite Hrows in Hi. rewrite Hcols in Hj.
    rewrite entry_mlookup, (Hcells i j Hi Hj). cbn [default].
    rewrite drop_0.
    assert (E : entry (ImmutableMatrix consts) i j =
                Number (default 0%Qc (mlookup consts i j))).
    { rewrite entry_mlookup. unfold ImmutableMatrix.
      rewrite mlookup_matrix_map.
      by destruct (mlookup_in_range r c consts i j HK Hi Hj) as [q ->]. }
    rewrite E.
    apply (lin_expr_coeffs_affine_expr float); [done|].
    by rewrite length_fmap.
Qed.
End round_trip.

(** A matrix of rationals comes through [float] unchanged exactly when
    each entry is a double. *)
Lemma python_float_exact_matrix (m : Matrix Qc) :
  matrix_map python_float m = matrix_map Finite m ↔
  Forall (Forall is_double) m.
Proof.
  unfold matrix_map. induction m as [|r m IH]; [by split|].
  rewrite !fmap_cons, Forall_cons, <- IH, <- python_float_exact. split.
  - intros H. by injection H.
  - by intros [-> ->].
Qed.

Lemma python_float_exact_matrices (l : list (Matrix Qc)) :
  matrix_map python_float <$> l = matrix_map Finite <$> l ↔
  Forall (λ m, Forall (Forall is_double) m) l.
Proof.
  induction l as [|m l IH]; [by split|].
  rewrite !fmap_cons, Forall_cons, <- IH, <- python_float_exact_matrix. split.
  - intros H. by injection H.
  - by intros [-> ->].
Qed.

(** C4: for coefficient matrices [C1, ..., Cn] and a constant matrix [K]
    of one shape and distinct variables [x1, ..., xn],
    [lm_coeffs_to_sym] builds the matrix [K + x1*C1 + ... + xn*Cn] and
    [lm_sym_to_coeffs] on it returns the matrices [C1, ..., Cn] and [K]
    with [float] applied to every entry, whatever the conversion.  With
    Python's conversion these are [C1, ..., Cn] and [K] themselves exactly
    when, and only when, every entry is a double. *)
Theorem lm_round_trip (coeffs : list (Matrix Qc)) (consts : Matrix Qc)
    (variables : list symbol) :
  NoDup variables → length coeffs = length variables →
  wf_matrix consts →
  Forall (shape (rows consts) (cols consts)) coeffs →
  ∃ lm,
    lm_coeffs_to_sym (coeffs, consts) variables = OK lm ∧
    (∀ (F : Type) (float : Qc → F),
       lm_sym_to_coeffs float lm variables =
         OK (matrix_map float <$> coeffs, matrix_map float consts)) ∧
    (lm_sym_to_coeffs python_float lm variables =
       OK (matrix_map Finite <$> coeffs, matrix_map Finite consts) ↔
     Forall (λ m, Forall (Forall is_double) m) (consts :: coeffs)).
Proof.
  intros Hnd Hlen Hwf Hcoeffs.
  destruct (lm_round_trip_float (λ q, q) coeffs consts variables)
    as (lm & Hlm & _); [done..|].
  assert (H : ∀ (F : Type) (float : Qc → F),
            lm_sym_to_coeffs float lm variables =
              OK (matrix_map float <$> coeffs, matrix_map float consts)).
  { intros F float.
    destruct (lm_round_trip_float float coeffs consts variables)
      as (lm' & Hlm' & Hback); [done..|].
    rewrite Hlm in Hlm'. by injection Hlm' as <-. }
  exists lm. split; [done|]. split; [done|].
  rewrite H, Forall_cons, <- python_float_exact_matrix,
    <- python_float_exact_matrices.
  split.
  - intros E. by injection E.
  - by intros [-> ->].
Qed.

(** C4 as stated fails: an entry [1/3] comes back as the double nearest to
    it, and an entry [10**400] as infinity. *)
Lemma lm_round_trip_rounds_entries :
  let x := Symbol "x" in
  let C := [[1%Qc; Q2Qc (1 # 3)]; [Q2Qc (1 # 3); 0%Qc]] in
  let K := [[0%Qc; 1%Qc]; [1%Qc; Q2Qc (10 ^ 400 # 1)]] in
  ∃ lm,
    lm_coeffs_to_sym ([C], K) [x] = OK lm ∧
    lm_sym_to_coeffs python_float lm [x] =
      OK ([[[Finite 1%Qc;
             Finite (Q2Qc (6004799503160661 # 18014398509481984))];
            [Finite (Q2Qc (6004799503160661 # 18014398509481984));
             Finite 0%Qc]]],
          [[Finite 0%Qc; Finite 1%Qc]; [Finite 1%Qc; Infinity false]]) ∧
    lm_sym_to_coeffs python_float lm [x] ≠
      OK ([matrix_map Finite C], matrix_map Finite K).
Proof.
  cbn zeta. eexists. split; [reflexivity|].
  match goal with |- ?a = ?b ∧ _ => assert (E : a = b) by qc_eq end.
  split; [exact E|]. rewrite E. intros H. injection H as H1 H2.
  discriminate.
Qed.

(** ** The block scan *)

Lemma range_down_S hi c :
  c < hi → range_down hi c = hi :: range_down (hi - 1) c.
Proof.
  intros H. unfold range_down.
  replace (hi - c) with (S (hi - 1 - c)) by lia.
  rewrite seq_S, reverse_app. cbn. f_equal. lia.
Qed.

Lemma range_down_nil hi c : hi ≤ c → range_down hi c = [].
Proof. intros H. unfold range_down. by replace (hi - c) with 0 by lia. Qed.

Lemma elem_of_range_down hi c x : x ∈ range_down hi c ↔ c < x ≤ hi.
Proof. unfold range_down. rewrite elem_of_reverse, elem_of_seq. lia. Qed.

(** The inner loop stops at the first (largest) [l] with a nonzero entry
    in row or column [c]; when there is none it runs down to [c+1] and
    appends it. *)
Lemma scan_find m c hi b l :
  c < hi →
  scan m c (range_down hi c) b l =
    match List.find (nz_at m c) (range_down hi c) with
    | Some x => (b, x)
    | None => (b ++ [c + 1], c + 1)
    end.
Proof.
  intros H. remember (hi - c) as k eqn:Hk.
  revert hi l H Hk. induction k as [|k IH]; intros hi l H Hk; [lia|].
  rewrite range_down_S by done. cbn. fold (nz_at m c hi).
  destruct (nz_at m c hi); [done|].
  destruct (decide (hi = c + 1)) as [->|Hne].
  - rewrite Nat.eqb_refl.
    replace (c + 1 - 1) with c by lia. by rewrite range_down_nil.
  - apply Nat.eqb_neq in Hne as Hne'. rewrite Hne'.
    apply IH; lia.
Qed.

Lemma find_range_down_bounds m c hi x :
  List.find (nz_at m c) (range_down hi c) = Some x →
  c < x ≤ hi ∧ nz_at m c x = true.
Proof.
  intros H. apply find_some in H as [H1 H2]. split; [|done].
  by apply elem_of_range_down, list_elem_of_In.
Qed.


Lemma diag_block_loop_eq m n c b l :
  diag_block_loop m n c b l =
    if decide (c < n - 1)
    then diag_block_loop m n
           (scan m c (range_down (n - 1) c) b l).2
           (scan m c (range_down (n - 1) c) b l).1
           (scan m c (range_down (n - 1) c) b l).2
    else b.
Proof.
  simp diag_block_loop.
  destruct (decide (c < n - 1)); by simp diag_block_loop.
Qed.

Lemma next_cursor_bounds m n c :
  c < n - 1 → c < (next_cursor m n c).2 ≤ n - 1.
Proof.
  intros H. unfold next_cursor.
  destruct (List.find _ _) as [x|] eqn:E; cbn; [|lia].
  apply find_range_down_bounds in E. lia.
Qed.

Lemma diag_block_loop_step m n c b l :
  c < n - 1 →
  diag_block_loop m n c b l =
    diag_block_loop m n (next_cursor m n c).2 (b ++ (next_cursor m n c).1)
      (next_cursor m n c).2.
Proof.
  intros H. rewrite diag_block_loop_eq at 1.
  rewrite decide_True by done. rewrite scan_find by done.
  unfold next_cursor. destruct (List.find _ _); cbn; [|done].
  by rewrite app_nil_r.
Qed.

Lemma diag_block_loop_done m n c b l :
  ¬ c < n - 1 → diag_block_loop m n c b l = b.
Proof. intros H. rewrite diag_block_loop_eq. by rewrite decide_False. Qed.

Lemma diag_block_loop_idxs_from m n c b l :
  diag_block_loop m n c b l = b ++ idxs_from m n c.
Proof.
  unfold idxs_from. remember (n - c) as k eqn:Hk.
  revert c b l Hk. induction (lt_wf k) as [k _ IH]. intros c b l ->.
  destruct (decide (c < n - 1)) as [H|H].
  - rewrite (diag_block_loop_step m n c b) by done.
    rewrite (diag_block_loop_step m n c []) by done.
    pose proof (next_cursor_bounds m n c H) as Hb.
    rewrite (IH (n - (next_cursor m n c).2)) by (done || lia).
    rewrite (IH (n - (next_cursor m n c).2) ltac:(lia) _ ([] ++ _)) by done.
    by rewrite app_assoc.
  - rewrite !diag_block_loop_done by done. by rewrite app_nil_r.
Qed.

Lemma idxs_from_step m n c :
  c < n - 1 →
  idxs_from m n c = (next_cursor m n c).1 ++ idxs_from m n (next_cursor m n c).2.
Proof.
  intros H. unfold idxs_from at 1.
  rewrite diag_block_loop_step by done. by rewrite diag_block_loop_idxs_from.
Qed.

Lemma idxs_from_done m n c : ¬ c < n - 1 → idxs_from m n c = [].
Proof. apply diag_block_loop_done. Qed.

Lemma get_diag_block_idxs_square m :
  rows m = cols m →
  get_diag_block_idxs m = OK (idxs_from m (rows m) 0 ++ [rows m]).
Proof. intros H. unfold get_diag_block_idxs. by rewrite decide_False by naive_solver. Qed.

(** All boundaries found from [c] on lie in [(c, n-1]], in increasing
    order. *)
Lemma idxs_from_sorted m n c :
  c ≤ n - 1 →
  Forall (λ x, c < x ≤ n - 1) (idxs_from m n c) ∧
  StronglySorted lt (idxs_from m n c).
Proof.
  remember (n - c) as k eqn:Hk.
  revert c Hk. induction (lt_wf k) as [k _ IH]. intros c -> Hc.
  destruct (decide (c < n - 1)) as [H|H].
  - rewrite idxs_from_step by done.
    pose proof (next_cursor_bounds m n c H) as Hb.
    destruct (IH (n - (next_cursor m n c).2) ltac:(lia) _ eq_refl ltac:(lia))
      as [IH1 IH2].
    unfold next_cursor in *.
    destruct (List.find _ _) as [x|]; cbn in *.
    + split; [|done]. eapply Forall_impl; [exact IH1|]. cbn. lia.
    + split.
      * constructor; [lia|]. eapply Forall_impl; [exact IH1|]. cbn. lia.
      * constructor; [done|]. eapply Forall_impl; [exact IH1|]. cbn. lia.
  - rewrite idxs_from_done by done. split; constructor.
Qed.

Lemma StronglySorted_lt_snoc (l : list nat) (n : nat) :
  StronglySorted lt l → Forall (λ x, x < n) l → StronglySorted lt (l ++ [n]).
Proof.
  induction 1 as [|x l Hl IH Hx]; intros Hn; cbn.
  - repeat constructor.
  - apply Forall_cons in Hn as [Hxn Hn]. constructor; [by apply IH|].
    apply Forall_app. split; [done|]. by constructor.
Qed.


(** ** Slices *)

Lemma slice_full {A} (l : list A) n : length l ≤ n → slice 0 n l = l.
Proof. intros H. unfold slice. rewrite drop_0. apply take_ge. lia. Qed.

Lemma submatrix_full {A} (m : Matrix A) :
  square m → submatrix 0 (rows m) m = m.
Proof.
  intros [Hwf Hsq]. unfold submatrix. rewrite slice_full by done.
  unfold wf_matrix in Hwf. rewrite <- Hsq in Hwf.
  remember (rows m) as n eqn:Hn. clear Hn Hsq.
  induction Hwf as [|r m' Hr Hm IH]; [done|].
  cbn. rewrite slice_full by lia. by f_equal.
Qed.

Lemma split_by_diag_blocks_single m :
  square m → get_diag_block_idxs m = OK [rows m] →
  split_by_diag_blocks m = OK [m].
Proof.
  intros Hsq H. unfold split_by_diag_blocks. rewrite H. cbn.
  by rewrite submatrix_full.
Qed.

Lemma next_cursor_top m n c :
  c < n - 1 → nz_at m c (n - 1) = true → next_cursor m n c = ([], n - 1).
Proof.
  intros H Hnz. unfold next_cursor. rewrite range_down_S by done.
  cbn. by rewrite Hnz.
Qed.


(** C7: a 1x1 matrix is returned as a single block of size 1 and the
    [while] loop makes no pass, whatever the entry; a square matrix with
    no zero entry is returned as a single block, the whole matrix. *)
Theorem split_by_diag_blocks_edge_cases :
  (∀ e : expr,
     (∀ b l, diag_block_loop [[e]] 1 0 b l = b) ∧
     get_diag_block_idxs [[e]] = OK [1] ∧
     split_by_diag_blocks [[e]] = OK [[[e]]]) ∧
  (∀ m : Matrix expr,
     square m →
     (∀ i j, i < rows m → j < rows m → nonzero (entry m i j) = true) →
     get_diag_block_idxs m = OK [rows m] ∧
     split_by_diag_blocks m = OK [m]).
Proof.
  split.
  - intros e. split; [|split].
    + intros b l. apply diag_block_loop_done. cbn. lia.
    + rewrite get_diag_block_idxs_square by done.
      rewrite idxs_from_done; [done | cbn; lia].
    + apply split_by_diag_blocks_single; [by repeat constructor|].
      rewrite get_diag_block_idxs_square by done.
      rewrite idxs_from_done; [done | cbn; lia].
  - intros m Hsq Hnz.
    assert (Hidx : get_diag_block_idxs m = OK [rows m]).
    { rewrite get_diag_block_idxs_square by apply Hsq.
      destruct (decide (0 < rows m - 1)) as [Hn|Hn].
      - rewrite idxs_from_step by done.
        rewrite next_cursor_top; [|done|].
        * cbn. rewrite idxs_from_done; [done | lia].
        * unfold nz_at. rewrite Hnz by lia. done.
      - by rewrite idxs_from_done. }
    split; [done|]. by apply split_by_diag_blocks_single.
Qed.

(** ** Block-diagonal matrices *)

Lemma square_rows_length (m : Matrix expr) r :
  square m → r ∈ m → length r = rows m.
Proof.
  intros [Hwf Hsq] Hr. rewrite Hsq.
  unfold wf_matrix in Hwf. rewrite Forall_forall in Hwf. by apply Hwf.
Qed.

Lemma rows_diag2 B R : rows (diag2 B R) = rows B + rows R.
Proof. unfold diag2, rows. by rewrite length_app, !length_fmap. Qed.

Lemma cols_diag2 B R :
  square B → square R → cols (diag2 B R) = rows B + rows R.
Proof.
  intros HB HR. unfold diag2.
  destruct B as [|r B]; cbn.
  - destruct R as [|r R]; cbn; [done|].
    rewrite (square_rows_length (r :: R) r HR) by left. done.
  - rewrite length_app, length_replicate.
    rewrite (square_rows_length (r :: B) r HB) by left.
    destruct HR as [_ <-]. done.
Qed.

Lemma square_diag2 B R : square B → square R → square (diag2 B R).
Proof.
  intros HB HR. split; [|by rewrite rows_diag2, cols_diag2].
  unfold wf_matrix. rewrite cols_diag2 by done.
  unfold diag2. apply Forall_app. split; apply Forall_fmap, Forall_forall;
    intros r Hr; cbn; rewrite length_app, length_replicate.
  - rewrite (square_rows_length B r) by done. by destruct HR as [_ <-].
  - rewrite (square_rows_length R r) by done. by destruct HB as [_ <-].
Qed.

Lemma entry_diag2 B R i j :
  square B → square R →
  entry (diag2 B R) i j =
    if decide (i < rows B)
    then if decide (j < rows B) then entry B i j else Zero
    else if decide (j < rows B) then Zero else entry R (i - rows B) (j - rows B).
Proof.
  intros HB HR. unfold entry, diag2.
  destruct (decide (i < rows B)) as [Hi|Hi].
  - rewrite lookup_app_l by (by rewrite length_fmap).
    rewrite list_lookup_fmap.
    destruct (B !! i) as [r|] eqn:Er; cbn; [|by destruct (decide _)].
    assert (length r = rows B) as Hr.
    { apply square_rows_length; [done|]. by eapply list_elem_of_lookup_2. }
    destruct (decide (j < rows B)) as [Hj|Hj].
    + by rewrite lookup_app_l by lia.
    + rewrite lookup_app_r by lia.
      destruct (replicate _ _ !! _) eqn:E; [|done].
      by apply lookup_replicate in E as [-> _].
  - rewrite lookup_app_r by (rewrite length_fmap; unfold rows in Hi; lia).
    rewrite length_fmap, list_lookup_fmap. fold (rows B).
    destruct (R !! (i - rows B)) as [r|] eqn:Er; cbn; [|by destruct (decide _)].
    assert (cols B = rows B) as -> by (by destruct HB as [_ <-]).
    destruct (decide (j < rows B)) as [Hj|Hj].
    + rewrite lookup_app_l by (rewrite length_replicate; lia).
      rewrite lookup_replicate_2 by lia. done.
    + rewrite lookup_app_r by (rewrite length_replicate; lia).
      by rewrite length_replicate.
Qed.

Lemma nonzero_Zero : nonzero Zero = false.
Proof. reflexivity. Qed.

Lemma nz_at_diag2_left B R c x :
  square B → square R → c < rows B → x < rows B →
  nz_at (diag2 B R) c x = nz_at B c x.
Proof.
  intros HB HR Hc Hx. unfold nz_at.
  rewrite !entry_diag2 by done.
  repeat case_decide; try lia; done.
Qed.

Lemma nz_at_diag2_off B R c x :
  square B → square R → c < rows B → rows B ≤ x →
  nz_at (diag2 B R) c x = false.
Proof.
  intros HB HR Hc Hx. unfold nz_at.
  rewrite !entry_diag2 by done.
  repeat case_decide; try lia; done.
Qed.

Lemma nz_at_diag2_right B R c x :
  square B → square R →
  nz_at (diag2 B R) (rows B + c) (rows B + x) = nz_at R c x.
Proof.
  intros HB HR. unfold nz_at.
  rewrite !entry_diag2 by done.
  repeat case_decide; try lia.
  by replace (rows B + c - rows B) with c by lia;
     replace (rows B + x - rows B) with x by lia.
Qed.

Lemma find_ext_in {A} (P Q : A → bool) (l : list A) :
  (∀ x, x ∈ l → P x = Q x) → List.find P l = List.find Q l.
Proof.
  induction l as [|a l IH]; intros H; [done|]. cbn.
  rewrite <- (H a) by left. destruct (P a); [done|].
  apply IH. intros x Hx. apply H. by right.
Qed.

Lemma find_range_down_skip (P : nat → bool) hi lo c :
  lo ≤ hi → (∀ x, lo < x ≤ hi → P x = false) →
  List.find P (range_down hi c) = List.find P (range_down lo c).
Proof.
  intros Hle HP. remember (hi - lo) as k eqn:Hk.
  revert hi Hle HP Hk. induction k as [|k IH]; intros hi Hle HP Hk.
  - by replace hi with lo by lia.
  - destruct (decide (c < hi)) as [Hc|Hc].
    + rewrite range_down_S by done. cbn. rewrite HP by lia.
      apply IH; [lia| |lia]. intros x Hx. apply HP. lia.
    + by rewrite !range_down_nil by lia.
Qed.

Lemma find_none_all_false (P : nat → bool) (l : list nat) :
  (∀ x, x ∈ l → P x = false) → List.find P l = None.
Proof.
  induction l as [|a l IH]; intros H; [done|]. cbn.
  rewrite H by left. apply IH. intros x Hx. apply H. by right.
Qed.

Lemma range_down_shift s hi c :
  range_down (s + hi) (s + c) = (λ x, s + x) <$> range_down hi c.
Proof.
  unfold range_down. rewrite fmap_reverse. f_equal.
  replace (s + hi - (s + c)) with (hi - c) by lia.
  generalize (hi - c) as k. intros k.
  replace (S (s + c)) with (s + S c) by lia.
  by rewrite (fmap_add_seq s).
Qed.

Lemma find_fmap {A B} (f : A → B) (P : B → bool) (l : list A) :
  List.find P (f <$> l) = f <$> List.find (P ∘ f) l.
Proof.
  induction l as [|a l IH]; [done|]. cbn. by destruct (P (f a)).
Qed.

Section diag2.
Context (B R : Matrix expr) (HB : square B) (HR : square R).
Let s := rows B.
Let r := rows R.
Let M := diag2 B R.
Let n := s + r.

Lemma next_cursor_diag2_left c :
  c < s - 1 → next_cursor M n c = next_cursor B s c.
Proof using HB HR.
  intros Hc. unfold next_cursor.
  rewrite (find_range_down_skip _ (n - 1) (s - 1)); [|lia|].
  - erewrite find_ext_in; [done|].
    intros x Hx%elem_of_range_down.
    apply nz_at_diag2_left; done || lia.
  - intros x Hx. apply nz_at_diag2_off; done || lia.
Qed.

Lemma next_cursor_diag2_boundary :
  0 < s → 0 < r → next_cursor M n (s - 1) = ([s], s).
Proof using HB HR.
  intros Hs Hr. unfold next_cursor.
  rewrite find_none_all_false.
  - by replace (s - 1 + 1) with s by lia.
  - intros x Hx%elem_of_range_down.
    apply nz_at_diag2_off; done || lia.
Qed.

Lemma next_cursor_diag2_right c :
  c < r - 1 →
  next_cursor M n (s + c) =
    ((λ x, s + x) <$> (next_cursor R r c).1, s + (next_cursor R r c).2).
Proof using HB HR.
  intros Hc. unfold next_cursor.
  replace (n - 1) with (s + (r - 1)) by lia.
  rewrite range_down_shift, find_fmap.
  erewrite (find_ext_in (_ ∘ _) (nz_at R c)).
  - destruct (List.find _ _); cbn; [done|].
    by replace (s + c + 1) with (s + (c + 1)) by lia.
  - intros x _. cbn. by apply nz_at_diag2_right.
Qed.

Lemma idxs_from_diag2_right c :
  idxs_from M n (s + c) = (λ x, s + x) <$> idxs_from R r c.
Proof using HB HR.
  remember (r - c) as k eqn:Hk.
  revert c Hk. induction (lt_wf k) as [k _ IH]. intros c ->.
  destruct (decide (c < r - 1)) as [H|H].
  - rewrite (idxs_from_step M) by lia.
    rewrite (idxs_from_step R) by done.
    rewrite next_cursor_diag2_right by done. cbn.
    pose proof (next_cursor_bounds R r c H).
    rewrite (IH (r - (next_cursor R r c).2)) by (done || lia).
    by rewrite fmap_app.
  - rewrite (idxs_from_done M) by lia.
    by rewrite (idxs_from_done R).
Qed.

Lemma idxs_from_diag2_left c :
  0 < r → c ≤ s - 1 → 0 < s →
  idxs_from M n c = idxs_from B s c ++ s :: idxs_from M n s.
Proof using HB HR.
  intros Hr Hc Hs. remember (s - c) as k eqn:Hk.
  revert c Hc Hk. induction (lt_wf k) as [k _ IH]. intros c Hc ->.
  destruct (decide (c < s - 1)) as [H|H].
  - rewrite (idxs_from_step M) by lia.
    rewrite (idxs_from_step B) by done.
    rewrite next_cursor_diag2_left by done.
    pose proof (next_cursor_bounds B s c H).
    rewrite (IH (s - (next_cursor B s c).2)) by (done || lia).
    by rewrite app_assoc.
  - replace c with (s - 1) by lia.
    rewrite (idxs_from_step M) by lia.
    rewrite next_cursor_diag2_boundary by done.
    by rewrite (idxs_from_done B) by lia.
Qed.

(** The boundaries of [diag(B, R)] are those of [B] followed by those of
    [R] moved by the size of [B]. *)
Lemma idxs_diag2 :
  0 < s → 0 < r →
  idxs_from M n 0 ++ [n] =
    (idxs_from B s 0 ++ [s]) ++ ((λ x, s + x) <$> (idxs_from R r 0 ++ [r])).
Proof using HB HR.
  intros Hs Hr. rewrite idxs_from_diag2_left by (done || lia).
  replace s with (s + 0) at 3 by lia.
  rewrite idxs_from_diag2_right, fmap_app. cbn.
  by rewrite <- !app_assoc.
Qed.
End diag2.

(** ** Blocks cut at the boundaries *)

Lemma split_by_diag_blocks_pairs m :
  rows m = cols m →
  split_by_diag_blocks m =
    OK ((λ '(a, b), submatrix a b m)
          <$> block_pairs (idxs_from m (rows m) 0 ++ [rows m])).
Proof.
  intros H. unfold split_by_diag_blocks.
  by rewrite get_diag_block_idxs_square.
Qed.

Lemma block_pairs_snoc (I1 : list nat) (s : nat) :
  block_pairs (I1 ++ [s]) = zip (0 :: I1) (I1 ++ [s]).
Proof.
  unfold block_pairs. rewrite length_app. cbn.
  replace (length I1 + 1 - 1) with (length I1) by lia.
  by rewrite take_app_length.
Qed.

Lemma zip_fmap_both {A B} (f : A → B) (l1 l2 : list A) :
  zip (f <$> l1) (f <$> l2) = prod_map f f <$> zip l1 l2.
Proof.
  revert l2. induction l1 as [|a l1 IH]; intros [|b l2]; cbn; try done.
  by rewrite IH.
Qed.

Lemma block_pairs_app (I1 I2 : list nat) (s r : nat) :
  block_pairs ((I1 ++ [s]) ++ ((λ x, s + x) <$> (I2 ++ [r]))) =
    block_pairs (I1 ++ [s]) ++
    (prod_map (λ x, s + x) (λ x, s + x) <$> block_pairs (I2 ++ [r])).
Proof.
  assert (E1 : (I1 ++ [s]) ++ ((λ x, s + x) <$> (I2 ++ [r])) =
               (I1 ++ s :: ((λ x, s + x) <$> I2)) ++ [s + r]).
  { rewrite fmap_app. cbn. by rewrite <- !app_assoc. }
  rewrite E1, !block_pairs_snoc, <- E1.
  assert (E2 : 0 :: I1 ++ s :: ((λ x, s + x) <$> I2) =
               (0 :: I1) ++ ((λ x, s + x) <$> (0 :: I2))).
  { cbn. by rewrite Nat.add_0_r. }
  rewrite E2.
  rewrite zip_with_app by (cbn; rewrite length_app; cbn; lia).
  f_equal. apply zip_fmap_both.
Qed.

Lemma slice_app_l {A} (l1 l2 : list A) a b :
  b ≤ length l1 → slice a b (l1 ++ l2) = slice a b l1.
Proof.
  intros H. unfold slice.
  destruct (decide (a ≤ length l1)).
  - rewrite drop_app_le by done. rewrite take_app_le; [done|].
    rewrite length_drop. lia.
  - replace (b - a) with 0 by lia. done.
Qed.

Lemma slice_app_r {A} (l1 l2 : list A) a b :
  slice (length l1 + a) (length l1 + b) (l1 ++ l2) = slice a b l2.
Proof.
  unfold slice. rewrite drop_app_add.
  by replace (length l1 + b - (length l1 + a)) with (b - a) by lia.
Qed.

Lemma submatrix_diag2_left B R a b :
  square B → b ≤ rows B → submatrix a b (diag2 B R) = submatrix a b B.
Proof.
  intros HB Hb. unfold submatrix, diag2.
  rewrite slice_app_l by (by rewrite length_fmap).
  assert (Hrows : Forall (λ row, length row = rows B) (slice a b B)).
  { apply Forall_forall. intros row Hrow. apply square_rows_length; [done|].
    unfold slice in Hrow. by eapply subseteq_drop, subseteq_take. }
  assert (E : slice a b ((λ row, row ++ replicate (cols R) Zero) <$> B) =
              (λ row, row ++ replicate (cols R) Zero) <$> slice a b B).
  { unfold slice. by rewrite fmap_take, fmap_drop. }
  rewrite E. clear E.
  induction Hrows as [|row l Hrow Hl IH]; [done|].
  cbn. rewrite slice_app_l by lia. by f_equal.
Qed.

Lemma submatrix_diag2_right B R a b :
  square B →
  submatrix (rows B + a) (rows B + b) (diag2 B R) = submatrix a b R.
Proof.
  intros HB. unfold submatrix, diag2.
  assert (E : rows B = length ((λ row, row ++ replicate (cols R) Zero) <$> B)).
  { by rewrite length_fmap. }
  rewrite E at 3 4. rewrite slice_app_r.
  assert (E2 : slice a b ((λ row, replicate (cols B) Zero ++ row) <$> R) =
               (λ row, replicate (cols B) Zero ++ row) <$> slice a b R).
  { unfold slice. by rewrite fmap_take, fmap_drop. }
  rewrite E2. clear E E2.
  assert (Hc : cols B = rows B) by (by destruct HB as [_ <-]).
  rewrite Hc.
  induction (slice a b R) as [|row l IH]; [done|].
  cbn. f_equal; [|done].
  assert (E3 : rows B = length (replicate (rows B) Zero)).
  { by rewrite length_replicate. }
  rewrite E3 at 1 2. by rewrite slice_app_r.
Qed.

Lemma idxs_bounds m :
  Forall (λ x, x ≤ rows m) (idxs_from m (rows m) 0 ++ [rows m]).
Proof.
  destruct (idxs_from_sorted m (rows m) 0) as [H1 _]; [lia|].
  apply Forall_app. split; [|by constructor].
  eapply Forall_impl; [exact H1|]. cbn. lia.
Qed.

Lemma block_pairs_snd_bound (idxs : list nat) n :
  Forall (λ x, x ≤ n) idxs → Forall (λ p, p.2 ≤ n) (block_pairs idxs).
Proof.
  intros H. unfold block_pairs. apply Forall_forall. intros [a b] Hab.
  rewrite Forall_forall in H. apply H.
  apply elem_of_zip_r in Hab. done.
Qed.

(** Splitting [diag(B, R)] gives the blocks of [B] followed by those of
    [R]. *)
Lemma split_by_diag_blocks_diag2 B R LB LR :
  square B → square R → 0 < rows B → 0 < rows R →
  split_by_diag_blocks B = OK LB → split_by_diag_blocks R = OK LR →
  split_by_diag_blocks (diag2 B R) = OK (LB ++ LR).
Proof.
  intros HB HR Hs Hr HLB HLR.
  destruct (square_diag2 B R HB HR) as [_ HM].
  rewrite split_by_diag_blocks_pairs in HLB by apply HB.
  rewrite split_by_diag_blocks_pairs in HLR by apply HR.
  rewrite split_by_diag_blocks_pairs by done.
  injection HLB as <-. injection HLR as <-. f_equal.
  rewrite rows_diag2, idxs_diag2 by done.
  rewrite block_pairs_app, fmap_app. f_equal.
  - apply Forall_fmap_ext_1.
    eapply Forall_impl; [apply block_pairs_snd_bound, idxs_bounds|].
    intros [a b] Hb. cbn in *. by apply submatrix_diag2_left.
  - rewrite <- list_fmap_compose. apply list_fmap_ext.
    intros i [a b] _. cbn. by apply submatrix_diag2_right.
Qed.

Lemma diag2_nil_r B : diag2 B [] = B.
Proof.
  unfold diag2. cbn. rewrite app_nil_r.
  induction B as [|r B IH]; [done|]. cbn. by rewrite app_nil_r, IH.
Qed.

Lemma square_nil : square ([] : Matrix expr).
Proof. split; [constructor | done]. Qed.

Lemma square_block_diag Bs :
  Forall (λ B, square B ∧ 0 < rows B) Bs → square (block_diag Bs).
Proof.
  induction 1 as [|B Bs [HB _] _ IH]; cbn [block_diag]; [apply square_nil|].
  by apply square_diag2.
Qed.

Lemma rows_block_diag_pos Bs :
  Bs ≠ [] → Forall (λ B, square B ∧ 0 < rows B) Bs → 0 < rows (block_diag Bs).
Proof.
  intros Hne H. destruct H as [|B Bs [_ HB] _]; [done|].
  cbn [block_diag]. rewrite rows_diag2. lia.
Qed.

Lemma split_by_diag_blocks_total m :
  rows m = cols m → ∃ L, split_by_diag_blocks m = OK L.
Proof. intros H. eexists. by apply split_by_diag_blocks_pairs. Qed.

Lemma split_by_diag_blocks_block_diag_concat Bs :
  Bs ≠ [] → Forall (λ B, square B ∧ 0 < rows B) Bs →
  ∃ Ls, Forall2 (λ B L, split_by_diag_blocks B = OK L) Bs Ls ∧
        split_by_diag_blocks (block_diag Bs) = OK (concat Ls).
Proof.
  intros Hne H. induction H as [|B Bs [HB Hs] HBs IH]; [done|].
  destruct (split_by_diag_blocks_total B) as [LB HLB]; [apply HB|].
  destruct Bs as [|B' Bs'].
  - exists [LB]. split; [by repeat constructor|].
    cbn [block_diag concat]. by rewrite diag2_nil_r, app_nil_r.
  - destruct IH as (Ls & HLs & Hsplit); [done|].
    exists (LB :: Ls). split; [by constructor|].
    change (block_diag (B :: B' :: Bs'))
      with (diag2 B (block_diag (B' :: Bs'))).
    cbn [concat]. apply split_by_diag_blocks_diag2; try done.
    + by apply square_block_diag.
    + by apply rows_block_diag_pos.
Qed.

Lemma square_submatrix (m : Matrix expr) a b :
  square m → b ≤ rows m → square (submatrix a b m).
Proof.
  intros Hm Hb.
  assert (Hrows : rows (submatrix a b m) = b - a).
  { unfold submatrix, slice, rows. rewrite length_fmap, length_take, length_drop.
    unfold rows in Hb. lia. }
  assert (Hlen : Forall (λ r, length r = b - a) (submatrix a b m)).
  { unfold submatrix. apply Forall_fmap, Forall_forall. intros r Hr. cbn.
    assert (length r = rows m) as Hl.
    { apply square_rows_length; [done|].
      unfold slice in Hr. by eapply subseteq_drop, subseteq_take. }
    unfold slice. rewrite length_take, length_drop. lia. }
  assert (Hcols : cols (submatrix a b m) = b - a).
  { destruct (submatrix a b m) as [|r l]; cbn in *; [done|].
    by apply Forall_cons in Hlen as [-> _]. }
  split; [|lia]. unfold wf_matrix. by rewrite Hcols.
Qed.

Lemma entry_submatrix (m : Matrix expr) a b i j :
  entry (submatrix a b m) i j =
    if decide (i < b - a ∧ j < b - a) then entry m (a + i) (a + j) else Zero.
Proof.
  unfold entry, submatrix, slice. rewrite list_lookup_fmap.
  destruct (decide (i < b - a)) as [Hi|Hi].
  - rewrite lookup_take_lt, lookup_drop by done.
    destruct (m !! (a + i)) as [r|]; cbn; [|by case_decide].
    destruct (decide (j < b - a)) as [Hj|Hj].
    + rewrite lookup_take_lt, lookup_drop by done.
      by rewrite decide_True by done.
    + rewrite lookup_take_ge by lia. by rewrite decide_False by lia.
  - rewrite lookup_take_ge by lia. cbn. by rewrite decide_False by lia.
Qed.

Lemma symmetric_submatrix (m : Matrix expr) a b :
  symmetric m → symmetric (submatrix a b m).
Proof.
  intros Hm i j. rewrite !entry_submatrix.
  repeat case_decide; try done; lia.
Qed.

(** Every block returned is square, and symmetric if the matrix is. *)
Lemma split_by_diag_blocks_square_symmetric (m : Matrix expr) L :
  square m → split_by_diag_blocks m = OK L →
  Forall (λ blk, square blk ∧ (symmetric m → symmetric blk)) L.
Proof.
  intros Hm HL. rewrite split_by_diag_blocks_pairs in HL by apply Hm.
  injection HL as <-. apply Forall_fmap.
  eapply Forall_impl; [apply block_pairs_snd_bound, idxs_bounds|].
  intros [a b] Hb. cbn in *. split.
  - by apply square_submatrix.
  - apply symmetric_submatrix.
Qed.

(** Splitting the block-diagonal matrix of non-empty square blocks
    [B1, ..., Bk] returns, in order, the blocks into which the function
    splits [B1], then those of [B2], and so on.  Each returned block is
    square, and symmetric if the input is. *)
Lemma split_by_diag_blocks_block_diag (Bs : list (Matrix expr)) :
  Bs ≠ [] → Forall (λ B, square B ∧ 0 < rows B) Bs →
  ∃ Ls,
    Forall2 (λ B L, split_by_diag_blocks B = OK L) Bs Ls ∧
    split_by_diag_blocks (block_diag Bs) = OK (concat Ls) ∧
    (Forall (λ B, get_diag_block_idxs B = OK [rows B]) Bs →
     split_by_diag_blocks (block_diag Bs) = OK Bs) ∧
    Forall (λ blk, square blk ∧ (symmetric (block_diag Bs) → symmetric blk))
           (concat Ls).
Proof.
  intros Hne HBs.
  destruct (split_by_diag_blocks_block_diag_concat Bs Hne HBs)
    as (Ls & HLs & Hsplit).
  exists Ls. repeat split; try done.
  - intros Hwhole. rewrite Hsplit. f_equal.
    clear Hsplit Hne. induction HLs as [|B L Bs Ls HL _ IH]; [done|].
    apply Forall_cons in HBs as [[HB _] HBs].
    apply Forall_cons in Hwhole as [HwB Hwhole].
    rewrite (split_by_diag_blocks_single B HB HwB) in HL.
    injection HL as <-. cbn. f_equal. by apply IH.
  - eapply split_by_diag_blocks_square_symmetric; [|done].
    by apply square_block_diag.
Qed.

(** C5: the code does not do this.  The symmetric matrix [m] below is a
    single block: the only list of non-empty square blocks with [m] as
    their concatenation along the diagonal is [[m]].  The scan jumps from
    the cursor to the farthest nonzero of the cursor's own row and column
    and never looks at the columns it jumps over, so it returns the
    boundaries [[3; 4]] and the blocks [m[0:3, 0:3]] and [m[3:4, 3:4]]
    instead of [[m]]; the nonzero entries [m[1, 3]] and [m[3, 1]] are in
    neither block. *)
Theorem split_by_diag_blocks_drops_entry :
  let m := [[One; Zero; One; Zero];
            [Zero; One; Zero; One];
            [One; Zero; One; Zero];
            [Zero; One; Zero; One]] in
  square m ∧ symmetric m ∧
  (∀ Bs, Forall (λ B, square B ∧ 0 < rows B) Bs →
         block_diag Bs = m → Bs = [m]) ∧
  get_diag_block_idxs m = OK [3; 4] ∧
  split_by_diag_blocks m =
    OK [[[One; Zero; One]; [Zero; One; Zero]; [One; Zero; One]]; [[One]]] ∧
  nonzero (entry m 1 3) = true ∧ nonzero (entry m 3 1) = true.
Proof.
  cbn zeta.
  set (m := [[One; Zero; One; Zero]; [Zero; One; Zero; One];
             [One; Zero; One; Zero]; [Zero; One; Zero; One]]).
  assert (Hsq : square m) by (split; [by repeat constructor | done]).
  split; [done|]. split; [|split; [|by repeat split]].
  - intros i j.
    do 4 (destruct i as [|i]; [do 4 (destruct j as [|j]; [reflexivity|]);
                               reflexivity|]).
    do 4 (destruct j as [|j]; [reflexivity|]). reflexivity.
  - intros Bs HBs Hm. destruct HBs as [|B Bs [HB HrB] HBs]; [done|].
    destruct HBs as [|B' Bs' [HB' HrB'] HBs].
    { cbn [block_diag] in Hm. rewrite diag2_nil_r in Hm. by subst. }
    exfalso.
    assert (HR : square (block_diag (B' :: Bs'))).
    { apply square_block_diag. by constructor. }
    assert (HrR : 0 < rows (block_diag (B' :: Bs'))).
    { apply rows_block_diag_pos; [done|]. by constructor. }
    change (block_diag (B :: B' :: Bs'))
      with (diag2 B (block_diag (B' :: Bs'))) in Hm.
    assert (Hrows : rows B + rows (block_diag (B' :: Bs')) = 4).
    { by rewrite <- rows_diag2, Hm. }
    assert (Hcut : ∀ i j, i < rows B → rows B ≤ j → entry m i j = Zero).
    { intros i j Hi Hj. rewrite <- Hm, entry_diag2 by done.
      rewrite decide_True by done. by rewrite decide_False by lia. }
    assert (Hb : rows B = 1 ∨ rows B = 2 ∨ rows B = 3) by lia.
    destruct Hb as [Hb|[Hb|Hb]].
    + specialize (Hcut 0 2). rewrite Hb in Hcut.
      by specialize (Hcut ltac:(lia) ltac:(lia)).
    + specialize (Hcut 0 2). rewrite Hb in Hcut.
      by specialize (Hcut ltac:(lia) ltac:(lia)).
    + specialize (Hcut 1 3). rewrite Hb in Hcut.
      by specialize (Hcut ltac:(lia) ltac:(lia)).
Qed.

(** ** [prepare_lmi_for_sdp] *)

(** A loop that appends what each pass produces collects the results in
    order. *)
Lemma for_each_collect {A B C} (f : A → result B) (g : B → list C)
    (xs : list A) (ys : list B) (acc : list C) :
  Forall2 (λ x y, f x = OK y) xs ys →
  for_each xs (λ acc x, y ← f x; OK (acc ++ g y)) acc =
    OK (acc ++ (ys ≫= g)).
Proof.
  intros H. revert acc. induction H as [|x y xs ys Hx _ IH]; intros acc.
  - cbn. by rewrite app_nil_r.
  - cbn [for_each]. rewrite Hx. cbn [mbind result_bind].
    rewrite IH, bind_cons. by rewrite app_assoc.
Qed.

Section claims_prepare_lmi.
Context {F : Type} (float : Qc → F).

(** What [lm_sym_to_coeffs] returns has the shape of its argument. *)
Lemma lm_sym_to_coeffs_shape (lm : Matrix expr) (variables : list symbol) cs k :
  lm_sym_to_coeffs float lm variables = OK (cs, k) →
  length cs = length variables ∧
  Forall (shape (rows lm) (cols lm)) cs ∧
  shape (rows lm) (cols lm) k.
Proof.
  intros H.
  set (g := λ i j, match lin_expr_coeffs float (entry lm i j) variables with
                   | OK r => r
                   | Raise _ => ([], float 0%Qc)
                   end).
  assert (Hg : ∀ i j, i < rows lm → j < cols lm →
            lin_expr_coeffs float (entry lm i j) variables = OK (g i j)).
  { intros i j Hi Hj. unfold g.
    destruct (lin_expr_coeffs float (entry lm i j) variables) as [r|er] eqn:E;
      [done|].
    by rewrite (lm_sym_to_coeffs_raise float lm variables i j er) in H. }
  rewrite (lm_sym_to_coeffs_ok float lm variables g Hg) in H.
  injection H as <- <-. split; [|split].
  - by rewrite length_fmap, length_seq.
  - apply Forall_fmap, Forall_forall. intros v _. apply shape_tabulate.
  - apply shape_tabulate.
Qed.

(** C2: [prepare_lmi_for_sdp] takes a single LMI, a single matrix (the LMI
    [matrix >= 0]) or a list of both.  When every input yields its blocks
    and the extraction succeeds on every block, the result is the list of
    the extractions of all blocks, inputs in order and the blocks of each
    input in order; its length is the sum of the block counts, and the
    matrices of each pair have the shape of its block. *)
Theorem prepare_lmi_for_sdp_blocks (variables : list symbol)
    (optimize_by_diag_blocks : bool) :
  (∀ lmi, prepare_lmi_for_sdp float (Single lmi) variables
            optimize_by_diag_blocks =
          prepare_lmi_for_sdp float (Several [lmi]) variables
            optimize_by_diag_blocks) ∧
  (∀ m, prepare_lmi_for_sdp float (Single (IsMatrix m)) variables
          optimize_by_diag_blocks =
        prepare_lmi_for_sdp float (Single (IsLMI (LMI_PSD m None))) variables
          optimize_by_diag_blocks) ∧
  (∀ lmis blocks coeffs,
     Forall2 (λ lmi bs, blocks_of optimize_by_diag_blocks lmi = OK bs)
             lmis blocks →
     Forall2 (λ b r, lm_sym_to_coeffs float b variables = OK r)
             (concat blocks) coeffs →
     prepare_lmi_for_sdp float (Several lmis) variables
       optimize_by_diag_blocks = OK coeffs ∧
     length coeffs = sum_list (length <$> blocks) ∧
     Forall2 (λ b r, length r.1 = length variables ∧
                     Forall (shape (rows b) (cols b)) r.1 ∧
                     shape (rows b) (cols b) r.2)
             (concat blocks) coeffs).
Proof.
  split; [done|]. split; [done|].
  intros lmis blocks coeffs Hblocks Hcoeffs. split; [|split].
  - unfold prepare_lmi_for_sdp.
    assert (Hlms : ∃ lms,
              Forall2 (λ lmi lm, lmi_matrix lmi = OK lm) lmis lms ∧
              Forall2 (λ lm bs, if optimize_by_diag_blocks
                                then split_by_diag_blocks lm = OK bs
                                else bs = [lm]) lms blocks).
    { clear Hcoeffs. induction Hblocks as [|lmi bs lmis blocks Hb _ IH].
      - exists []. split; constructor.
      - destruct IH as (lms & H1 & H2). unfold blocks_of in Hb.
        destruct (lmi_matrix lmi) as [lm|] eqn:E; [|done].
        cbn [mbind result_bind] in Hb.
        exists (lm :: lms). split; constructor; try done.
        destruct optimize_by_diag_blocks; [done|]. by injection Hb. }
    destruct Hlms as (lms & Hlms & Hsplit).
    assert (Hsingle : ∀ {X} (l : list X), l ≫= (λ x, [x]) = l).
    { intros X l. induction l as [|x l IH]; [done|]. by rewrite bind_cons, IH. }
    pose proof (for_each_collect lmi_matrix (λ lm, [lm]) lmis lms [] Hlms) as H1.
    rewrite Hsingle in H1. cbn [app] in H1.
    match goal with
    | |- context [for_each lmis ?b []] =>
        replace (for_each lmis b []) with (@OK (list (Matrix expr)) lms)
          by (symmetry; exact H1)
    end.
    cbn [mbind result_bind].
    assert (H2 : (if optimize_by_diag_blocks
                  then for_each lms
                         (λ slms slm, blocks ← split_by_diag_blocks slm;
                                      OK (slms ++ blocks)) []
                  else OK lms) = OK (concat blocks)).
    { destruct optimize_by_diag_blocks.
      - pose proof (for_each_collect split_by_diag_blocks id lms blocks []
                      Hsplit) as H2.
        etransitivity; [exact H2|]. reflexivity.
      - f_equal. clear -Hsplit.
        induction Hsplit as [|lm bs lms blocks -> _ IH]; [done|].
        cbn. by rewrite <- IH. }
    rewrite H2. cbn [mbind result_bind].
    pose proof (for_each_collect (λ slm, lm_sym_to_coeffs float slm variables)
                  (λ r, [r]) (concat blocks) coeffs [] Hcoeffs) as H3.
    rewrite Hsingle in H3. cbn [app] in H3.
    match goal with
    | |- context [for_each (concat blocks) ?b []] =>
        replace (for_each (concat blocks) b [])
          with (@OK (list (list (Matrix F) * Matrix F)) coeffs)
          by (symmetry; exact H3)
    end.
    done.
  - apply Forall2_length in Hcoeffs. rewrite <- Hcoeffs. clear.
    induction blocks as [|b blocks IH]; [done|].
    cbn. rewrite length_app. by rewrite IH.
  - eapply Forall2_impl; [exact Hcoeffs|]. intros b [cs k] Hr. cbn.
    by apply lm_sym_to_coeffs_shape.
Qed.
End claims_prepare_lmi.

(** ** [prepare_objective_for_sdp] *)

Section claims_objective.
Context {F : Type} (float : Qc → F).

(** C9: the direction is compared in lower case with ['max'],
    ['maximize'], ['min'] and ['minimize']; for a maximisation the
    coefficients are those of [-1 * objective_func], for a minimisation
    those of [objective_func]; any other direction raises [ValueError].
    On [1.2 + x - 3.4*y] over [[x, y, z]] this gives [[-1.0, 3.4, 0.0]]
    for ['maximize'] and [[1.0, -3.4, 0.0]] for ['minimize']. *)
Theorem prepare_objective_for_sdp_direction :
  (∀ objective_func variables objective_type,
     lower objective_type ∈ ["max"; "maximize"] →
     prepare_objective_for_sdp float objective_func variables objective_type =
       fst <$> lin_expr_coeffs float
                 (sympy_mul_number (-(1))%Qc objective_func) variables) ∧
  (∀ objective_func variables objective_type,
     lower objective_type ∈ ["min"; "minimize"] →
     prepare_objective_for_sdp float objective_func variables objective_type =
       fst <$> lin_expr_coeffs float objective_func variables) ∧
  (∀ objective_func variables objective_type,
     lower objective_type ∉ ["max"; "maximize"; "min"; "minimize"] →
     prepare_objective_for_sdp float objective_func variables objective_type =
       Raise (ValueError "objective_type must be 'maximize' or 'minimize'")) ∧
  (let x := Symbol "x" in
   let y := Symbol "y" in
   let z := Symbol "z" in
   let objective :=
     sympy_sub (sympy_add (Number (Q2Qc (12 # 10))) (Sym x))
               (sympy_mul_number (Q2Qc (34 # 10)) (Sym y)) in
   prepare_objective_for_sdp float objective [x; y; z] "maximize" =
     OK [float (Q2Qc (-1)); float (Q2Qc (34 # 10)); float 0%Qc] ∧
   prepare_objective_for_sdp float objective [x; y; z] "minimize" =
     OK [float 1%Qc; float (Q2Qc (-34 # 10)); float 0%Qc] ∧
   prepare_objective_for_sdp float objective [x; y; z] "MAX" =
     prepare_objective_for_sdp float objective [x; y; z] "maximize" ∧
   prepare_objective_for_sdp float objective [x; y; z] "Min" =
     prepare_objective_for_sdp float objective [x; y; z] "minimize").
Proof.
  split; [|split; [|split]].
  - intros e vars s Hs. unfold prepare_objective_for_sdp.
    rewrite bool_decide_eq_true_2 by done. cbn [mbind result_bind].
    by destruct (lin_expr_coeffs _ _ _) as [[cs k]|].
  - intros e vars s Hs. unfold prepare_objective_for_sdp.
    assert (Hn : lower s ∉ ["max"; "maximize"]).
    { intros Hm. revert Hs Hm. rewrite !elem_of_cons, !elem_of_nil.
      intros [->|[->|[]]] [?|[?|[]]]; done. }
    rewrite bool_decide_eq_false_2, bool_decide_eq_true_2 by done.
    cbn [mbind result_bind].
    by destruct (lin_expr_coeffs _ _ _) as [[cs k]|].
  - intros e vars s Hs. unfold prepare_objective_for_sdp.
    rewrite !bool_decide_eq_false_2; [done| |].
    + intros H. apply Hs.
      change (lower s ∈ ["max"; "maximize"] ++ ["min"; "minimize"]).
      apply elem_of_app. by right.
    + intros H. apply Hs.
      change (lower s ∈ ["max"; "maximize"] ++ ["min"; "minimize"]).
      apply elem_of_app. by left.
  - cbn zeta. repeat split; qc_eq.
Qed.
End claims_objective.

(** ** The theorems at concrete inputs *)

Lemma prepare_lmi_for_sdp_blocks_witness :
  let x := Symbol "x" in
  let m := [[Sym x; Zero]; [Zero; sympy_add (Sym x) One]] in
  prepare_lmi_for_sdp (λ q, q) (Several [IsMatrix m]) [x] true =
    OK [([[[1%Qc]]], [[0%Qc]]); ([[[1%Qc]]], [[1%Qc]])] ∧
  length [([[[1%Qc]]], [[0%Qc]]); ([[[1%Qc]]], [[1%Qc]])] =
    sum_list (length <$> [[[[Sym x]]; [[sympy_add (Sym x) One]]]]) ∧
  Forall2 (λ b r, length r.1 = length [x] ∧
                  Forall (shape (rows b) (cols b)) r.1 ∧
                  shape (rows b) (cols b) r.2)
          (concat [[[[Sym x]]; [[sympy_add (Sym x) One]]]])
          [([[[1%Qc]]], [[0%Qc]]); ([[[1%Qc]]], [[1%Qc]])].
Proof.
  cbn zeta.
  apply (proj2 (proj2 (prepare_lmi_for_sdp_blocks (λ q, q) [Symbol "x"] true))
           [IsMatrix [[Sym (Symbol "x"); Zero];
                      [Zero; sympy_add (Sym (Symbol "x")) One]]]
           [[[[Sym (Symbol "x")]]; [[sympy_add (Sym (Symbol "x")) One]]]]).
  - constructor; [vm_compute; reflexivity | constructor].
  - cbn [concat app]. constructor; [qc_eq|]. constructor; [qc_eq|]. constructor.
Defined.

Lemma lm_round_trip_witness :
  ∃ lm,
    lm_coeffs_to_sym ([[[1%Qc; Q2Qc (1 # 2)]; [Q2Qc (1 # 2); 0%Qc]]],
                      [[0%Qc; 1%Qc]; [1%Qc; Q2Qc 3]]) [Symbol "x"] = OK lm ∧
    (∀ (F : Type) (float : Qc → F),
       lm_sym_to_coeffs float lm [Symbol "x"] =
         OK (matrix_map float <$>
               [[[1%Qc; Q2Qc (1 # 2)]; [Q2Qc (1 # 2); 0%Qc]]],
             matrix_map float [[0%Qc; 1%Qc]; [1%Qc; Q2Qc 3]])) ∧
    (lm_sym_to_coeffs python_float lm [Symbol "x"] =
       OK (matrix_map Finite <$>
             [[[1%Qc; Q2Qc (1 # 2)]; [Q2Qc (1 # 2); 0%Qc]]],
           matrix_map Finite [[0%Qc; 1%Qc]; [1%Qc; Q2Qc 3]]) ↔
     Forall (λ m, Forall (Forall is_double) m)
            [[[0%Qc; 1%Qc]; [1%Qc; Q2Qc 3]];
             [[1%Qc; Q2Qc (1 # 2)]; [Q2Qc (1 # 2); 0%Qc]]]).
Proof.
  apply lm_round_trip.
  - vm_decide.
  - reflexivity.
  - repeat constructor.
  - repeat constructor.
Defined.


Lemma split_by_diag_blocks_edge_cases_witness :
  let m := [[Sym (Symbol "x"); Sym (Symbol "y")];
            [Sym (Symbol "y"); One]] in
  get_diag_block_idxs m = OK [rows m] ∧ split_by_diag_blocks m = OK [m].
Proof.
  cbn zeta. apply (proj2 split_by_diag_blocks_edge_cases).
  - repeat constructor.
  - intros [|[|i]] [|[|j]] Hi Hj; cbn in Hi, Hj; try lia; reflexivity.
Defined.

Lemma prepare_objective_for_sdp_direction_witness :
  prepare_objective_for_sdp (λ q, q) (Sym (Symbol "x")) [Symbol "x"] "MAX" =
    fst <$> lin_expr_coeffs (λ q, q)
              (sympy_mul_number (-(1))%Qc (Sym (Symbol "x"))) [Symbol "x"].
Proof.
  apply (proj1 (prepare_objective_for_sdp_direction (λ q, q))).
  vm_decide.
Defined.

(** * Further properties of the code *)

(** ** [expand] keeps the polynomial value *)

Lemma poly_pow_singleton (m : monomial) k :
  poly_pow [(m, 1%Qc)] k = [(k *: m, 1%Qc)].
Proof.
  induction k as [|k IH]; cbn [poly_pow].
  - by rewrite gmultiset_scalar_mul_0.
  - rewrite IH. unfold poly_mul. rewrite bind_singleton. cbn.
    by rewrite gmultiset_scalar_mul_S_l, Qcmult_1_l.
Qed.

Lemma poly_of_factor (f : expr) :
  factor_shape f → poly_of f = [(factor_monomial f, 1%Qc)].
Proof.
  destruct f as [|s| | |[|s| | |] k]; try done.
  intros _. cbn [poly_of factor_monomial]. apply poly_pow_singleton.
Qed.

Lemma poly_of_Mul_factors (l : list expr) :
  Forall factor_shape l →
  poly_of (Mul l) = [(⋃+ (factor_monomial <$> l), 1%Qc)].
Proof.
  induction 1 as [|f l Hf _ IH]; [done|].
  rewrite poly_of_Mul_cons, IH, (poly_of_factor f Hf).
  unfold poly_mul. rewrite bind_singleton. cbn. by rewrite Qcmult_1_l.
Qed.

Lemma disj_union_list_powers (m : monomial) (l : list symbol) :
  NoDup l → (∀ s, s ∈ m ↔ s ∈ l) →
  ⋃+ ((λ s, multiplicity s m *: {[+ s +]}) <$> l) = m.
Proof.
  intros Hnd Hl. apply gmultiset_eq. intros y.
  rewrite multiplicity_gmultiset_disj_union_list, <- list_fmap_compose.
  assert (H : ∀ l, NoDup l →
            sum_list ((multiplicity y ∘ (λ s, multiplicity s m *: {[+ s +]})) <$> l)
            = if decide (y ∈ l) then multiplicity y m else 0).
  { clear. intros l. induction 1 as [|s l Hs _ IH]; [done|].
    cbn [fmap list_fmap sum_list compose]. fold (compose (multiplicity y)
      (λ s : symbol, multiplicity s m *: ({[+ s +]} : monomial))).
    rewrite IH, multiplicity_scalar_mul.
    destruct (decide (y = s)) as [->|Hne].
    - rewrite multiplicity_singleton_eq.
      rewrite (decide_True (P := s ∈ s :: l)) by left.
      rewrite decide_False by done. unfold id. lia.
    - rewrite multiplicity_singleton_ne by done. unfold id.
      destruct (decide (y ∈ l)).
      + rewrite decide_True by (by right). lia.
      + rewrite decide_False; [lia|]. rewrite elem_of_cons. tauto. }
  rewrite H by done. case_decide as Hy; [done|].
  symmetry. apply not_elem_of_multiplicity. by rewrite Hl.
Qed.

Lemma poly_of_monomial_key (m : monomial) :
  poly_of (monomial_key m) = [(m, 1%Qc)].
Proof.
  rewrite monomial_key_factors, poly_of_from_args_Mul.
  rewrite poly_of_Mul_factors by apply monomial_factors_shape.
  f_equal. f_equal. unfold monomial_factors.
  rewrite (addsort_Permutation _), <- list_fmap_compose.
  rewrite <- (disj_union_list_powers m (elements (dom m))) at 2.
  - f_equal. apply list_fmap_ext. intros _ s _. cbn [compose].
    case_decide as Hk; cbn [factor_monomial]; [|done].
    by rewrite Hk, gmultiset_scalar_mul_1.
  - apply NoDup_elements.
  - intros s. by rewrite elem_of_elements, gmultiset_elem_of_dom.
Qed.

Lemma coef_expr_of_poly (p : poly) m :
  coef (poly_of (expr_of_poly p)) m = coef p m.
Proof.
  unfold expr_of_poly. rewrite coef_poly_of_from_args_Add. cbn [poly_of].
  rewrite coef_addsort.
  induction p as [|[m' c] p IH]; [done|].
  rewrite fmap_cons, bind_cons, coef_app, IH, coef_rebuild_term.
  rewrite poly_of_monomial_key. cbn. case_decide; ring.
Qed.

Lemma coef_not_elem (p : poly) m : m ∉ p.*1 → coef p m = 0%Qc.
Proof.
  intros H. destruct (decide (coef p m = 0%Qc)) as [|Hne]; [done|].
  by apply coef_nonzero_elem in Hne.
Qed.

Lemma coef_expanded_terms (p : poly) m :
  coef (expanded_terms p) m = coef p m.
Proof.
  unfold expanded_terms.
  assert (H : ∀ l : list monomial, NoDup l →
            coef (filter (λ mc, Qc_eqb mc.2 0 = false)
                         ((λ m, (m, coef p m)) <$> l)) m =
            if decide (m ∈ l) then coef p m else 0%Qc).
  { intros l. induction 1 as [|m' l Hm' _ IH]; [done|].
    rewrite fmap_cons, filter_cons. cbn [snd].
    destruct (decide (Qc_eqb (coef p m') 0 = false)) as [E|E].
    - cbn [coef]. rewrite IH.
      destruct (decide (m' = m)) as [->|Hne].
      + rewrite (decide_True (P := m ∈ m :: l)) by left.
        rewrite decide_False by done. ring.
      + destruct (decide (m ∈ l)).
        * by rewrite decide_True by (by right).
        * rewrite decide_False; [done|]. rewrite elem_of_cons. intros [->|?]; done.
    - apply not_false_is_true, Qc_eqb_true in E. rewrite IH.
      destruct (decide (m' = m)) as [->|Hne].
      + rewrite (decide_True (P := m ∈ m :: l)) by left.
        by rewrite decide_False by done.
      + destruct (decide (m ∈ l)).
        * by rewrite decide_True by (by right).
        * rewrite decide_False; [done|]. rewrite elem_of_cons. intros [->|?]; done. }
  rewrite H by apply NoDup_remove_dups.
  case_decide as Hm; [done|].
  symmetry. apply coef_not_elem. by rewrite elem_of_remove_dups in Hm.
Qed.

(** [e.expand()] has the polynomial value of [e]. *)
Lemma coef_expand (e : expr) m :
  coef (poly_of (expand e)) m = coef (poly_of e) m.
Proof. unfold expand. by rewrite coef_expr_of_poly, coef_expanded_terms. Qed.

(** ** What [lin_expr_coeffs] returns, and when *)

Lemma monomial_key_empty : monomial_key ∅ = One.
Proof.
  unfold monomial_key.
  assert (E : dom (∅ : monomial) = (∅ : gset symbol)).
  { apply elem_of_equiv_empty_L. intros x. rewrite gmultiset_elem_of_dom.
    apply gmultiset_not_elem_of_empty. }
  by rewrite E, elements_empty.
Qed.

Lemma monomial_key_singleton x : monomial_key {[+ x +]} = Sym x.
Proof.
  unfold monomial_key.
  assert (E : dom ({[+ x +]} : monomial) = ({[ x ]} : gset symbol)).
  { apply set_eq. intros y.
    by rewrite gmultiset_elem_of_dom, gmultiset_elem_of_singleton,
      elem_of_singleton. }
  rewrite E, elements_singleton. cbn [fmap list_fmap].
  rewrite multiplicity_singleton_eq, decide_True by done.
  assert (Es : addsort [Sym x] = [Sym x]).
  { apply Permutation_singleton_r, addsort_Permutation. }
  by rewrite Es.
Qed.

(** The keys of the dictionary of the expanded expression are [1] and
    the keys of the monomials of the expanded value. *)
Lemma expand_keys_inv (e : expr) k :
  k ∈ dict_keys (as_coefficients_dict (expand e)) →
  k = One ∨ ∃ m, coef (poly_of e) m ≠ 0%Qc ∧ k = monomial_key m.
Proof.
  intros Hk. apply as_coefficients_dict_keys in Hk as (a & Ha & <-).
  unfold expand, expr_of_poly in Ha.
  set (ts := (λ '(m, c), rebuild_term c (monomial_key m))
               <$> expanded_terms (poly_of e)) in Ha.
  assert (Hts : ∀ t, t ∈ addsort ts →
            top_args t = [t] ∧
            ∃ m, coef (poly_of e) m ≠ 0%Qc ∧ (as_coeff_Mul t).2 = monomial_key m).
  { intros t Ht. rewrite (addsort_Permutation ts) in Ht.
    apply list_elem_of_fmap in Ht as ([m c] & -> & Hmc).
    apply elem_of_expanded_terms in Hmc as [-> Hc].
    split; [apply as_coeff_Mul_rebuild_monomial|].
    exists m. split; [done|]. apply as_coeff_Mul_rebuild_monomial. }
  destruct (addsort ts) as [|t [|t' l]] eqn:E; cbn [from_args] in Ha.
  - cbn in Ha. apply list_elem_of_singleton in Ha as ->. by left.
  - destruct (Hts t) as [Ht Hm]; [left|]. rewrite Ht in Ha.
    apply list_elem_of_singleton in Ha as ->. by right.
  - cbn [top_args] in Ha. right. by apply Hts.
Qed.

Section lin_expr_coeffs_results.
Context {F : Type} (float : Qc → F).

(** A dictionary whose keys all pass the check holds, under each key, the
    coefficient of the monomial the key stands for. *)
Lemma checked_dict_get (ex : expr) (variables : list symbol) (d : symbol) k m :
  issubset (dict_keys (as_coefficients_dict ex))
    ((Sym <$> variables) ++ [One; Sym d]) = true →
  key_monomial k = Some m →
  dict_get (as_coefficients_dict ex) k 0%Qc = coef (poly_of ex) m.
Proof.
  intros Hsub Hk. rewrite issubset_true in Hsub.
  apply as_coefficients_dict_get_atomic; [|done].
  intros k' Hk'. apply Hsub in Hk'. rewrite elem_of_app in Hk'.
  destruct Hk' as [Hk'|Hk'].
  - apply list_elem_of_fmap in Hk' as (x & -> & _). by eexists.
  - apply elem_of_cons in Hk' as [->|Hk']; [by eexists|].
    apply list_elem_of_singleton in Hk' as ->. by eexists.
Qed.

(** What [lin_expr_coeffs] returns is read off the polynomial value of the
    expression: the coefficient of each variable and the constant term. *)
Lemma lin_expr_coeffs_value (e : expr) (variables : list symbol) cs k :
  lin_expr_coeffs float e variables = OK (cs, k) →
  cs = (λ x, float (coef (poly_of e) {[+ x +]})) <$> variables ∧
  k = float (coef (poly_of e) ∅).
Proof.
  unfold lin_expr_coeffs.
  set (d := Dummy_new (elements (free_symbols e) ++ variables)).
  assert (Hd : d ∉ variables).
  { intros Hd. apply (Dummy_new_fresh (elements (free_symbols e) ++ variables)).
    apply elem_of_app. by right. }
  set (ex := sympy_add (Sym d) e).
  set (ok_set := (Sym <$> variables) ++ [One; Sym d]).
  assert (Hex : ∀ m, m ≠ {[+ d +]} → coef (poly_of ex) m = coef (poly_of e) m).
  { intros m Hm. unfold ex. rewrite coef_sympy_add. cbn [poly_of].
    rewrite coef_singleton_1, decide_False by done. ring. }
  assert (Hres : ∀ ex', (∀ m, coef (poly_of ex') m = coef (poly_of ex) m) →
            issubset (dict_keys (as_coefficients_dict ex')) ok_set = true →
            (λ x, float (dict_get (as_coefficients_dict ex') (Sym x) 0%Qc))
              <$> variables =
            (λ x, float (coef (poly_of e) {[+ x +]})) <$> variables ∧
            float (dict_get (as_coefficients_dict ex') One 0%Qc) =
            float (coef (poly_of e) ∅)).
  { intros ex' Hval Hsub. split.
    - apply Forall_fmap_ext_1, Forall_forall. intros x Hx. f_equal.
      rewrite (checked_dict_get ex' variables d (Sym x) {[+ x +]}) by done.
      rewrite Hval. apply Hex. intros H. apply (inj singletonMS) in H. by subst.
    - f_equal.
      rewrite (checked_dict_get ex' variables d One ∅) by done.
      rewrite Hval. apply Hex.
      intros H. symmetry in H. by apply gmultiset_non_empty_singleton in H. }
  destruct (issubset (dict_keys (as_coefficients_dict ex)) ok_set) eqn:H1.
  - cbn [mbind result_bind]. intros [= <- <-]. by apply Hres.
  - destruct (issubset (dict_keys (as_coefficients_dict (expand ex))) ok_set)
      eqn:H2; [|done].
    cbn [mbind result_bind]. intros [= <- <-].
    apply Hres; [|done]. intros m. apply coef_expand.
Qed.

(** When every monomial of the expanded value is [1] or one of the
    variables, [lin_expr_coeffs] returns. *)
Lemma lin_expr_coeffs_returns (e : expr) (variables : list symbol) :
  (∀ m, coef (poly_of e) m ≠ 0%Qc →
        m = ∅ ∨ ∃ x, x ∈ variables ∧ m = {[+ x +]}) →
  ∃ r, lin_expr_coeffs float e variables = OK r.
Proof.
  intros Haff. unfold lin_expr_coeffs.
  set (d := Dummy_new (elements (free_symbols e) ++ variables)).
  set (ex := sympy_add (Sym d) e).
  set (ok_set := (Sym <$> variables) ++ [One; Sym d]).
  destruct (issubset (dict_keys (as_coefficients_dict ex)) ok_set) eqn:H1.
  { cbn [mbind result_bind]. by eexists. }
  assert (H2 : issubset (dict_keys (as_coefficients_dict (expand ex))) ok_set
               = true).
  { apply issubset_true. intros k Hk. unfold ok_set. rewrite elem_of_app.
    apply expand_keys_inv in Hk as [->|(m & Hm & ->)].
    { right. left. }
    destruct (decide (m = {[+ d +]})) as [->|Hmd].
    { right. right. rewrite monomial_key_singleton. left. }
    assert (Hme : coef (poly_of e) m ≠ 0%Qc).
    { intros H0. apply Hm. unfold ex. rewrite coef_sympy_add. cbn [poly_of].
      rewrite coef_singleton_1, decide_False by done. rewrite H0. ring. }
    destruct (Haff m Hme) as [->|(x & Hx & ->)].
    - right. rewrite monomial_key_empty. left.
    - left. rewrite monomial_key_singleton. by apply list_elem_of_fmap_2. }
  rewrite H2. cbn [mbind result_bind]. by eexists.
Qed.

(** [lin_expr_coeffs] is decided by the polynomial value of the
    expression. *)
Lemma lin_expr_coeffs_cases (e : expr) (variables : list symbol) :
  (lin_expr_coeffs float e variables =
     OK ((λ x, float (coef (poly_of e) {[+ x +]})) <$> variables,
         float (coef (poly_of e) ∅)) ∧
   ∀ m, coef (poly_of e) m ≠ 0%Qc →
        m = ∅ ∨ ∃ x, x ∈ variables ∧ m = {[+ x +]}) ∨
  (lin_expr_coeffs float e variables =
     Raise (NonLinearExpressionError
              "'linear_expr' must be linear w.r.t. 'variables'") ∧
   ∃ m, coef (poly_of e) m ≠ 0%Qc ∧ m ≠ ∅ ∧
        ∀ x, x ∈ variables → m ≠ {[+ x +]}).
Proof.
  destruct (lin_expr_coeffs float e variables) as [[cs k]|er] eqn:E.
  - left. destruct (lin_expr_coeffs_value e variables cs k E) as [-> ->].
    split; [done|]. intros m Hm.
    destruct (decide (m = ∅)) as [|Hne]; [by left|]. right.
    destruct (decide (Exists (λ x, m = {[+ x +]}) variables)) as [Hyes|Hno].
    { apply Exists_exists in Hyes as (x & Hx & ->). by exists x. }
    rewrite (lin_expr_coeffs_nonlinear float e variables m Hm Hne) in E; [done|].
    intros x Hx ->. apply Hno. apply Exists_exists. by exists x.
  - right. rewrite (lin_expr_coeffs_raise float e variables er E). split; [done|].
    destruct (decide (Forall (λ mc, mc.1 = ∅ ∨ Exists (λ x, mc.1 = {[+ x +]}) variables)
                             (expanded_terms (poly_of e)))) as [Hall|Hex].
    + destruct (lin_expr_coeffs_returns e variables) as [r Hr]; [|congruence].
      intros m Hm. rewrite Forall_forall in Hall.
      destruct (Hall (m, coef (poly_of e) m)) as [H|H].
      * by apply elem_of_expanded_terms.
      * by left.
      * right. apply Exists_exists in H as (x & Hx & H). by exists x.
    + apply not_Forall_Exists in Hex; [|apply _].
      apply Exists_exists in Hex as ([m c] & Hmc & Hno).
      apply elem_of_expanded_terms in Hmc as [-> Hc]. cbn in Hno.
      exists m. split; [done|]. split.
      * intros ->. apply Hno. by left.
      * intros x Hx ->. apply Hno. right. apply Exists_exists. by exists x.
Qed.
End lin_expr_coeffs_results.

(** ** [lin_expr_coeffs] and the polynomial value *)

Section lin_expr_coeffs_polynomial.
Context {F : Type} (float : Qc → F).

(** Expressions with the same polynomial value get the same result, be it
    the coefficients or the exception. *)
Lemma lin_expr_coeffs_ext (e1 e2 : expr) (variables : list symbol) :
  (∀ m, coef (poly_of e1) m = coef (poly_of e2) m) →
  lin_expr_coeffs float e1 variables = lin_expr_coeffs float e2 variables.
Proof.
  intros H.
  destruct (lin_expr_coeffs_cases float e1 variables)
    as [[-> H1]|[-> (m1 & Hm1 & Hne1 & Hv1)]],
     (lin_expr_coeffs_cases float e2 variables)
    as [[-> H2]|[-> (m2 & Hm2 & Hne2 & Hv2)]].
  - f_equal. f_equal; [|by rewrite H].
    apply list_fmap_ext. intros _ x _. by rewrite H.
  - rewrite <- H in Hm2. destruct (H1 m2 Hm2) as [|(x & Hx & ->)]; [done|].
    by destruct (Hv2 x Hx).
  - rewrite H in Hm1. destruct (H2 m1 Hm1) as [|(x & Hx & ->)]; [done|].
    by destruct (Hv1 x Hx).
  - done.
Qed.

(** The constant term has no part in the coefficients, nor in the
    failure. *)
Lemma lin_expr_coeffs_ext_coeffs (e1 e2 : expr) (variables : list symbol) :
  (∀ m, m ≠ ∅ → coef (poly_of e1) m = coef (poly_of e2) m) →
  fst <$> lin_expr_coeffs float e1 variables =
  fst <$> lin_expr_coeffs float e2 variables.
Proof.
  intros H.
  assert (Hs : ∀ x : symbol, ({[+ x +]} : monomial) ≠ ∅).
  { intros x. apply gmultiset_non_empty_singleton. }
  destruct (lin_expr_coeffs_cases float e1 variables)
    as [[-> H1]|[-> (m1 & Hm1 & Hne1 & Hv1)]],
     (lin_expr_coeffs_cases float e2 variables)
    as [[-> H2]|[-> (m2 & Hm2 & Hne2 & Hv2)]]; cbn [fmap result_fmap fst].
  - f_equal. apply list_fmap_ext. intros _ x _. by rewrite H.
  - rewrite <- H in Hm2 by done.
    destruct (H1 m2 Hm2) as [|(x & Hx & ->)]; [done|]. by destruct (Hv2 x Hx).
  - rewrite H in Hm1 by done.
    destruct (H2 m1 Hm1) as [|(x & Hx & ->)]; [done|]. by destruct (Hv1 x Hx).
  - done.
Qed.

(** X1: when [lin_expr_coeffs] returns, it returns one coefficient per
    variable; the coefficient of a variable is the [float] of its
    coefficient in the polynomial value of the expression, and the
    constant is the [float] of the constant term. *)
Theorem lin_expr_coeffs_sound (linear_expr : expr) (variables : list symbol)
    (coeffs : list F) (const : F) :
  lin_expr_coeffs float linear_expr variables = OK (coeffs, const) →
  length coeffs = length variables ∧
  (∀ i x, variables !! i = Some x →
     coeffs !! i = Some (float (coef (poly_of linear_expr) {[+ x +]}))) ∧
  const = float (coef (poly_of linear_expr) ∅).
Proof.
  intros H. apply lin_expr_coeffs_value in H as [-> ->].
  split; [by rewrite length_fmap|]. split; [|done].
  intros i x Hx. by rewrite list_lookup_fmap, Hx.
Qed.

(** X2: when [lin_expr_coeffs] returns, every term of the expanded
    expression is a constant or a multiple of one of the variables. *)
Theorem lin_expr_coeffs_returns_affine (linear_expr : expr)
    (variables : list symbol) (coeffs : list F) (const : F) :
  lin_expr_coeffs float linear_expr variables = OK (coeffs, const) →
  Forall (λ term, term.1 = ∅ ∨ ∃ x, x ∈ variables ∧ term.1 = {[+ x +]})
         (expanded_terms (poly_of linear_expr)).
Proof.
  intros Hr. apply Forall_forall. intros [m c] Hmc. cbn [fst].
  apply elem_of_expanded_terms in Hmc as [-> Hc].
  destruct (lin_expr_coeffs_cases float linear_expr variables)
    as [[_ H]|[H _]]; [by apply H | congruence].
Qed.

(** X4: a variable that does not occur in the expression gets the
    coefficient [float(0)]. *)
Theorem lin_expr_coeffs_unused_variable (linear_expr : expr)
    (variables : list symbol) (coeffs : list F) (const : F) (i : nat)
    (x : symbol) :
  lin_expr_coeffs float linear_expr variables = OK (coeffs, const) →
  variables !! i = Some x → x ∉ free_symbols linear_expr →
  coeffs !! i = Some (float 0%Qc).
Proof.
  intros H Hx Hfree. apply lin_expr_coeffs_value in H as [-> _].
  rewrite list_lookup_fmap, Hx. cbn. do 2 f_equal.
  destruct (decide (coef (poly_of linear_expr) {[+ x +]} = 0%Qc)) as [|Hne];
    [done|].
  destruct Hfree. eapply poly_of_symbols; [by apply coef_nonzero_elem|].
  by apply gmultiset_elem_of_singleton.
Qed.

(** X5: when [lin_expr_coeffs] returns for a list of variables, it
    returns for every list that contains them, in any order and with
    repetitions: the constant is the same, a variable keeps its
    coefficient wherever it is listed, and a variable that was not in the
    first list gets [float(0)]. *)
Theorem lin_expr_coeffs_more_variables (linear_expr : expr)
    (variables variables' : list symbol) (coeffs : list F) (const : F) :
  lin_expr_coeffs float linear_expr variables = OK (coeffs, const) →
  (∀ x, x ∈ variables → x ∈ variables') →
  ∃ coeffs',
    lin_expr_coeffs float linear_expr variables' = OK (coeffs', const) ∧
    (∀ i j x, variables !! i = Some x → variables' !! j = Some x →
       coeffs' !! j = coeffs !! i) ∧
    (∀ j x, variables' !! j = Some x → x ∉ variables →
       coeffs' !! j = Some (float 0%Qc)).
Proof.
  intros H Hsub.
  destruct (lin_expr_coeffs_cases float linear_expr variables)
    as [[H1 Haff]|[H1 _]]; [|congruence].
  rewrite H1 in H. injection H as <- <-.
  destruct (lin_expr_coeffs_cases float linear_expr variables')
    as [[H2 _]|[_ (m & Hm & Hne & Hv)]].
  - eexists. split; [exact H2|]. split.
    + intros i j x Hi Hj. by rewrite !list_lookup_fmap, Hi, Hj.
    + intros j x Hj Hx. rewrite list_lookup_fmap, Hj. cbn. do 2 f_equal.
      destruct (decide (coef (poly_of linear_expr) {[+ x +]} = 0%Qc))
        as [|Hc]; [done|].
      destruct (Haff _ Hc) as [E|(y & Hy & E)].
      * by apply gmultiset_non_empty_singleton in E.
      * apply (inj singletonMS) in E. by subst.
  - destruct (Haff m Hm) as [|(x & Hx & ->)]; [done|].
    by destruct (Hv x (Hsub x Hx)).
Qed.
End lin_expr_coeffs_polynomial.

Lemma lin_expr_coeffs_sound_witness :
  let x := Symbol "x" in
  let y := Symbol "y" in
  let e := Add [Mul [Number (Q2Qc 2); Add [Sym x; One]]; Sym y] in
  length [Q2Qc 2; 1%Qc] = length [x; y] ∧
  (∀ i s, [x; y] !! i = Some s →
     [Q2Qc 2; 1%Qc] !! i = Some (coef (poly_of e) {[+ s +]})) ∧
  Q2Qc 2 = coef (poly_of e) ∅.
Proof.
  cbn zeta.
  apply (lin_expr_coeffs_sound (λ q, q)
           (Add [Mul [Number (Q2Qc 2); Add [Sym (Symbol "x"); One]];
                 Sym (Symbol "y")])
           [Symbol "x"; Symbol "y"]).
  qc_eq.
Defined.

Lemma lin_expr_coeffs_returns_affine_witness :
  let x := Symbol "x" in
  let y := Symbol "y" in
  let e := Add [Mul [Number (Q2Qc 2); Add [Sym x; One]]; Sym y] in
  Forall (λ term : monomial * Qc,
            term.1 = ∅ ∨ ∃ s, s ∈ [x; y] ∧ term.1 = {[+ s +]})
         (expanded_terms (poly_of e)).
Proof.
  cbn zeta.
  apply (lin_expr_coeffs_returns_affine (λ q, q)
           (Add [Mul [Number (Q2Qc 2); Add [Sym (Symbol "x"); One]];
                 Sym (Symbol "y")])
           [Symbol "x"; Symbol "y"] [Q2Qc 2; 1%Qc] (Q2Qc 2)).
  qc_eq.
Defined.

Lemma lin_expr_coeffs_unused_variable_witness :
  [1%Qc; 0%Qc] !! 1 = Some 0%Qc.
Proof.
  apply (lin_expr_coeffs_unused_variable (λ q, q)
           (sympy_add (Sym (Symbol "x")) One)
           [Symbol "x"; Symbol "z"] [1%Qc; 0%Qc] 1%Qc 1 (Symbol "z")).
  - qc_eq.
  - reflexivity.
  - vm_decide.
Defined.

Lemma lin_expr_coeffs_more_variables_witness :
  let x := Symbol "x" in
  let y := Symbol "y" in
  ∃ coeffs',
    lin_expr_coeffs (λ q, q) (sympy_add (Sym x) One) [y; x; x] =
      OK (coeffs', 1%Qc) ∧
    (∀ i j s, [x] !! i = Some s → [y; x; x] !! j = Some s →
       coeffs' !! j = [1%Qc] !! i) ∧
    (∀ j s, [y; x; x] !! j = Some s → s ∉ [x] →
       coeffs' !! j = Some 0%Qc).
Proof.
  cbn zeta.
  apply (lin_expr_coeffs_more_variables (λ q, q)
           (sympy_add (Sym (Symbol "x")) One) [Symbol "x"]
           [Symbol "y"; Symbol "x"; Symbol "x"] [1%Qc] 1%Qc).
  - qc_eq.
  - intros s Hs. apply list_elem_of_singleton in Hs as ->.
    apply elem_of_cons. right. apply elem_of_cons. by left.
Defined.

(** ** The direction of the objective *)

Lemma objective_type_min_not_max (s : string) :
  s ∈ ["min"; "minimize"] → s ∉ ["max"; "maximize"].
Proof.
  rewrite !elem_of_cons, !elem_of_nil.
  intros [->|[->|[]]] [?|[?|[]]]; done.
Qed.

Section objective_direction.
Context {F : Type} (float : Qc → F).

(** The tuple assignment [coeffs, const = lin_expr_coeffs(...)] followed
    by [return coeffs]. *)
Lemma prepare_objective_for_sdp_max objective_func variables objective_type :
  lower objective_type ∈ ["max"; "maximize"] →
  prepare_objective_for_sdp float objective_func variables objective_type =
    fst <$> lin_expr_coeffs float
              (sympy_mul_number (-(1))%Qc objective_func) variables.
Proof.
  intros Hs. unfold prepare_objective_for_sdp.
  rewrite bool_decide_eq_true_2 by done. cbn [mbind result_bind].
  by destruct (lin_expr_coeffs _ _ _) as [[cs k]|].
Qed.

Lemma prepare_objective_for_sdp_min objective_func variables objective_type :
  lower objective_type ∈ ["min"; "minimize"] →
  prepare_objective_for_sdp float objective_func variables objective_type =
    fst <$> lin_expr_coeffs float objective_func variables.
Proof.
  intros Hs. unfold prepare_objective_for_sdp.
  rewrite bool_decide_eq_false_2 by by apply objective_type_min_not_max.
  rewrite bool_decide_eq_true_2 by done. cbn [mbind result_bind].
  by destruct (lin_expr_coeffs _ _ _) as [[cs k]|].
Qed.

Section negation.
Context (fneg : F → F).
Hypothesis float_neg : ∀ q, fneg (float q) = float (- q)%Qc.

(** X6: for a float negation that agrees with the negation of rationals,
    when the minimisation and the maximisation of one objective both
    return, the maximisation returns the negated coefficients of the
    minimisation. *)
Theorem prepare_objective_for_sdp_maximize_negates (objective_func : expr)
    (variables : list symbol) (tmin tmax : string) (cmin cmax : list F) :
  lower tmin ∈ ["min"; "minimize"] → lower tmax ∈ ["max"; "maximize"] →
  prepare_objective_for_sdp float objective_func variables tmin = OK cmin →
  prepare_objective_for_sdp float objective_func variables tmax = OK cmax →
  cmax = fneg <$> cmin.
Proof.
  intros Hmin Hmax.
  rewrite (prepare_objective_for_sdp_min _ _ tmin Hmin),
    (prepare_objective_for_sdp_max _ _ tmax Hmax).
  destruct (lin_expr_coeffs float objective_func variables)
    as [[cs k]|] eqn:E; [|done].
  destruct (lin_expr_coeffs float (sympy_mul_number (-(1))%Qc objective_func)
              variables) as [[cs' k']|] eqn:E'; [|done].
  cbn [fmap result_fmap fst]. intros [= <-] [= <-].
  apply lin_expr_coeffs_value in E as [-> _], E' as [-> _].
  rewrite <- list_fmap_compose. apply list_fmap_ext. intros _ x _. cbn.
  rewrite coef_sympy_mul_number, float_neg. f_equal; ring.
Qed.
End negation.

(** X7: a constant added to the objective changes nothing in what
    [prepare_objective_for_sdp] returns or raises. *)
Theorem prepare_objective_for_sdp_ignores_constant (objective_func : expr)
    (variables : list symbol) (objective_type : string) (k : Qc) :
  prepare_objective_for_sdp float (sympy_add (Number k) objective_func)
    variables objective_type =
  prepare_objective_for_sdp float objective_func variables objective_type.
Proof.
  destruct (decide (lower objective_type ∈ ["max"; "maximize"])) as [Hmax|Hmax].
  { rewrite !prepare_objective_for_sdp_max by done.
    apply lin_expr_coeffs_ext_coeffs. intros m Hm.
    rewrite !coef_sympy_mul_number, coef_sympy_add. cbn [poly_of].
    rewrite coef_const, decide_False by done. ring. }
  destruct (decide (lower objective_type ∈ ["min"; "minimize"])) as [Hmin|Hmin].
  { rewrite !prepare_objective_for_sdp_min by done.
    apply lin_expr_coeffs_ext_coeffs. intros m Hm.
    rewrite coef_sympy_add. cbn [poly_of].
    rewrite coef_const, decide_False by done. ring. }
  unfold prepare_objective_for_sdp.
  by rewrite !bool_decide_eq_false_2 by done.
Qed.
End objective_direction.

Lemma prepare_objective_for_sdp_maximize_negates_witness :
  [Q2Qc (-1); Q2Qc (17 # 5)] = Qcopp <$> [1%Qc; Q2Qc (-17 # 5)].
Proof.
  apply (prepare_objective_for_sdp_maximize_negates (λ q, q) Qcopp
           (λ q, eq_refl)
           (sympy_add (sympy_add (Number (Q2Qc (6 # 5))) (Sym (Symbol "x")))
              (sympy_mul_number (Q2Qc (-17 # 5)) (Sym (Symbol "y"))))
           [Symbol "x"; Symbol "y"] "minimize" "MAX").
  - vm_decide.
  - vm_decide.
  - qc_eq.
  - qc_eq.
Defined.

(** ** The arrays of [lm_sym_to_coeffs] *)

Lemma mlookup_tabulate_ge {A} r c (g : nat → nat → A) i j :
  ¬ (i < r ∧ j < c) → mlookup (tabulate r c g) i j = None.
Proof.
  intros H. unfold mlookup, tabulate. rewrite list_lookup_fmap.
  destruct (decide (i < r)) as [Hi|Hi].
  - rewrite lookup_seq_lt by done. cbn.
    rewrite list_lookup_fmap, lookup_seq_ge; [done|lia].
  - by rewrite lookup_seq_ge by lia.
Qed.

Lemma symmetric_array_tabulate {A B} (n : nat) (g : nat → nat → A) (h : A → B) :
  (∀ i j, i < n → j < n → g i j = g j i) →
  symmetric_array (tabulate n n (λ i j, h (g i j))).
Proof.
  intros Hg i j. destruct (decide (i < n ∧ j < n)) as [[Hi Hj]|Hno].
  - rewrite !mlookup_tabulate by done. by rewrite Hg.
  - rewrite !mlookup_tabulate_ge; [done|lia|done].
Qed.

Section lm_sym_to_coeffs_arrays.
Context {F : Type} (float : Qc → F).

(** [lm_sym_to_coeffs] returns when the extraction succeeds on every cell,
    and then tabulates the results; it fails when some cell fails, and
    then with [NonLinearMatrixError]. *)
Lemma lm_sym_to_coeffs_cases (lm : Matrix expr) (variables : list symbol) :
  (∃ g : nat → nat → list F * F,
     (∀ i j, i < rows lm → j < cols lm →
        lin_expr_coeffs float (entry lm i j) variables = OK (g i j)) ∧
     lm_sym_to_coeffs float lm variables =
       OK ((λ v, tabulate (rows lm) (cols lm)
                   (λ i j, default (float 0%Qc) ((g i j).1 !! v)))
             <$> seq 0 (length variables),
           tabulate (rows lm) (cols lm) (λ i j, (g i j).2))) ∨
  (∃ i j er, i < rows lm ∧ j < cols lm ∧
     lin_expr_coeffs float (entry lm i j) variables = Raise er ∧
     lm_sym_to_coeffs float lm variables =
       Raise (NonLinearMatrixError
                "'linear_matrix' must be composed of linear expressions w.r.t. 'variables'")).
Proof.
  set (g := λ i j, match lin_expr_coeffs float (entry lm i j) variables with
                   | OK r => r
                   | Raise _ => ([], float 0%Qc)
                   end).
  destruct (Forall_Exists_dec
              (λ e : nat * nat, lin_expr_coeffs float (entry lm e.1 e.2) variables
                               = OK (g e.1 e.2))
              (λ e : nat * nat, ∃ er, lin_expr_coeffs float (entry lm e.1 e.2)
                                        variables = Raise er)
              (λ e, match lin_expr_coeffs float (entry lm e.1 e.2) variables
                      as r return
                      ({r = OK (match r with OK r' => r' | Raise _ => ([], float 0%Qc) end)}
                       + {∃ er, r = Raise er})
                    with
                    | OK r => left eq_refl
                    | Raise er => right (ex_intro _ er eq_refl)
                    end)
              (all_cells (rows lm) (cols lm))) as [Hall|Hex].
  - left. exists g. rewrite Forall_forall in Hall.
    assert (Hg : ∀ i j, i < rows lm → j < cols lm →
              lin_expr_coeffs float (entry lm i j) variables = OK (g i j)).
    { intros i j Hi Hj. apply (Hall (i, j)). by apply elem_of_all_cells. }
    split; [done|]. by apply lm_sym_to_coeffs_ok.
  - right. apply Exists_exists in Hex as ([i j] & Hij & er & Her).
    apply elem_of_all_cells in Hij as [Hi Hj]. cbn [fst snd] in Her.
    exists i, j, er. split; [done|]. split; [done|]. split; [done|].
    by eapply lm_sym_to_coeffs_raise.
Qed.

(** X8: when [lm_sym_to_coeffs] returns, [lin_expr_coeffs] returns on
    every cell of the matrix, and its results are what the arrays hold at
    that cell: the constant in [consts], the coefficient of the [v]-th
    variable in [coeffs[v]]. *)
Theorem lm_sym_to_coeffs_cells (linear_matrix : Matrix expr)
    (variables : list symbol) (coeffs : list (Matrix F)) (consts : Matrix F) :
  lm_sym_to_coeffs float linear_matrix variables = OK (coeffs, consts) →
  ∀ i j, i < rows linear_matrix → j < cols linear_matrix →
    ∃ coeffs_elem c,
      lin_expr_coeffs float (entry linear_matrix i j) variables =
        OK (coeffs_elem, c) ∧
      mlookup consts i j = Some c ∧
      ∀ v, v < length variables →
        (C ← coeffs !! v; mlookup C i j) = coeffs_elem !! v.
Proof.
  intros H i j Hi Hj.
  destruct (lm_sym_to_coeffs_cases linear_matrix variables)
    as [(g & Hg & Hok)|(i' & j' & er & _ & _ & _ & Hr)]; [|congruence].
  rewrite Hok in H. injection H as <- <-.
  pose proof (Hg i j Hi Hj) as Hij. destruct (g i j) as [ce c] eqn:Eg.
  exists ce, c. split; [done|]. split.
  - rewrite mlookup_tabulate by done. by rewrite Eg.
  - intros v Hv. rewrite list_lookup_fmap, lookup_seq_lt by done. cbn.
    rewrite mlookup_tabulate by done. rewrite Eg. cbn [fst].
    apply lin_expr_coeffs_length in Hij.
    destruct (lookup_lt_is_Some_2 ce v) as [x Hx]; [lia|]. by rewrite Hx.
Qed.

(** On a square symmetric matrix the results of the cells are symmetric
    in the indices. *)
Lemma cell_results_symmetric (lm : Matrix expr)
    (variables : list symbol) (g : nat → nat → list F * F) :
  rows lm = cols lm → symmetric lm →
  (∀ i j, i < rows lm → j < cols lm →
     lin_expr_coeffs float (entry lm i j) variables = OK (g i j)) →
  ∀ i j, i < rows lm → j < rows lm → g i j = g j i.
Proof.
  intros Hsq Hsym Hg i j Hi Hj.
  pose proof (Hg i j ltac:(lia) ltac:(lia)) as H1.
  pose proof (Hg j i ltac:(lia) ltac:(lia)) as H2.
  rewrite (Hsym i j) in H1. congruence.
Qed.

(** X9: on a square symmetric matrix, every array [lm_sym_to_coeffs]
    returns is symmetric. *)
Theorem lm_sym_to_coeffs_symmetric (linear_matrix : Matrix expr)
    (variables : list symbol) (coeffs : list (Matrix F)) (consts : Matrix F) :
  rows linear_matrix = cols linear_matrix → symmetric linear_matrix →
  lm_sym_to_coeffs float linear_matrix variables = OK (coeffs, consts) →
  Forall symmetric_array coeffs ∧ symmetric_array consts.
Proof.
  intros Hsq Hsym H.
  destruct (lm_sym_to_coeffs_cases linear_matrix variables)
    as [(g & Hg & Hok)|(i' & j' & er & _ & _ & _ & Hr)]; [|congruence].
  rewrite Hok in H. injection H as <- <-. rewrite <- Hsq.
  pose proof (cell_results_symmetric linear_matrix variables g
                Hsq Hsym Hg) as Hgs.
  split.
  - apply Forall_fmap, Forall_forall. intros v _.
    by apply (symmetric_array_tabulate _ g
                (λ r, default (float 0%Qc) (r.1 !! v))).
  - by apply (symmetric_array_tabulate _ g snd).
Qed.

(** X10: [lm_sym_to_coeffs] raises nothing but [NonLinearMatrixError],
    and only when [lin_expr_coeffs] fails on a cell of the matrix: the
    [IndexError] of [coeffs_elem[i]] never occurs. *)
Theorem lm_sym_to_coeffs_failure (linear_matrix : Matrix expr)
    (variables : list symbol) (er : exn) :
  lm_sym_to_coeffs float linear_matrix variables = Raise er →
  er = NonLinearMatrixError
         "'linear_matrix' must be composed of linear expressions w.r.t. 'variables'" ∧
  ∃ i j, i < rows linear_matrix ∧ j < cols linear_matrix ∧
    lin_expr_coeffs float (entry linear_matrix i j) variables =
      Raise (NonLinearExpressionError
               "'linear_expr' must be linear w.r.t. 'variables'").
Proof.
  intros H.
  destruct (lm_sym_to_coeffs_cases linear_matrix variables)
    as [(g & Hg & Hok)|(i & j & er' & Hi & Hj & Her & Hr)]; [congruence|].
  split; [congruence|]. exists i, j. split; [done|]. split; [done|].
  by rewrite Her, (lin_expr_coeffs_raise float _ _ _ Her).
Qed.
End lm_sym_to_coeffs_arrays.

Lemma lm_sym_to_coeffs_cells_witness :
  let x := Symbol "x" in
  let lm := [[Sym x; One]; [One; sympy_mul_number (Q2Qc 2) (Sym x)]] in
  ∃ coeffs_elem c,
    lin_expr_coeffs (λ q, q) (entry lm 1 1) [x] = OK (coeffs_elem, c) ∧
    mlookup [[0%Qc; 1%Qc]; [1%Qc; 0%Qc]] 1 1 = Some c ∧
    ∀ v, v < length [x] →
      (C ← [[[1%Qc; 0%Qc]; [0%Qc; Q2Qc 2]]] !! v; mlookup C 1 1) =
        coeffs_elem !! v.
Proof.
  cbn zeta.
  apply (lm_sym_to_coeffs_cells (λ q, q)
           [[Sym (Symbol "x"); One];
            [One; sympy_mul_number (Q2Qc 2) (Sym (Symbol "x"))]]
           [Symbol "x"]).
  - qc_eq.
  - cbn. lia.
  - cbn. lia.
Defined.

Lemma lm_sym_to_coeffs_symmetric_witness :
  Forall symmetric_array [[[1%Qc; 0%Qc]; [0%Qc; Q2Qc 2]]] ∧
  symmetric_array [[0%Qc; 1%Qc]; [1%Qc; 0%Qc]].
Proof.
  apply (lm_sym_to_coeffs_symmetric (λ q, q)
           [[Sym (Symbol "x"); One];
            [One; sympy_mul_number (Q2Qc 2) (Sym (Symbol "x"))]]
           [Symbol "x"]).
  - reflexivity.
  - intros [|[|i]] [|[|j]]; reflexivity.
  - qc_eq.
Defined.

Lemma lm_sym_to_coeffs_failure_witness :
  let x := Symbol "x" in
  let lm := [[Sym x; One]; [One; Pow (Sym x) 2]] in
  NonLinearMatrixError
    "'linear_matrix' must be composed of linear expressions w.r.t. 'variables'" =
  NonLinearMatrixError
    "'linear_matrix' must be composed of linear expressions w.r.t. 'variables'" ∧
  ∃ i j, i < rows lm ∧ j < cols lm ∧
    lin_expr_coeffs (λ q, q) (entry lm i j) [x] =
      Raise (NonLinearExpressionError
               "'linear_expr' must be linear w.r.t. 'variables'").
Proof.
  cbn zeta.
  apply (lm_sym_to_coeffs_failure (λ q, q)
           [[Sym (Symbol "x"); One]; [One; Pow (Sym (Symbol "x")) 2]]
           [Symbol "x"]).
  vm_compute. reflexivity.
Defined.

(** ** [lm_coeffs_to_sym] on ill-formed input *)

Lemma for_each_ext_in {A S} (l : list A) (body1 body2 : S → A → result S) s :
  (∀ s x, x ∈ l → body1 s x = body2 s x) →
  for_each l body1 s = for_each l body2 s.
Proof.
  revert s. induction l as [|x l IH]; intros s H; [done|].
  cbn. rewrite (H s x) by left. destruct (body2 s x); cbn; [|done].
  apply IH. intros s' y Hy. apply H. by right.
Qed.

Lemma rows_matrix_map {A B} (f : A → B) (m : Matrix A) :
  rows (matrix_map f m) = rows m.
Proof. unfold rows, matrix_map. by rewrite length_fmap. Qed.

Lemma cols_matrix_map {A B} (f : A → B) (m : Matrix A) :
  cols (matrix_map f m) = cols m.
Proof. destruct m as [|r m]; [done|]. cbn. by rewrite length_fmap. Qed.

Lemma zip_seq_split {A} (xs : list A) k :
  k ≤ length xs →
  zip (seq 0 (length xs)) xs =
    zip (seq 0 k) (take k xs) ++ zip (seq k (length xs - k)) (drop k xs).
Proof.
  intros Hk.
  rewrite <- zip_with_app by (rewrite length_seq, length_take; lia).
  rewrite take_drop. f_equal.
  replace (length xs) with (k + (length xs - k)) at 1 by lia.
  by rewrite seq_app.
Qed.

(** The loop of [lm_coeffs_to_sym] over the first [k] variables reads the
    first [k] coefficient matrices only. *)
Lemma lm_coeffs_to_sym_prefix r c (coeffs : list (Matrix Qc))
    (variables : list symbol) (k : nat) (lm : Matrix expr) :
  k ≤ length variables → k ≤ length coeffs →
  Forall (shape r c) (take k coeffs) → shape r c lm →
  ∃ lm',
    for_each (zip (seq 0 k) (take k variables))
      (λ lm '(i, x),
         ci ← getitem coeffs i;
         matrix_add lm (symbol_mul_ImmutableMatrix x ci))
      lm = OK lm' ∧
    shape r c lm'.
Proof.
  intros Hkv Hkc Hsh Hlm.
  destruct (lm_coeffs_to_sym_loop r c (take k coeffs) (take k variables) 0 lm)
    as (lm' & Hloop & Hlm' & _); [done| |done|].
  { rewrite !length_take. lia. }
  exists lm'. split; [|done]. rewrite <- Hloop.
  rewrite length_take, Nat.min_l by done.
  apply for_each_ext_in. intros s [i x] Hix.
  apply elem_of_zip_l, elem_of_seq in Hix.
  unfold getitem. by rewrite lookup_take_lt by lia.
Qed.

(** X11: with fewer coefficient matrices than variables (all of the
    shape of the constant matrix), [lm_coeffs_to_sym] raises
    [IndexError]. *)
Theorem lm_coeffs_to_sym_too_few_coeffs (coeffs : list (Matrix Qc))
    (consts : Matrix Qc) (variables : list symbol) :
  wf_matrix consts →
  Forall (shape (rows consts) (cols consts)) coeffs →
  length coeffs < length variables →
  lm_coeffs_to_sym (coeffs, consts) variables =
    Raise (IndexError "list index out of range").
Proof.
  intros Hwf Hsh Hlen. unfold lm_coeffs_to_sym. cbn [fst snd].
  rewrite (zip_seq_split variables (length coeffs)) by lia.
  rewrite for_each_app.
  destruct (lm_coeffs_to_sym_prefix (rows consts) (cols consts) coeffs variables
              (length coeffs) (ImmutableMatrix consts))
    as (lm' & -> & _); [lia|done| |by apply shape_matrix_map, wf_matrix_shape|].
  { by rewrite take_ge. }
  cbn [mbind result_bind].
  destruct (drop (length coeffs) variables) as [|x rest] eqn:E.
  { apply (f_equal length) in E. rewrite length_drop in E. cbn in E. lia. }
  replace (length variables - length coeffs)
    with (S (length variables - length coeffs - 1)) by lia.
  cbn [seq zip_with for_each]. unfold getitem.
  by rewrite lookup_ge_None_2 by done.
Qed.

(** X12: coefficient matrices beyond the number of variables are not
    read: [lm_coeffs_to_sym] returns or raises the same with and without
    them. *)
Theorem lm_coeffs_to_sym_ignores_surplus (coeffs surplus : list (Matrix Qc))
    (consts : Matrix Qc) (variables : list symbol) :
  length variables ≤ length coeffs →
  lm_coeffs_to_sym (coeffs ++ surplus, consts) variables =
    lm_coeffs_to_sym (coeffs, consts) variables.
Proof.
  intros Hlen. unfold lm_coeffs_to_sym. cbn [fst snd].
  apply for_each_ext_in. intros s [i x] Hix.
  apply elem_of_zip_l, elem_of_seq in Hix.
  unfold getitem. by rewrite lookup_app_l by lia.
Qed.

(** X13: when the first coefficient matrix whose shape differs from
    that of the constant matrix belongs to one of the variables,
    [lm_coeffs_to_sym] raises [ShapeError], as the matrix sum does. *)
Theorem lm_coeffs_to_sym_shape_mismatch (coeffs : list (Matrix Qc))
    (consts : Matrix Qc) (variables : list symbol) (i : nat) (C : Matrix Qc) :
  wf_matrix consts →
  i < length variables → coeffs !! i = Some C →
  Forall (shape (rows consts) (cols consts)) (take i coeffs) →
  ¬ (rows C = rows consts ∧ cols C = cols consts) →
  ∃ msg, lm_coeffs_to_sym (coeffs, consts) variables = Raise (ShapeError msg).
Proof.
  intros Hwf Hi HC Hsh Hne. eexists. unfold lm_coeffs_to_sym. cbn [fst snd].
  rewrite (zip_seq_split variables i) by lia.
  rewrite for_each_app.
  destruct (lm_coeffs_to_sym_prefix (rows consts) (cols consts) coeffs variables
              i (ImmutableMatrix consts))
    as (lm' & -> & Hlm');
    [lia|apply lookup_lt_Some in HC; lia|done|
     by apply shape_matrix_map, wf_matrix_shape|].
  cbn [mbind result_bind].
  destruct (drop i variables) as [|x rest] eqn:E.
  { apply (f_equal length) in E. rewrite length_drop in E. cbn in E. lia. }
  replace (length variables - i) with (S (length variables - i - 1)) by lia.
  cbn [seq zip_with for_each]. unfold getitem. rewrite HC.
  cbn [mbind result_bind]. unfold matrix_add.
  destruct (shape_cols _ _ lm' Hlm') as [Hr Hc].
  { unfold rows, cols. by destruct consts. }
  unfold symbol_mul_ImmutableMatrix.
  rewrite rows_matrix_map, cols_matrix_map, Hr, Hc.
  rewrite decide_False; [done|]. intros [? ?]. apply Hne. done.
Qed.

Lemma lm_coeffs_to_sym_too_few_coeffs_witness :
  lm_coeffs_to_sym ([[[1%Qc]]], [[0%Qc]]) [Symbol "x"; Symbol "y"] =
    Raise (IndexError "list index out of range").
Proof.
  apply lm_coeffs_to_sym_too_few_coeffs.
  - repeat constructor.
  - repeat constructor.
  - cbn. lia.
Defined.

Lemma lm_coeffs_to_sym_ignores_surplus_witness :
  lm_coeffs_to_sym ([[[1%Qc]]] ++ [[[Q2Qc 5; Q2Qc 6]]], [[0%Qc]]) [Symbol "x"] =
    lm_coeffs_to_sym ([[[1%Qc]]], [[0%Qc]]) [Symbol "x"].
Proof.
  apply lm_coeffs_to_sym_ignores_surplus. cbn. lia.
Defined.

Lemma lm_coeffs_to_sym_shape_mismatch_witness :
  ∃ msg,
    lm_coeffs_to_sym ([[[1%Qc]]; [[1%Qc; 0%Qc]; [0%Qc; 1%Qc]]], [[0%Qc]])
      [Symbol "x"; Symbol "y"] = Raise (ShapeError msg).
Proof.
  apply (lm_coeffs_to_sym_shape_mismatch _ _ _ 1 [[1%Qc; 0%Qc]; [0%Qc; 1%Qc]]).
  - repeat constructor.
  - cbn. lia.
  - reflexivity.
  - repeat constructor.
  - cbn. lia.
Defined.

(** ** The blocks as a partition of the diagonal *)

(** Consecutive pairs of a chain [a <= x1 <= ... <= xk <= n]: the [k]-th
    pair starts where the lengths of the pairs before it add up to. *)
Lemma chain_pairs (a : nat) (I : list nat) (n : nat) :
  StronglySorted le (a :: I ++ [n]) →
  let ps := zip (a :: I) (I ++ [n]) in
  Forall (λ p, a ≤ p.1 ∧ p.1 ≤ p.2 ∧ p.2 ≤ n) ps ∧
  a + sum_list ((λ p, p.2 - p.1) <$> ps) = n ∧
  ∀ k p, ps !! k = Some p →
    a + sum_list ((λ p, p.2 - p.1) <$> take k ps) = p.1.
Proof.
  cbn zeta. revert a. induction I as [|x I IH]; intros a Hs.
  - apply StronglySorted_inv in Hs as [_ Ha].
    apply Forall_cons in Ha as [Han _]. cbn. split; [|split].
    + repeat constructor; cbn; lia.
    + lia.
    + intros [|k] p; cbn; [|done]. intros [= <-]. cbn. lia.
  - apply StronglySorted_inv in Hs as [Hs Ha].
    cbn [app] in Ha. apply Forall_cons in Ha as [Hax Ha].
    assert (Hxn : x ≤ n).
    { apply StronglySorted_inv in Hs as [_ Hx].
      rewrite Forall_app in Hx. destruct Hx as [_ Hx].
      by apply Forall_cons in Hx as [? _]. }
    destruct (IH x Hs) as (IH1 & IH2 & IH3).
    change (zip (a :: x :: I) ((x :: I) ++ [n]))
      with ((a, x) :: zip (x :: I) (I ++ [n])).
    set (ps := zip (x :: I) (I ++ [n])) in *.
    split; [|split].
    + constructor; [cbn; lia|].
      eapply Forall_impl; [exact IH1|]. intros [p1 p2]. cbn. lia.
    + rewrite fmap_cons. cbn [sum_list fst snd]. unfold id in *. lia.
    + intros [|k] p; cbn [lookup list_lookup take].
      * intros [= <-]. cbn. lia.
      * intros Hp. rewrite fmap_cons. cbn [sum_list fst snd]. unfold id in *.
        specialize (IH3 k p Hp). lia.
Qed.

Lemma chain_pairs_lt (a : nat) (I : list nat) (n : nat) :
  StronglySorted lt (a :: I ++ [n]) →
  Forall (λ p, p.1 < p.2) (zip (a :: I) (I ++ [n])).
Proof.
  revert a. induction I as [|x I IH]; intros a Hs.
  - apply StronglySorted_inv in Hs as [_ Ha].
    apply Forall_cons in Ha as [Han _]. by repeat constructor.
  - apply StronglySorted_inv in Hs as [Hs Ha].
    cbn [app] in Ha. apply Forall_cons in Ha as [Hax _].
    change (zip (a :: x :: I) ((x :: I) ++ [n]))
      with ((a, x) :: zip (x :: I) (I ++ [n])).
    constructor; [done|]. by apply IH.
Qed.

Lemma StronglySorted_lt_le (l : list nat) :
  StronglySorted lt l → StronglySorted le l.
Proof.
  induction 1 as [|x l _ IH Hx]; constructor; [done|].
  eapply Forall_impl; [exact Hx|]. intros y. cbn. lia.
Qed.

Lemma rows_submatrix {A} (m : Matrix A) a b :
  b ≤ rows m → rows (submatrix a b m) = b - a.
Proof.
  intros Hb. unfold submatrix, slice, rows in *.
  rewrite length_fmap, length_take, length_drop. lia.
Qed.

(** The boundaries of a square matrix form a chain from [0] to [n]. *)
Lemma idxs_chain (m : Matrix expr) :
  StronglySorted le (0 :: idxs_from m (rows m) 0 ++ [rows m]) ∧
  (0 < rows m →
   StronglySorted lt (0 :: idxs_from m (rows m) 0 ++ [rows m])).
Proof.
  destruct (idxs_from_sorted m (rows m) 0) as [H1 H2]; [lia|].
  assert (Hlt : 0 < rows m →
            StronglySorted lt (0 :: idxs_from m (rows m) 0 ++ [rows m])).
  { intros Hn. constructor.
    - apply StronglySorted_lt_snoc; [done|].
      eapply Forall_impl; [exact H1|]. cbn. lia.
    - apply Forall_app. split.
      + eapply Forall_impl; [exact H1|]. cbn. lia.
      + by constructor. }
  split; [|done].
  destruct (decide (0 < rows m)) as [Hn|Hn].
  - by apply StronglySorted_lt_le, Hlt.
  - rewrite idxs_from_done by lia. repeat constructor. lia.
Qed.

(** The windows [split_by_diag_blocks] cuts: consecutive, from [0] to
    [n]. *)
Lemma split_by_diag_blocks_windows (m : Matrix expr) :
  square m →
  ∃ ps : list (nat * nat),
    split_by_diag_blocks m = OK ((λ '(a, b), submatrix a b m) <$> ps) ∧
    Forall (λ p, p.1 ≤ p.2 ∧ p.2 ≤ rows m) ps ∧
    sum_list ((λ p, p.2 - p.1) <$> ps) = rows m ∧
    (∀ k p, ps !! k = Some p →
       sum_list ((λ p, p.2 - p.1) <$> take k ps) = p.1) ∧
    (0 < rows m → Forall (λ p, p.1 < p.2) ps).
Proof.
  intros Hsq. eexists. split.
  { rewrite split_by_diag_blocks_pairs by apply Hsq.
    by rewrite block_pairs_snoc. }
  destruct (idxs_chain m) as [Hle Hlt].
  destruct (chain_pairs 0 _ _ Hle) as (Hb & Hsum & Hpre).
  split; [|split; [|split]].
  - eapply Forall_impl; [exact Hb|]. intros [a b]. cbn. lia.
  - exact Hsum.
  - intros k p Hk. exact (Hpre k p Hk).
  - intros Hn. by apply chain_pairs_lt, Hlt.
Qed.

Lemma rows_windows (m : Matrix expr) (ps : list (nat * nat)) :
  Forall (λ p, p.1 ≤ p.2 ∧ p.2 ≤ rows m) ps →
  rows <$> ((λ '(a, b), submatrix a b m) <$> ps) = (λ p, p.2 - p.1) <$> ps.
Proof.
  intros Hps. rewrite <- list_fmap_compose.
  apply Forall_fmap_ext_1. eapply Forall_impl; [exact Hps|].
  intros [a b] [_ Hbn]. cbn. by apply rows_submatrix.
Qed.

(** X14: the blocks of a square matrix tile its diagonal: their sizes
    add up to the size of the matrix, none is empty unless the matrix is,
    and the [k]-th block is the window of the matrix that starts where
    the blocks before it end. *)
Theorem split_by_diag_blocks_partition (matrix : Matrix expr)
    (blocks : list (Matrix expr)) :
  square matrix → split_by_diag_blocks matrix = OK blocks →
  sum_list (rows <$> blocks) = rows matrix ∧
  (0 < rows matrix → Forall (λ B, 0 < rows B) blocks) ∧
  ∀ k B, blocks !! k = Some B →
    ∀ i j, i < rows B → j < rows B →
      entry B i j =
        entry matrix (sum_list (rows <$> take k blocks) + i)
                     (sum_list (rows <$> take k blocks) + j).
Proof.
  intros Hsq Hsplit.
  destruct (split_by_diag_blocks_windows matrix Hsq)
    as (ps & Hps & Hb & Hsum & Hpre & Hlt).
  rewrite Hps in Hsplit. injection Hsplit as <-.
  split; [|split].
  - by rewrite rows_windows.
  - intros Hn. specialize (Hlt Hn). apply Forall_fmap.
    rewrite Forall_forall in Hb, Hlt. apply Forall_forall.
    intros [a b] Hab. specialize (Hb _ Hab). specialize (Hlt _ Hab).
    cbn [fst snd] in Hb, Hlt |- *.
    change (0 < rows (submatrix a b matrix)).
    rewrite rows_submatrix by lia. lia.
  - intros k B HB i j Hi Hj.
    rewrite list_lookup_fmap in HB.
    destruct (ps !! k) as [[a b]|] eqn:Hk; [|done].
    cbn in HB. injection HB as <-.
    assert (Hab : a ≤ b ∧ b ≤ rows matrix).
    { rewrite Forall_forall in Hb.
      exact (Hb (a, b) (list_elem_of_lookup_2 _ _ _ Hk)). }
    rewrite rows_submatrix in Hi, Hj by lia.
    rewrite entry_submatrix, decide_True by done.
    rewrite <- fmap_take, rows_windows by by apply Forall_take.
    by rewrite (Hpre k (a, b) Hk).
Qed.

(** From cursor [c] on, a boundary [b] is appended only when the row and
    the column [b - 1] are zero from [b] on. *)
Lemma idxs_from_boundary (m : Matrix expr) n c b :
  c ≤ n - 1 → b ∈ idxs_from m n c →
  c < b ∧ ∀ l, b ≤ l ≤ n - 1 → nz_at m (b - 1) l = false.
Proof.
  remember (n - c) as k eqn:Hk.
  revert c Hk. induction (lt_wf k) as [k _ IH]. intros c -> Hc Hb.
  destruct (decide (c < n - 1)) as [H|H].
  - rewrite idxs_from_step in Hb by done.
    pose proof (next_cursor_bounds m n c H) as Hnb.
    unfold next_cursor in *.
    destruct (List.find _ _) as [x|] eqn:E; cbn in *.
    + destruct (IH (n - x) ltac:(lia) x eq_refl ltac:(lia) Hb) as [? ?].
      split; [lia|done].
    + apply elem_of_cons in Hb as [->|Hb].
      * split; [lia|]. intros l Hl.
        replace (c + 1 - 1) with c by lia.
        apply (find_none _ _ E). apply list_elem_of_In, elem_of_range_down. lia.
      * destruct (IH (n - (c + 1)) ltac:(lia) (c + 1) eq_refl ltac:(lia) Hb)
          as [? ?].
        split; [lia|done].
  - rewrite idxs_from_done in Hb by done. by apply elem_of_nil in Hb.
Qed.

(** X15: a boundary [b] other than [n] is returned only when row
    [b - 1] and column [b - 1] of the matrix are zero from index [b]
    on. *)
Theorem get_diag_block_idxs_boundary (matrix : Matrix expr) (idxs : list nat)
    (b : nat) :
  get_diag_block_idxs matrix = OK idxs → b ∈ idxs → b < rows matrix →
  0 < b ∧
  ∀ l, b ≤ l < rows matrix →
    entry matrix l (b - 1) = Zero ∧ entry matrix (b - 1) l = Zero.
Proof.
  intros Hidx Hb Hbn.
  assert (Hsq : rows matrix = cols matrix).
  { unfold get_diag_block_idxs in Hidx. by case_decide. }
  rewrite get_diag_block_idxs_square in Hidx by done. injection Hidx as <-.
  apply elem_of_app in Hb as [Hb|Hb].
  - apply idxs_from_boundary in Hb as [H0 Hz]; [|lia].
    split; [lia|]. intros l Hl.
    specialize (Hz l ltac:(lia)). unfold nz_at, nonzero in Hz.
    apply orb_false_elim in Hz as [H1 H2].
    apply negb_false_iff, expr_eqb_eq in H1, H2. done.
  - apply list_elem_of_singleton in Hb. lia.
Qed.

Lemma split_by_diag_blocks_partition_witness :
  let m := [[One; Zero; Zero]; [Zero; One; One]; [Zero; One; One]] in
  let blocks := [[[One]]; [[One; One]; [One; One]]] in
  sum_list (rows <$> blocks) = rows m ∧
  (0 < rows m → Forall (λ B, 0 < rows B) blocks) ∧
  ∀ k B, blocks !! k = Some B →
    ∀ i j, i < rows B → j < rows B →
      entry B i j =
        entry m (sum_list (rows <$> take k blocks) + i)
                (sum_list (rows <$> take k blocks) + j).
Proof.
  cbn zeta.
  apply (split_by_diag_blocks_partition
           [[One; Zero; Zero]; [Zero; One; One]; [Zero; One; One]]).
  - split; [by repeat constructor | done].
  - reflexivity.
Defined.

Lemma get_diag_block_idxs_boundary_witness :
  let m := [[One; Zero; Zero]; [Zero; One; One]; [Zero; One; One]] in
  0 < 1 ∧
  ∀ l, 1 ≤ l < rows m → entry m l (1 - 1) = Zero ∧ entry m (1 - 1) l = Zero.
Proof.
  cbn zeta.
  apply (get_diag_block_idxs_boundary
           [[One; Zero; Zero]; [Zero; One; One]; [Zero; One; One]] [1; 3]).
  - reflexivity.
  - vm_decide.
  - cbn. lia.
Defined.

(** ** The three loops of [prepare_lmi_for_sdp] *)

Lemma bind_singleton_id {X} (l : list X) : l ≫= (λ x, [x]) = l.
Proof. induction l as [|x l IH]; [done|]. by rewrite bind_cons, IH. Qed.

(** What a collecting loop returned was collected from results of every
    pass. *)
Lemma for_each_collect_inv {A B C} (f : A → result B) (g : B → list C)
    (xs : list A) (acc res : list C) :
  for_each xs (λ acc x, y ← f x; OK (acc ++ g y)) acc = OK res →
  ∃ ys, Forall2 (λ x y, f x = OK y) xs ys ∧ res = acc ++ (ys ≫= g).
Proof.
  revert acc. induction xs as [|x xs IH]; intros acc H.
  - cbn in H. injection H as <-. exists []. split; [constructor|].
    by rewrite app_nil_r.
  - cbn [for_each] in H. destruct (f x) as [y|] eqn:E; [|done].
    cbn [mbind result_bind] in H.
    destruct (IH _ H) as (ys & Hys & ->).
    exists (y :: ys). split; [by constructor|].
    by rewrite bind_cons, app_assoc.
Qed.

Section prepare_lmi_loops.
Context {F : Type} (float : Qc → F).

(** Once every input has its matrix, the call is the splitting loop
    followed by the extraction loop. *)
Lemma prepare_lmi_for_sdp_loops (lmis : list lmi_or_matrix)
    (lms : list (Matrix expr)) (variables : list symbol) (opt : bool) :
  Forall2 (λ lmi lm, lmi_matrix lmi = OK lm) lmis lms →
  prepare_lmi_for_sdp float (Several lmis) variables opt =
    (slms ← (if opt
             then for_each lms
                    (λ slms slm, blocks ← split_by_diag_blocks slm;
                                 OK (slms ++ blocks)) []
             else OK lms);
     for_each slms
       (λ coeffs slm, r ← lm_sym_to_coeffs float slm variables;
                      OK (coeffs ++ [r])) []).
Proof.
  intros Hlms. unfold prepare_lmi_for_sdp.
  pose proof (for_each_collect lmi_matrix (λ lm, [lm]) lmis lms [] Hlms) as H1.
  rewrite bind_singleton_id in H1. cbn [app] in H1.
  match goal with
  | |- context [for_each lmis ?b []] =>
      replace (for_each lmis b []) with (@OK (list (Matrix expr)) lms)
        by (symmetry; exact H1)
  end.
  cbn [mbind result_bind].
  destruct (if opt then _ else _) as [slms|]; cbn [mbind result_bind]; [|done].
  by destruct (for_each slms _ _).
Qed.

(** The splitting loop fails only on a matrix that is not square. *)
Lemma split_by_diag_blocks_cases (m : Matrix expr) :
  (rows m = cols m ∧ ∃ L, split_by_diag_blocks m = OK L) ∨
  (rows m ≠ cols m ∧
   split_by_diag_blocks m = Raise (NonSquareMatrixError "matrix must be square")).
Proof.
  destruct (decide (rows m = cols m)) as [H|H].
  - left. split; [done|]. by apply split_by_diag_blocks_total.
  - right. split; [done|]. unfold split_by_diag_blocks, get_diag_block_idxs.
    by rewrite decide_True.
Qed.

(** X16: with [optimize_by_diag_blocks], one matrix that is not square
    makes [prepare_lmi_for_sdp] raise [NonSquareMatrixError], whatever the
    other matrices hold: every matrix is split before any coefficient is
    extracted. *)
Theorem prepare_lmi_for_sdp_non_square (lmis : list lmi_or_matrix)
    (lms : list (Matrix expr)) (variables : list symbol) :
  Forall2 (λ lmi lm, lmi_matrix lmi = OK lm) lmis lms →
  Exists (λ lm, rows lm ≠ cols lm) lms →
  prepare_lmi_for_sdp float (Several lmis) variables true =
    Raise (NonSquareMatrixError "matrix must be square").
Proof.
  intros Hlms Hex. rewrite (prepare_lmi_for_sdp_loops lmis lms) by done.
  apply Exists_exists in Hex as (lm & Hlm & Hns).
  rewrite (for_each_raise lms _ (λ _, True)
             (NonSquareMatrixError "matrix must be square") [] lm); try done.
  - intros s _. destruct (split_by_diag_blocks_cases lm) as [[? _]|[_ ->]]; done.
  - intros s x _ _.
    destruct (split_by_diag_blocks_cases x) as [[_ [L ->]]|[_ ->]].
    + right. by eexists.
    + by left.
Qed.

(** X17: when every input yields its blocks and [lin_expr_coeffs] fails
    on a cell of one block, [prepare_lmi_for_sdp] raises
    [NonLinearMatrixError]. *)
Theorem prepare_lmi_for_sdp_non_linear (lmis : list lmi_or_matrix)
    (blocks : list (list (Matrix expr))) (variables : list symbol)
    (optimize_by_diag_blocks : bool) (b : Matrix expr) (i j : nat) (er : exn) :
  Forall2 (λ lmi bs, blocks_of optimize_by_diag_blocks lmi = OK bs)
          lmis blocks →
  b ∈ concat blocks → i < rows b → j < cols b →
  lin_expr_coeffs float (entry b i j) variables = Raise er →
  prepare_lmi_for_sdp float (Several lmis) variables optimize_by_diag_blocks =
    Raise (NonLinearMatrixError
             "'linear_matrix' must be composed of linear expressions w.r.t. 'variables'").
Proof.
  intros Hblocks Hb Hi Hj Her.
  assert (Hlms : ∃ lms,
            Forall2 (λ lmi lm, lmi_matrix lmi = OK lm) lmis lms ∧
            Forall2 (λ lm bs, if optimize_by_diag_blocks
                              then split_by_diag_blocks lm = OK bs
                              else bs = [lm]) lms blocks).
  { clear Hb. induction Hblocks as [|lmi bs lmis blocks Hbs _ IH].
    - exists []. split; constructor.
    - destruct IH as (lms & H1 & H2).
      unfold blocks_of in Hbs.
      destruct (lmi_matrix lmi) as [lm|] eqn:E; [|done].
      cbn [mbind result_bind] in Hbs.
      exists (lm :: lms). split; constructor; try done.
      destruct optimize_by_diag_blocks; [done|]. by injection Hbs. }
  destruct Hlms as (lms & Hlms & Hsplit).
  rewrite (prepare_lmi_for_sdp_loops lmis lms) by done.
  assert (H2 : (if optimize_by_diag_blocks
                then for_each lms
                       (λ slms slm, blocks ← split_by_diag_blocks slm;
                                    OK (slms ++ blocks)) []
                else OK lms) = OK (concat blocks)).
  { destruct optimize_by_diag_blocks.
    - pose proof (for_each_collect split_by_diag_blocks id lms blocks []
                    Hsplit) as H2.
      etransitivity; [exact H2|]. reflexivity.
    - f_equal. clear -Hsplit.
      induction Hsplit as [|lm bs lms blocks -> _ IH]; [done|].
      cbn. by rewrite <- IH. }
  rewrite H2. cbn [mbind result_bind].
  apply (for_each_raise _ _ (λ _, True) _ [] b); try done.
  - intros s _.
    by rewrite (lm_sym_to_coeffs_raise float b variables i j er).
  - intros s x _ _.
    destruct (lm_sym_to_coeffs_cases float x variables)
      as [(g & _ & ->)|(? & ? & ? & _ & _ & _ & ->)].
    + right. by eexists.
    + by left.
Qed.

(** X18: when the matrices of the inputs are square and symmetric, every
    array [prepare_lmi_for_sdp] returns is symmetric, with or without
    [optimize_by_diag_blocks]. *)
Theorem prepare_lmi_for_sdp_symmetric (lmis : list lmi_or_matrix)
    (lms : list (Matrix expr)) (variables : list symbol)
    (optimize_by_diag_blocks : bool)
    (coeffs : list (list (Matrix F) * Matrix F)) :
  Forall2 (λ lmi lm, lmi_matrix lmi = OK lm) lmis lms →
  Forall (λ lm, square lm ∧ symmetric lm) lms →
  prepare_lmi_for_sdp float (Several lmis) variables optimize_by_diag_blocks =
    OK coeffs →
  Forall (λ r, Forall symmetric_array r.1 ∧ symmetric_array r.2) coeffs.
Proof.
  intros Hlms Hsym H. rewrite (prepare_lmi_for_sdp_loops lmis lms) in H by done.
  assert (Hslms : ∃ slms,
            Forall (λ lm, square lm ∧ symmetric lm) slms ∧
            for_each slms
              (λ coeffs slm, r ← lm_sym_to_coeffs float slm variables;
                             OK (coeffs ++ [r])) [] = OK coeffs).
  { destruct optimize_by_diag_blocks.
    - destruct (for_each lms _ []) as [slms|] eqn:E; [|done].
      cbn [mbind result_bind] in H. exists slms. split; [|done].
      apply (for_each_collect_inv split_by_diag_blocks id) in E
        as (Ls & HLs & ->).
      cbn [app]. apply Forall_forall. intros blk Hblk.
      apply list_elem_of_bind in Hblk as (L & Hblk & HL). unfold id in Hblk.
      clear H Hlms. induction HLs as [|lm L' lms Ls Hsp _ IH].
      { by apply elem_of_nil in HL. }
      apply Forall_cons in Hsym as [[Hsq Hs] Hsym].
      apply elem_of_cons in HL as [->|HL]; [|by apply IH].
      pose proof (split_by_diag_blocks_square_symmetric lm L' Hsq Hsp) as HF.
      rewrite Forall_forall in HF. destruct (HF blk Hblk) as [? Hsb].
      split; [done|]. by apply Hsb.
    - cbn [mbind result_bind] in H. by exists lms. }
  destruct Hslms as (slms & Hsl & Hloop).
  apply (for_each_collect_inv (λ slm, lm_sym_to_coeffs float slm variables)
           (λ r, [r])) in Hloop as (rs & Hrs & ->).
  cbn [app]. rewrite bind_singleton_id.
  clear H. induction Hrs as [|lm [cs k] slms rs Hr _ IH]; [constructor|].
  apply Forall_cons in Hsl as [[Hsq Hs] Hsl].
  constructor; [|by apply IH]. cbn [fst snd].
  destruct Hsq as [_ Hsq].
  destruct (lm_sym_to_coeffs_cases float lm variables)
    as [(g & Hg & Hok)|(? & ? & ? & _ & _ & _ & Hraise)]; [|congruence].
  rewrite Hok in Hr. injection Hr as <- <-. rewrite <- Hsq.
  pose proof (cell_results_symmetric float lm variables g
                Hsq Hs Hg) as Hgs.
  split.
  - apply Forall_fmap, Forall_forall. intros v _.
    by apply (symmetric_array_tabulate _ g
                (λ r, default (float 0%Qc) (r.1 !! v))).
  - by apply (symmetric_array_tabulate _ g snd).
Qed.
End prepare_lmi_loops.

Lemma prepare_lmi_for_sdp_non_square_witness :
  let x := Symbol "x" in
  prepare_lmi_for_sdp (λ q, q)
    (Several [IsMatrix [[Pow (Sym x) 2]]; IsMatrix [[Sym x; One]]]) [x] true =
    Raise (NonSquareMatrixError "matrix must be square").
Proof.
  cbn zeta.
  apply (prepare_lmi_for_sdp_non_square (λ q, q) _
           [[[Pow (Sym (Symbol "x")) 2]]; [[Sym (Symbol "x"); One]]]).
  - repeat constructor.
  - apply Exists_cons. right. apply Exists_cons. left. cbn. lia.
Defined.

Lemma prepare_lmi_for_sdp_non_linear_witness :
  let x := Symbol "x" in
  prepare_lmi_for_sdp (λ q, q)
    (Several [IsMatrix [[Sym x; Zero]; [Zero; Pow (Sym x) 2]]]) [x] true =
    Raise (NonLinearMatrixError
             "'linear_matrix' must be composed of linear expressions w.r.t. 'variables'").
Proof.
  cbn zeta.
  apply (prepare_lmi_for_sdp_non_linear (λ q, q) _
           [[[[Sym (Symbol "x")]]; [[Pow (Sym (Symbol "x")) 2]]]] _ _
           [[Pow (Sym (Symbol "x")) 2]] 0 0
           (NonLinearExpressionError
              "'linear_expr' must be linear w.r.t. 'variables'")).
  - constructor; [vm_compute; reflexivity | constructor].
  - cbn [concat app]. right. left.
  - cbn. lia.
  - cbn. lia.
  - vm_compute. reflexivity.
Defined.

Lemma prepare_lmi_for_sdp_symmetric_witness :
  Forall (λ r : list (Matrix Qc) * Matrix Qc,
            Forall symmetric_array r.1 ∧ symmetric_array r.2)
         [([[[1%Qc]]], [[0%Qc]]); ([[[1%Qc]]], [[1%Qc]])].
Proof.
  apply (prepare_lmi_for_sdp_symmetric (λ q, q)
           [IsMatrix [[Sym (Symbol "x"); Zero];
                      [Zero; sympy_add (Sym (Symbol "x")) One]]]
           [[[Sym (Symbol "x"); Zero];
             [Zero; sympy_add (Sym (Symbol "x")) One]]]
           [Symbol "x"] true).
  - repeat constructor.
  - constructor; [|constructor]. split.
    + split; [by repeat constructor | done].
    + intros [|[|i]] [|[|j]]; reflexivity.
  - qc_eq.
Defined.

(** ** Diagonal matrices *)

Lemma idxs_from_diagonal (m : Matrix expr) n c :
  (∀ i j, i ≠ j → entry m i j = Zero) → c ≤ n - 1 →
  idxs_from m n c = seq (c + 1) (n - 1 - c).
Proof.
  intros Hd. remember (n - c) as k eqn:Hk.
  revert c Hk. induction (lt_wf k) as [k _ IH]. intros c -> Hc.
  destruct (decide (c < n - 1)) as [H|H].
  - rewrite idxs_from_step by done.
    assert (E : next_cursor m n c = ([c + 1], c + 1)).
    { unfold next_cursor. rewrite find_none_all_false; [done|].
      intros x Hx. apply elem_of_range_down in Hx.
      unfold nz_at. rewrite !Hd by lia. apply nonzero_Zero. }
    rewrite E. cbn [fst snd].
    rewrite (IH (n - (c + 1))) by (done || lia).
    replace (n - 1 - c) with (S (n - 1 - (c + 1))) by lia.
    cbn [seq app]. do 2 f_equal. lia.
  - rewrite idxs_from_done by done. by replace (n - 1 - c) with 0 by lia.
Qed.

Lemma slice_one {A} (l : list A) a x :
  l !! a = Some x → slice a (a + 1) l = [x].
Proof.
  intros H. unfold slice. replace (a + 1 - a) with 1 by lia.
  by rewrite (drop_S _ _ _ H).
Qed.

Lemma block_pairs_seq n :
  0 < n → block_pairs (seq 1 n) = (λ i, (i, i + 1)) <$> seq 0 n.
Proof.
  intros Hn. unfold block_pairs. rewrite length_seq.
  replace (take (n - 1) (seq 1 n)) with (seq 1 (n - 1)).
  2:{ rewrite take_seq. f_equal. lia. }
  change (0 :: seq 1 (n - 1)) with (seq 0 (S (n - 1))).
  replace (S (n - 1)) with n by lia.
  assert (H : ∀ s, zip (seq s n) (seq (S s) n) = (λ i, (i, i + 1)) <$> seq s n).
  { clear Hn. induction n as [|n IH]; intros s; [done|].
    cbn [seq zip_with fmap list_fmap]. f_equal; [f_equal; lia|]. apply IH. }
  apply H.
Qed.

(** X19: a diagonal matrix of size [n >= 1] has the boundaries
    [1, ..., n] and is split into its [n] diagonal entries, each a 1x1
    block. *)
Theorem split_by_diag_blocks_diagonal (matrix : Matrix expr) :
  square matrix → 0 < rows matrix →
  (∀ i j, i ≠ j → entry matrix i j = Zero) →
  get_diag_block_idxs matrix = OK (seq 1 (rows matrix)) ∧
  split_by_diag_blocks matrix =
    OK ((λ i, [[entry matrix i i]]) <$> seq 0 (rows matrix)).
Proof.
  intros Hsq Hn Hd.
  assert (Hidx : get_diag_block_idxs matrix = OK (seq 1 (rows matrix))).
  { rewrite get_diag_block_idxs_square by apply Hsq.
    rewrite idxs_from_diagonal by (done || lia). f_equal.
    replace (rows matrix) with ((rows matrix - 1 - 0) + 1) at 3 by lia.
    rewrite seq_app. cbn [seq]. do 2 f_equal. lia. }
  split; [done|].
  unfold split_by_diag_blocks. rewrite Hidx. cbn [mbind result_bind].
  fold (block_pairs (seq 1 (rows matrix))).
  rewrite block_pairs_seq by done. rewrite <- list_fmap_compose. f_equal.
  apply Forall_fmap_ext_1, Forall_forall. intros i Hi.
  apply elem_of_seq in Hi. cbn [compose].
  destruct (lookup_lt_is_Some_2 matrix i) as [row Hrow]; [unfold rows in *; lia|].
  assert (Hlen : length row = rows matrix).
  { apply square_rows_length; [done|]. by eapply list_elem_of_lookup_2. }
  destruct (lookup_lt_is_Some_2 row i) as [x Hx]; [lia|].
  unfold submatrix. rewrite (slice_one matrix i row Hrow).
  cbn [fmap list_fmap]. rewrite (slice_one row i x Hx).
  unfold entry. rewrite Hrow. cbn. by rewrite Hx.
Qed.

Lemma split_by_diag_blocks_diagonal_witness :
  let x := Symbol "x" in
  let m := [[Sym x; Zero; Zero]; [Zero; One; Zero]; [Zero; Zero; Sym x]] in
  get_diag_block_idxs m = OK (seq 1 (rows m)) ∧
  split_by_diag_blocks m = OK ((λ i, [[entry m i i]]) <$> seq 0 (rows m)).
Proof.
  cbn zeta.
  apply (split_by_diag_blocks_diagonal
           [[Sym (Symbol "x"); Zero; Zero]; [Zero; One; Zero];
            [Zero; Zero; Sym (Symbol "x")]]).
  - split; [by repeat constructor | done].
  - cbn. lia.
  - intros [|[|[|i]]] [|[|[|j]]] Hij; try reflexivity; done.
Defined.

(** ** From the coefficient arrays back to a matrix *)





(** ** [get_variables] *)

Lemma foldl_union_free_symbols (es : list expr) (s : gset symbol) x :
  x ∈ foldl (λ variables expr, variables ∪ free_symbols expr) s es ↔
  x ∈ s ∨ ∃ e, e ∈ es ∧ x ∈ free_symbols e.
Proof.
  revert s. induction es as [|e es IH]; intros s; cbn [foldl].
  - split; [by left|]. intros [?|(e & He & _)]; [done|].
    by apply elem_of_nil in He.
  - rewrite IH, elem_of_union. split.
    + intros [[?|?]|(e' & He' & ?)].
      * by left.
      * right. exists e. split; [left|done].
      * right. exists e'. split; [by right|done].
    + intros [?|(e' & He' & ?)].
      * left. by left.
      * apply elem_of_cons in He' as [->|He'].
        -- left. by right.
        -- right. by exists e'.
Qed.

Lemma elem_of_concat {A} (ls : list (list A)) x :
  x ∈ concat ls ↔ ∃ l, l ∈ ls ∧ x ∈ l.
Proof.
  induction ls as [|l ls IH]; cbn [concat].
  - split; [by intros ?%elem_of_nil|]. by intros (l & ?%elem_of_nil & _).
  - rewrite elem_of_app, IH. split.
    + intros [?|(l' & ? & ?)].
      * exists l. split; [left|done].
      * exists l'. split; [by right|done].
    + intros (l' & Hl' & ?). apply elem_of_cons in Hl' as [->|?].
      * by left.
      * right. by exists l'.
Qed.

Section get_variables_props.
Context (ordered : gset symbol → list symbol).
Hypothesis ordered_elements : ∀ s, ordered s ≡ₚ elements s.

(** The loop over the matrices gathers the symbols of every entry. *)
Lemma get_variables_loop (lmis : list lmi_or_matrix) (lms : list (Matrix expr))
    (s : gset symbol) :
  Forall2 (λ lmi lm, variables_matrix lmi = OK lm) lmis lms →
  ∃ s',
    for_each lmis
      (λ variables lmi,
         lm ← match lmi with
              | IsMatrix m => OK m
              | IsLMI l => canonical_gts l
              end;
         OK (foldl (λ variables expr, variables ∪ free_symbols expr)
                   variables (concat lm)))
      s = OK s' ∧
    ∀ x, x ∈ s' ↔
         x ∈ s ∨ ∃ lm row e, lm ∈ lms ∧ row ∈ lm ∧ e ∈ row ∧ x ∈ free_symbols e.
Proof.
  intros H. revert s. induction H as [|lmi lm lmis lms Hlm _ IH]; intros s.
  - exists s. split; [done|]. intros x. split; [by left|].
    intros [?|(lm & ? & ? & Hlm & _)]; [done|]. by apply elem_of_nil in Hlm.
  - cbn [for_each]. unfold variables_matrix in Hlm. rewrite Hlm.
    cbn [mbind result_bind].
    destruct (IH (foldl (λ variables expr, variables ∪ free_symbols expr)
                        s (concat lm))) as (s' & -> & Hs').
    exists s'. split; [done|]. intros x.
    rewrite Hs', foldl_union_free_symbols. split.
    + intros [[?|(e & He & ?)]|(lm' & row & e & ? & ? & ? & ?)].
      * by left.
      * right. apply elem_of_concat in He as (row & ? & ?).
        exists lm, row, e. split; [left|done].
      * right. exists lm', row, e. split; [by right|done].
    + intros [?|(lm' & row & e & Hlm' & ? & ? & ?)].
      * left. by left.
      * apply elem_of_cons in Hlm' as [->|?].
        -- left. right. exists e. split; [|done].
           apply elem_of_concat. by exists row.
        -- right. by exists lm', row, e.
Qed.

(** X21: [get_variables] returns, without repetition, exactly the
    symbols that occur in the objective or in an entry of one of the
    matrices ([ordered] lists each element of its argument once). *)
Theorem get_variables_symbols (objective_func : expr)
    (lmis : list lmi_or_matrix) (lms : list (Matrix expr)) :
  Forall2 (λ lmi lm, variables_matrix lmi = OK lm) lmis lms →
  ∃ variables,
    get_variables ordered objective_func lmis = OK variables ∧
    NoDup variables ∧
    ∀ x, x ∈ variables ↔
         x ∈ free_symbols objective_func ∨
         ∃ lm row e, lm ∈ lms ∧ row ∈ lm ∧ e ∈ row ∧ x ∈ free_symbols e.
Proof.
  intros H. unfold get_variables.
  destruct (get_variables_loop lmis lms (free_symbols objective_func) H)
    as (s' & -> & Hs').
  cbn [mbind result_bind]. eexists. split; [done|]. split.
  - rewrite ordered_elements. apply NoDup_elements.
  - intros x. by rewrite ordered_elements, elem_of_elements, Hs'.
Qed.

End get_variables_props.

(** ** [to_cvxopt] *)

Lemma length_concat_shape {A} n k (m : Matrix A) :
  shape n k m → length (concat m) = n * k.
Proof.
  intros [<- Hrows]. induction Hrows as [|row m Hrow _ IH]; [done|].
  cbn [concat length]. rewrite length_app, IH, Hrow. lia.
Qed.

Section to_cvxopt_props.
Context {F M : Type} (float : Qc → F) (fneg : F → F).
Context (matrix : list F → M) (matrix_of_lists : list (list F) → M).

Lemma to_cvxopt_loop (lmi_coeffs : list (list (Matrix F) * Matrix F))
    (Gs hs : list M) :
  foldl (λ '(Gs, hs) '(LMis, LM0),
           (Gs ++ [matrix_of_lists
                     ((λ LMi : Matrix F, fneg <$> concat LMi) <$> LMis)],
            hs ++ [matrix_of_lists LM0]))
        (Gs, hs) lmi_coeffs =
  (Gs ++ ((λ r, matrix_of_lists
                  ((λ LMi : Matrix F, fneg <$> concat LMi) <$> r.1))
            <$> lmi_coeffs),
   hs ++ ((λ r, matrix_of_lists r.2) <$> lmi_coeffs)).
Proof.
  revert Gs hs. induction lmi_coeffs as [|[LMis LM0] l IH]; intros Gs hs.
  - cbn. by rewrite !app_nil_r.
  - cbn [foldl fmap list_fmap fst snd]. rewrite IH.
    by rewrite <- !app_assoc.
Qed.

(** Every pair [prepare_lmi_for_sdp] returns comes from one block. *)
Lemma prepare_lmi_for_sdp_pairs (lmis : lmi_arg) (variables : list symbol)
    (opt : bool) (coeffs : list (list (Matrix F) * Matrix F)) :
  prepare_lmi_for_sdp float lmis variables opt = OK coeffs →
  ∃ slms, Forall2 (λ slm r, lm_sym_to_coeffs float slm variables = OK r)
                  slms coeffs.
Proof.
  unfold prepare_lmi_for_sdp.
  destruct (for_each _ _ []) as [slms1|]; [|done]. cbn [mbind result_bind].
  destruct (if opt then _ else _) as [slms|]; [|done]. cbn [mbind result_bind].
  destruct (for_each slms _ []) as [cs|] eqn:E; [|done].
  cbn [mbind result_bind]. intros [= <-].
  apply (for_each_collect_inv (λ slm, lm_sym_to_coeffs float slm variables)
           (λ r, [r])) in E as (rs & Hrs & ->).
  exists slms. cbn [app]. by rewrite bind_singleton_id.
Qed.

(** X23: when [cvxopt] is there and [to_cvxopt] returns, both
    preparations returned; [c] is built from one coefficient per variable,
    [Gs] and [hs] hold one matrix per block in the order of
    [prepare_lmi_for_sdp]: [Gs[k]] from one list per variable, the negated
    coefficient array flattened row by row, of [n * k] entries for a block
    of shape [n] x [k], and [hs[k]] from the rows of the constant array. *)
Theorem to_cvxopt_result (objective_func : expr) (lmis : lmi_arg)
    (variables : list symbol) (objective_type : string)
    (optimize_by_diag_blocks : bool) (c : M) (Gs hs : list M) :
  to_cvxopt float fneg matrix matrix_of_lists true objective_func lmis
    variables objective_type optimize_by_diag_blocks = inr (OK (c, Gs, hs)) →
  ∃ obj_coeffs lmi_coeffs,
    prepare_objective_for_sdp float objective_func variables objective_type =
      OK obj_coeffs ∧
    prepare_lmi_for_sdp float lmis variables optimize_by_diag_blocks =
      OK lmi_coeffs ∧
    length obj_coeffs = length variables ∧
    c = matrix obj_coeffs ∧
    Gs = (λ r, matrix_of_lists
                 ((λ LMi : Matrix F, fneg <$> concat LMi) <$> r.1))
           <$> lmi_coeffs ∧
    hs = (λ r, matrix_of_lists r.2) <$> lmi_coeffs ∧
    Forall (λ r, ∃ n k,
              shape n k r.2 ∧
              length r.1 = length variables ∧
              Forall (λ LMi : Matrix F, length (fneg <$> concat LMi) = n * k)
                     r.1)
           lmi_coeffs.
Proof.
  unfold to_cvxopt. cbn [negb]. intros H. injection H as H.
  destruct (prepare_objective_for_sdp _ _ _ _) as [obj_coeffs|] eqn:Hobj;
    [|done].
  destruct (prepare_lmi_for_sdp _ _ _ _) as [lmi_coeffs|] eqn:Hlmi; [|done].
  cbn [mbind result_bind] in H. rewrite to_cvxopt_loop in H. cbn [app] in H.
  injection H as <- <- <-.
  exists obj_coeffs, lmi_coeffs. split; [done|]. split; [done|].
  split; [|split; [done|split; [done|split; [done|]]]].
  - unfold prepare_objective_for_sdp in Hobj.
    destruct (if bool_decide _ then _ else _) as [e|]; [|done].
    cbn [mbind result_bind] in Hobj.
    destruct (lin_expr_coeffs float e variables) as [[cs k]|] eqn:E; [|done].
    cbn [mbind result_bind] in Hobj. injection Hobj as <-.
    by eapply lin_expr_coeffs_length.
  - destruct (prepare_lmi_for_sdp_pairs _ _ _ _ Hlmi) as (slms & Hs).
    clear Hlmi. induction Hs as [|slm [cs k] slms rs Hr _ IH]; constructor;
      [|done].
    apply lm_sym_to_coeffs_shape in Hr as (Hlen & Hcs & Hk).
    exists (rows slm), (cols slm). cbn [fst snd]. split; [done|].
    split; [done|]. eapply Forall_impl; [exact Hcs|]. intros LMi HLMi. cbn.
    rewrite length_fmap. by apply length_concat_shape.
Qed.
End to_cvxopt_props.

Lemma get_variables_symbols_witness :
  let x := Symbol "x" in
  let y := Symbol "y" in
  let z := Symbol "z" in
  ∃ variables,
    get_variables elements (sympy_add (Sym x) (Sym z))
      [IsMatrix [[Sym x; Sym y]; [Sym y; One]]] = OK variables ∧
    NoDup variables ∧
    ∀ s, s ∈ variables ↔
         s ∈ free_symbols (sympy_add (Sym x) (Sym z)) ∨
         ∃ lm row e, lm ∈ [[[Sym x; Sym y]; [Sym y; One]]] ∧ row ∈ lm ∧
                     e ∈ row ∧ s ∈ free_symbols e.
Proof.
  cbn zeta.
  apply (get_variables_symbols elements).
  - reflexivity.
  - repeat constructor.
Defined.

Lemma to_cvxopt_result_witness :
  let x := Symbol "x" in
  ∃ obj_coeffs lmi_coeffs,
    prepare_objective_for_sdp (λ q, q) (Sym x) [x] "min" = OK obj_coeffs ∧
    prepare_lmi_for_sdp (λ q, q) (Single (IsMatrix [[sympy_add (Sym x) One]]))
      [x] false = OK lmi_coeffs ∧
    length obj_coeffs = length [x] ∧
    [[1%Qc]] = (λ l : list Qc, [l]) obj_coeffs ∧
    [[[Q2Qc (-1)]]] =
      (λ r : list (Matrix Qc) * Matrix Qc,
         id ((λ LMi : Matrix Qc, Qcopp <$> concat LMi) <$> r.1))
        <$> lmi_coeffs ∧
    [[[1%Qc]]] = (λ r : list (Matrix Qc) * Matrix Qc, id r.2) <$> lmi_coeffs ∧
    Forall (λ r : list (Matrix Qc) * Matrix Qc,
              ∃ n k, shape n k r.2 ∧ length r.1 = length [x] ∧
                     Forall (λ LMi : Matrix Qc,
                               length (Qcopp <$> concat LMi) = n * k) r.1)
           lmi_coeffs.
Proof.
  cbn zeta.
  apply (to_cvxopt_result (λ q, q) Qcopp (λ l : list Qc, [l]) id
           (Sym (Symbol "x"))
           (Single (IsMatrix [[sympy_add (Sym (Symbol "x")) One]]))
           [Symbol "x"] "min" false).
  qc_eq.
Defined.

(** ** Splitting a block again *)

Lemma find_range_down_Some (P : nat → bool) hi c x :
  List.find P (range_down hi c) = Some x →
  c < x ≤ hi ∧ P x = true ∧ ∀ y, x < y ≤ hi → P y = false.
Proof.
  remember (hi - c) as k eqn:Hk.
  revert hi Hk. induction k as [|k IH]; intros hi Hk H.
  - by rewrite range_down_nil in H by lia.
  - rewrite range_down_S in H by lia. cbn in H.
    destruct (P hi) eqn:E.
    + injection H as <-. split; [lia|]. split; [done|]. intros y Hy. lia.
    + destruct (IH (hi - 1) ltac:(lia) H) as (Hx & HP & Hy).
      split; [lia|]. split; [done|]. intros y Hy'.
      destruct (decide (y = hi)) as [->|]; [done|]. apply Hy. lia.
Qed.

Lemma find_range_down_found (P : nat → bool) hi c x :
  c < x ≤ hi → P x = true → (∀ y, x < y ≤ hi → P y = false) →
  List.find P (range_down hi c) = Some x.
Proof.
  intros Hx HP Hy. rewrite (find_range_down_skip P hi x c) by (lia || done).
  rewrite range_down_S by lia. cbn. by rewrite HP.
Qed.

Lemma nz_at_submatrix (m : Matrix expr) a b c x :
  c < b - a → x < b - a →
  nz_at (submatrix a b m) c x = nz_at m (a + c) (a + x).
Proof.
  intros Hc Hx. unfold nz_at. rewrite !entry_submatrix.
  by rewrite !decide_True by done.
Qed.

(** The boundaries found after the first one are those found from it. *)
Lemma idxs_from_tail (m : Matrix expr) n c b rest :
  c ≤ n - 1 → idxs_from m n c = b :: rest → rest = idxs_from m n b.
Proof.
  remember (n - c) as k eqn:Hk.
  revert c Hk. induction (lt_wf k) as [k _ IH]. intros c -> Hc H.
  destruct (decide (c < n - 1)) as [Hlt|Hlt].
  - rewrite idxs_from_step in H by done.
    pose proof (next_cursor_bounds m n c Hlt) as Hnb.
    unfold next_cursor in *.
    destruct (List.find _ _) as [x|]; cbn in *.
    + by apply (IH (n - x) ltac:(lia) x eq_refl ltac:(lia)).
    + injection H as <- <-. done.
  - by rewrite idxs_from_done in H.
Qed.

(** Inside the window that ends at the next boundary, the scan from the
    same cursor finds no boundary. *)
Lemma idxs_from_window (m : Matrix expr) n c a b :
  a ≤ c → c < b → head (idxs_from m n c ++ [n]) = Some b →
  idxs_from (submatrix a b m) (b - a) (c - a) = [].
Proof.
  remember (n - c) as k eqn:Hk.
  revert c Hk. induction (lt_wf k) as [k _ IH]. intros c -> Ha Hb Hhd.
  destruct (decide (c < n - 1)) as [Hlt|Hlt].
  - rewrite idxs_from_step in Hhd by done.
    pose proof (next_cursor_bounds m n c Hlt) as Hnb.
    unfold next_cursor in *.
    destruct (List.find _ _) as [x|] eqn:E; cbn in *.
    + apply find_range_down_Some in E as (Hx & HP & Hy).
      assert (Hxb : x < b).
      { destruct (idxs_from_sorted m n x) as [Hall _]; [lia|].
        destruct (idxs_from m n x) as [|b' rest]; cbn in Hhd.
        - injection Hhd as <-. lia.
        - injection Hhd as ->. apply Forall_cons in Hall as [? _]. lia. }
      assert (Hbn : b ≤ n).
      { destruct (idxs_from_sorted m n x) as [Hall _]; [lia|].
        destruct (idxs_from m n x) as [|b' rest]; cbn in Hhd.
        - injection Hhd as <-. lia.
        - injection Hhd as ->. apply Forall_cons in Hall as [? _]. lia. }
      rewrite idxs_from_step by lia.
      assert (En : next_cursor (submatrix a b m) (b - a) (c - a) = ([], x - a)).
      { unfold next_cursor.
        rewrite (find_range_down_found _ _ _ (x - a)); [done|lia| |].
        - rewrite nz_at_submatrix by lia.
          by replace (a + (c - a)) with c by lia;
             replace (a + (x - a)) with x by lia.
        - intros y Hy'. rewrite nz_at_submatrix by lia.
          replace (a + (c - a)) with c by lia. apply Hy. lia. }
      rewrite En. cbn [fst snd app].
      by apply (IH (n - x) ltac:(lia) x eq_refl ltac:(lia)).
    + injection Hhd as <-. apply idxs_from_done. lia.
  - rewrite idxs_from_done in Hhd by done. cbn in Hhd. injection Hhd as <-.
    apply idxs_from_done. lia.
Qed.

(** Every window between consecutive boundaries is left whole. *)
Lemma idxs_from_windows (m : Matrix expr) n a :
  a ≤ n - 1 →
  Forall (λ p, idxs_from (submatrix p.1 p.2 m) (p.2 - p.1) 0 = [])
         (zip (a :: idxs_from m n a) (idxs_from m n a ++ [n])).
Proof.
  remember (n - a) as k eqn:Hk.
  revert a Hk. induction (lt_wf k) as [k _ IH]. intros a -> Ha.
  destruct (idxs_from_sorted m n a) as [Hall _]; [done|].
  destruct (idxs_from m n a) as [|b rest] eqn:E.
  - cbn. constructor; [|constructor]. cbn.
    destruct (decide (a < n)) as [Han|Han].
    + pose proof (idxs_from_window m n a a n) as H.
      rewrite E, Nat.sub_diag in H. by apply H.
    + apply idxs_from_done. lia.
  - apply Forall_cons in Hall as [Hb _].
    pose proof (idxs_from_tail m n a b rest Ha E) as ->.
    change (zip (a :: b :: idxs_from m n b) ((b :: idxs_from m n b) ++ [n]))
      with ((a, b) :: zip (b :: idxs_from m n b) (idxs_from m n b ++ [n])).
    constructor.
    + cbn. pose proof (idxs_from_window m n a a b) as H.
      rewrite E, Nat.sub_diag in H. apply H; [done|lia|done].
    + apply (IH (n - b)); [lia|done|lia].
Qed.

(** X24: a block returned for a square matrix is left whole when it is
    split again: the blocks are fixed points of [split_by_diag_blocks]. *)
Theorem split_by_diag_blocks_idempotent (matrix : Matrix expr)
    (blocks : list (Matrix expr)) :
  square matrix → split_by_diag_blocks matrix = OK blocks →
  Forall (λ B, split_by_diag_blocks B = OK [B]) blocks.
Proof.
  intros Hsq Hsplit.
  rewrite split_by_diag_blocks_pairs in Hsplit by apply Hsq.
  injection Hsplit as <-. rewrite block_pairs_snoc.
  apply Forall_fmap.
  pose proof (idxs_from_windows matrix (rows matrix) 0 ltac:(lia)) as Hw.
  pose proof (block_pairs_snd_bound _ _ (idxs_bounds matrix)) as Hb.
  rewrite block_pairs_snoc in Hb.
  rewrite Forall_forall in Hw, Hb. apply Forall_forall.
  intros [a b] Hab. specialize (Hw _ Hab). specialize (Hb _ Hab).
  cbn [fst snd] in Hw, Hb |- *.
  assert (Hsub : square (submatrix a b matrix)) by by apply square_submatrix.
  apply split_by_diag_blocks_single; [done|].
  rewrite get_diag_block_idxs_square by apply Hsub.
  by rewrite rows_submatrix, Hw.
Qed.

Lemma split_by_diag_blocks_idempotent_witness :
  Forall (λ B, split_by_diag_blocks B = OK [B])
         [[[One; Zero; One]; [Zero; One; Zero]; [One; Zero; One]]; [[One]]].
Proof.
  apply (split_by_diag_blocks_idempotent
           [[One; Zero; One; Zero]; [Zero; One; Zero; One];
            [One; Zero; One; Zero]; [Zero; One; Zero; One]]).
  - split; [by repeat constructor | done].
  - reflexivity.
Defined.

(** ** What the scan looks at *)

Lemma idxs_from_ext (m m' : Matrix expr) n c :
  (∀ i j, i ≠ j → nonzero (entry m i j) = nonzero (entry m' i j)) →
  idxs_from m n c = idxs_from m' n c.
Proof.
  intros Hnz. remember (n - c) as k eqn:Hk.
  revert c Hk. induction (lt_wf k) as [k _ IH]. intros c ->.
  destruct (decide (c < n - 1)) as [H|H].
  - rewrite (idxs_from_step m n c), (idxs_from_step m' n c) by done.
    assert (E : next_cursor m n c = next_cursor m' n c).
    { unfold next_cursor.
      rewrite (find_ext_in (nz_at m c) (nz_at m' c)); [done|].
      intros x Hx. apply elem_of_range_down in Hx.
      unfold nz_at. by rewrite !Hnz by lia. }
    rewrite E. f_equal.
    pose proof (next_cursor_bounds m' n c H) as Hb.
    apply (IH (n - (next_cursor m' n c).2)); [lia|done].
  - by rewrite !idxs_from_done.
Qed.

(** X26: the boundaries depend on nothing but the shape of the matrix
    and on which entries off the diagonal are zero: the diagonal and the
    values of the nonzero entries play no part. *)
Theorem get_diag_block_idxs_zero_pattern (matrix matrix' : Matrix expr) :
  rows matrix = rows matrix' → cols matrix = cols matrix' →
  (∀ i j, i ≠ j →
     nonzero (entry matrix i j) = nonzero (entry matrix' i j)) →
  get_diag_block_idxs matrix = get_diag_block_idxs matrix'.
Proof.
  intros Hr Hc Hnz. unfold get_diag_block_idxs. rewrite <- Hr, <- Hc.
  case_decide; [done|]. do 2 f_equal.
  apply (idxs_from_ext matrix matrix' (rows matrix) 0 Hnz).
Qed.

Lemma get_diag_block_idxs_zero_pattern_witness :
  let x := Symbol "x" in
  get_diag_block_idxs [[Zero; Zero; Zero]; [Zero; Sym x; One]; [Zero; One; Zero]] =
  get_diag_block_idxs [[One; Zero; Zero]; [Zero; One; Sym x]; [Zero; Sym x; One]].
Proof.
  cbn zeta. apply get_diag_block_idxs_zero_pattern.
  - reflexivity.
  - reflexivity.
  - intros [|[|[|i]]] [|[|[|j]]] Hij; try reflexivity; done.
Defined.

(** ** The matrix [lm_coeffs_to_sym] builds *)

(** X27: for coefficient matrices of the shape of the constant matrix,
    at least one per variable, [lm_coeffs_to_sym] returns a matrix of that
    shape whose entry [(i, j)] is the expression
    [K[i,j] + C1[i,j]*x1 + ... + Cn[i,j]*xn], built from the left. *)
Theorem lm_coeffs_to_sym_entries (coeffs : list (Matrix Qc))
    (consts : Matrix Qc) (variables : list symbol) :
  wf_matrix consts →
  Forall (shape (rows consts) (cols consts)) coeffs →
  length variables ≤ length coeffs →
  ∃ lm,
    lm_coeffs_to_sym (coeffs, consts) variables = OK lm ∧
    shape (rows consts) (cols consts) lm ∧
    ∀ i j, i < rows consts → j < cols consts →
      mlookup lm i j =
        Some (affine_expr (default 0%Qc (mlookup consts i j))
                ((λ C, default 0%Qc (mlookup C i j)) <$> coeffs) variables).
Proof.
  intros Hwf Hsh Hlen.
  destruct (lm_coeffs_to_sym_loop (rows consts) (cols consts) coeffs variables 0
              (ImmutableMatrix consts))
    as (lm & Hloop & Hlm & Hcells);
    [done|lia|by apply shape_matrix_map, wf_matrix_shape|].
  exists lm. split; [exact Hloop|]. split; [done|].
  intros i j Hi Hj. rewrite (Hcells i j Hi Hj), drop_0.
  unfold affine_expr. do 2 f_equal.
  rewrite entry_mlookup. unfold ImmutableMatrix. rewrite mlookup_matrix_map.
  by destruct (mlookup_in_range _ _ consts i j (wf_matrix_shape _ Hwf) Hi Hj)
    as [q ->].
Qed.

Lemma lm_coeffs_to_sym_entries_witness :
  let x := Symbol "x" in
  let coeffs := [[[1%Qc; 0%Qc]; [0%Qc; Q2Qc 2]]] in
  let consts := [[0%Qc; 1%Qc]; [1%Qc; 0%Qc]] in
  ∃ lm,
    lm_coeffs_to_sym (coeffs, consts) [x] = OK lm ∧
    shape (rows consts) (cols consts) lm ∧
    ∀ i j, i < rows consts → j < cols consts →
      mlookup lm i j =
        Some (affine_expr (default 0%Qc (mlookup consts i j))
                ((λ C, default 0%Qc (mlookup C i j)) <$> coeffs) [x]).
Proof.
  cbn zeta. apply lm_coeffs_to_sym_entries.
  - repeat constructor.
  - repeat constructor.
  - cbn. lia.
Defined.

(** ** The objective of an affine expression *)

Section objective_affine.
Context {F : Type} (float : Qc → F).

(** X28: on the affine expression [a0 + a1*x1 + ... + an*xn] with
    distinct variables, a minimisation returns [[a1, ..., an]] and a
    maximisation [[-a1, ..., -an]], each as [float]; the constant [a0] is
    dropped. *)
Theorem prepare_objective_for_sdp_affine (a0 : Qc) (coeffs : list Qc)
    (variables : list symbol) (tmin tmax : string) :
  NoDup variables → length coeffs = length variables →
  lower tmin ∈ ["min"; "minimize"] → lower tmax ∈ ["max"; "maximize"] →
  prepare_objective_for_sdp float (affine_expr a0 coeffs variables) variables
    tmin = OK (float <$> coeffs) ∧
  prepare_objective_for_sdp float (affine_expr a0 coeffs variables) variables
    tmax = OK ((λ a, float (- a)%Qc) <$> coeffs).
Proof.
  intros Hnd Hlen Hmin Hmax. set (e := affine_expr a0 coeffs variables).
  assert (He : lin_expr_coeffs float e variables = OK (float <$> coeffs, float a0)).
  { by apply lin_expr_coeffs_affine_expr. }
  split.
  - by rewrite prepare_objective_for_sdp_min, He.
  - rewrite prepare_objective_for_sdp_max by done.
    set (ne := sympy_mul_number (-(1))%Qc e).
    assert (Hc : ∀ m, coef (poly_of ne) m = (- coef (poly_of e) m)%Qc).
    { intros m. unfold ne. rewrite coef_sympy_mul_number. ring. }
    destruct (lin_expr_coeffs_cases float e variables) as [[_ Haff]|[Hr _]];
      [|congruence].
    destruct (lin_expr_coeffs_cases float ne variables)
      as [[-> _]|[_ (m & Hm & Hne & Hv)]].
    + cbn [fmap result_fmap fst]. f_equal.
      apply list_eq. intros i. rewrite !list_lookup_fmap.
      destruct (variables !! i) as [x|] eqn:Hx; cbn.
      * destruct (lookup_lt_is_Some_2 coeffs i) as [a Ha].
        { rewrite Hlen. by eapply lookup_lt_Some. }
        rewrite Ha. cbn. do 2 f_equal. rewrite Hc. f_equal.
        by eapply coef_affine_expr_var.
      * rewrite lookup_ge_None_2; [done|].
        apply lookup_ge_None_1 in Hx. lia.
    + assert (Hme : coef (poly_of e) m ≠ 0%Qc).
      { intros H0. apply Hm. rewrite Hc, H0. ring. }
      destruct (Haff m Hme) as [|(x & Hx & ->)]; [done|].
      by destruct (Hv x Hx).
Qed.
End objective_affine.

Lemma prepare_objective_for_sdp_affine_witness :
  let vars := [Symbol "x"; Symbol "y"; Symbol "z"] in
  let coeffs := [1%Qc; Q2Qc (-17 # 5); 0%Qc] in
  prepare_objective_for_sdp (λ q, q) (affine_expr (Q2Qc (6 # 5)) coeffs vars)
    vars "Minimize" = OK ((λ q, q) <$> coeffs) ∧
  prepare_objective_for_sdp (λ q, q) (affine_expr (Q2Qc (6 # 5)) coeffs vars)
    vars "max" = OK ((λ a, (- a)%Qc) <$> coeffs).
Proof.
  cbn zeta. apply (prepare_objective_for_sdp_affine (λ q, q)).
  - vm_decide.
  - reflexivity.
  - vm_decide.
  - vm_decide.
Defined.

(** ** The total size of the blocks *)

Section prepare_lmi_sizes.
Context {F : Type} (float : Qc → F).

(** X25: no row is lost: the sizes of the constant arrays
    [prepare_lmi_for_sdp] returns add up to the sizes of the (square)
    matrices of the inputs, with or without [optimize_by_diag_blocks]. *)
Theorem prepare_lmi_for_sdp_total_size (lmis : list lmi_or_matrix)
    (lms : list (Matrix expr)) (variables : list symbol)
    (optimize_by_diag_blocks : bool)
    (coeffs : list (list (Matrix F) * Matrix F)) :
  Forall2 (λ lmi lm, lmi_matrix lmi = OK lm) lmis lms →
  Forall square lms →
  prepare_lmi_for_sdp float (Several lmis) variables optimize_by_diag_blocks =
    OK coeffs →
  sum_list ((λ r, rows r.2) <$> coeffs) = sum_list (rows <$> lms).
Proof.
  intros Hlms Hsq H. rewrite (prepare_lmi_for_sdp_loops float lmis lms) in H by done.
  assert (Hslms : ∃ slms,
            sum_list (rows <$> slms) = sum_list (rows <$> lms) ∧
            for_each slms
              (λ coeffs slm, r ← lm_sym_to_coeffs float slm variables;
                             OK (coeffs ++ [r])) [] = OK coeffs).
  { destruct optimize_by_diag_blocks.
    - destruct (for_each lms _ []) as [slms|] eqn:E; [|done].
      cbn [mbind result_bind] in H. exists slms. split; [|done].
      apply (for_each_collect_inv split_by_diag_blocks id) in E
        as (Ls & HLs & ->).
      cbn [app]. clear H Hlms.
      induction HLs as [|lm L lms Ls Hsp _ IH]; [done|].
      apply Forall_cons in Hsq as [Hm Hsq].
      rewrite bind_cons, !fmap_app, fmap_cons. change (id L) with L.
      rewrite sum_list_with_app. cbn [sum_list_with]. rewrite IH by done.
      f_equal.
      destruct (split_by_diag_blocks_windows lm Hm)
        as (ps & Hps & Hb & Hsum & _).
      rewrite Hps in Hsp. injection Hsp as <-.
      by rewrite rows_windows.
    - cbn [mbind result_bind] in H. by exists lms. }
  destruct Hslms as (slms & <- & Hloop).
  apply (for_each_collect_inv (λ slm, lm_sym_to_coeffs float slm variables)
           (λ r, [r])) in Hloop as (rs & Hrs & ->).
  cbn [app]. rewrite bind_singleton_id. clear H.
  induction Hrs as [|lm [cs k] slms rs Hr _ IH]; [done|].
  rewrite !fmap_cons. cbn [sum_list_with fst snd]. rewrite IH. f_equal.
  apply lm_sym_to_coeffs_shape in Hr as (_ & _ & [Hk _]). done.
Qed.
End prepare_lmi_sizes.

Lemma prepare_lmi_for_sdp_total_size_witness :
  sum_list ((λ r : list (Matrix Qc) * Matrix Qc, rows r.2)
              <$> [([[[1%Qc]]], [[0%Qc]]); ([[[1%Qc]]], [[1%Qc]])]) =
  sum_list (rows <$> [[[Sym (Symbol "x"); Zero];
                       [Zero; sympy_add (Sym (Symbol "x")) One]]]).
Proof.
  apply (prepare_lmi_for_sdp_total_size (λ q, q)
           [IsMatrix [[Sym (Symbol "x"); Zero];
                      [Zero; sympy_add (Sym (Symbol "x")) One]]]
           [[[Sym (Symbol "x"); Zero];
             [Zero; sympy_add (Sym (Symbol "x")) One]]]
           [Symbol "x"] true).
  - repeat constructor.
  - constructor; [|constructor]. split; [by repeat constructor | done].
  - qc_eq.
Defined.

(** ** Matrices that are not split *)

Lemma idxs_from_linked (m : Matrix expr) n c :
  (∀ c, c + 1 < n → nz_at m c (c + 1) = true) →
  idxs_from m n c = [].
Proof.
  intros Hlink. remember (n - c) as k eqn:Hk.
  revert c Hk. induction (lt_wf k) as [k _ IH]. intros c ->.
  destruct (decide (c < n - 1)) as [H|H].
  - rewrite idxs_from_step by done.
    pose proof (next_cursor_bounds m n c H) as Hb.
    unfold next_cursor in *.
    destruct (List.find _ _) as [x|] eqn:E; cbn [fst snd app] in *.
    + apply (IH (n - x)); [lia|done].
    + assert (Hf : nz_at m c (c + 1) = false).
      { apply (find_none _ _ E).
        apply list_elem_of_In, elem_of_range_down. lia. }
      rewrite Hlink in Hf by lia. done.
  - by apply idxs_from_done.
Qed.

(** X29: a square matrix in which every index is linked to the next by
    a nonzero entry just below or just right of the diagonal is not
    split: the only boundary is [n] and the only block the matrix. *)
Theorem split_by_diag_blocks_linked (matrix : Matrix expr) :
  square matrix →
  (∀ c, c + 1 < rows matrix →
     nonzero (entry matrix (c + 1) c) = true ∨
     nonzero (entry matrix c (c + 1)) = true) →
  get_diag_block_idxs matrix = OK [rows matrix] ∧
  split_by_diag_blocks matrix = OK [matrix].
Proof.
  intros Hsq Hlink.
  assert (Hidx : get_diag_block_idxs matrix = OK [rows matrix]).
  { rewrite get_diag_block_idxs_square by apply Hsq.
    rewrite idxs_from_linked; [done|].
    intros c Hc. unfold nz_at. apply orb_true_iff. by apply Hlink. }
  split; [done|]. by apply split_by_diag_blocks_single.
Qed.

Lemma split_by_diag_blocks_linked_witness :
  let x := Symbol "x" in
  let m := [[Sym x; One; Zero]; [One; Zero; Sym x]; [Zero; Sym x; One]] in
  get_diag_block_idxs m = OK [rows m] ∧ split_by_diag_blocks m = OK [m].
Proof.
  cbn zeta.
  apply (split_by_diag_blocks_linked
           [[Sym (Symbol "x"); One; Zero]; [One; Zero; Sym (Symbol "x")];
            [Zero; Sym (Symbol "x"); One]]).
  - split; [by repeat constructor | done].
  - intros [|[|c]] Hc; cbn in Hc; try lia; by left.
Defined.
